(** * golang-lru: the LRU engine (package simplelru) and the locked wrapper
      (package lru), embedded as state-passing functions.

    Conventions of the embedding.
    - Go's [int] and [uint64] are [Z]; the [uint64] weight arithmetic wraps
      modulo [2^64] and the wrap is written out with [wrap64].
    - A [*entry] is a handle [ptr] into the arena of the ordered store; the
      key index [items] holds handles, as the Go map holds pointers, so an
      assignment through one alias is seen through the other.
    - A callback is a function on the state of the world it acts on; the
      engine threads that world through every call.
    - A run-time panic (nil dereference) is the result [Panics]. *)

From stdpp Require Import gmap strings list fin_maps.

Local Open Scope Z_scope.

(** ** Machine integers

    A value of type [uint64] is a [Z] in [[0, 2^64)]; sums and differences
    are taken modulo [2^64], and an argument or a function result of that
    type is read modulo [2^64], so that no other value enters the state. *)

Definition wrap64 (z : Z) : Z := z mod 2 ^ 64.

(** ** Results of calls that may panic

    [Returns a]: the call returned [a].  [Panics]: it dereferenced a nil
    pointer.  [Unfinished]: the bound on the iterations of a loop, which
    the embedding passes as [fuel], was used up; [checkEvict] passes a bound
    that never is. *)

Inductive outcome (A : Type) : Type :=
| Returns (a : A)
| Panics
| Unfinished.
Arguments Returns {A} a.
Arguments Panics {A}.
Arguments Unfinished {A}.

Global Instance outcome_bind : MBind outcome := λ A B f m,
  match m with
  | Returns a => f a
  | Panics => Panics
  | Unfinished => Unfinished
  end.

(** ** Zero values

    Every Go type has a zero value, which a function with named results
    returns when it assigns nothing to them. *)

Class Zero (A : Type) : Type := zero : A.
Global Instance Z_zero : Zero Z := 0.
Global Instance string_zero : Zero string := EmptyString.

(** The order in which Go's [range] visits a map is unspecified.  The
    order the run time happens to choose is an argument [seed]: every
    entry of [seed] picks the next element among those still to visit. *)
Fixpoint range_order {A} (seed : list nat) (l : list A) : list A :=
  match seed with
  | [] => l
  | s :: seed' =>
      let i := (s `mod` Datatypes.length l)%nat in
      match l !! i with
      | Some x => x :: range_order seed' (delete i l)
      | None => l
      end
  end.

(** ** Slices

    A Go slice: its elements and the capacity of its backing array.  What
    capacity [append] gives a slice that has outgrown its array is the run
    time's choice, the argument [growslice]. *)

Record slice (A : Type) : Type := Slice { data : list A; cap : nat }.
Arguments Slice {A} data cap.
Arguments data {A} s.
Arguments cap {A} s.

Definition nil_slice {A} : slice A := Slice [] 0.

Definition make {A} `{!Zero A} (len cap : nat) : slice A :=
  Slice (replicate len zero) cap.

Definition len {A} (s : slice A) : nat := length (data s).

Definition append {A} (growslice : nat → nat) (s : slice A) (x : A) : slice A :=
  if decide (len s < cap s)%nat then Slice (data s ++ [x]) (cap s)
  else Slice (data s ++ [x]) (growslice (S (len s))).

(** [copy(dst, src)] overwrites the first [min(len(dst), len(src))]
    elements of [dst]. *)
Definition copy {A} (dst src : slice A) : slice A :=
  let n := (len dst `min` len src)%nat in
  Slice (take n (data src) ++ drop n (data dst)) (cap dst).

(** [s[:0]] *)
Definition truncate {A} (s : slice A) : slice A := Slice [] (cap s).

Module simplelru.

Definition ptr := positive.

Section engine.
Context {K V : Type} `{Countable K}.
Context `{!Zero K, !Zero V}.
(** The state the eviction callback acts on. *)
Context {W : Type}.

Record entry := Entry { key : K; value : V; weight : Z }.

Definition EvictCallback := K → V → W → W.
Definition WeightCalculator := V → Z.

(** Modelled from the spec: the Ordered Store (type [lruList] with
    [pushFront], [moveToFront], [remove], [back], [length], [init] and
    [prevEntry]; its source file is not part of src/).  The entries live
    in an arena [cells]; [order] lists their handles, front (most recently
    used) first. *)
Record lruList := LruList { cells : gmap ptr entry; order : list ptr }.

(** Modelled from the spec: [newList], an empty store. *)
Definition newList : lruList := LruList ∅ [].

(** Modelled from the spec: [init] unlinks every entry. *)
Definition lruList_init (l : lruList) : lruList := LruList (cells l) [].

(** Modelled from the spec: [length() → int]. *)
Definition lruList_length (l : lruList) : Z := Z.of_nat (length (order l)).

(** Modelled from the spec: [back() → Entry|none], the least recently
    used entry, nil on the empty store (the engine tests it against nil in
    [RemoveOldest], [GetOldest] and [Keys]). *)
Definition lruList_back (l : lruList) : option ptr := last (order l).

(** Modelled from the spec: [pushFront(key, value) → Entry] allocates an
    entry, of weight zero, links it as most recently used and returns its
    handle. *)
Definition lruList_pushFront (k : K) (v : V) (l : lruList) : ptr * lruList :=
  let p := fresh (dom (cells l)) in
  (p, LruList (<[p := Entry k v 0]> (cells l)) (p :: order l)).

(** Modelled from the spec: [remove(entry)] unlinks the entry; the entry
    itself stays readable through its handle. *)
Definition lruList_remove (e : ptr) (l : lruList) : lruList :=
  LruList (cells l) (filter (λ q, q ≠ e) (order l)).

(** Modelled from the spec: [moveToFront(entry)] relinks the entry as
    most recently used. *)
Definition lruList_moveToFront (e : ptr) (l : lruList) : lruList :=
  LruList (cells l) (e :: filter (λ q, q ≠ e) (order l)).

(** Reading and writing through an entry handle ([ent.key], [ent.value =
    value], [ent.weight = ...]).  A handle the engine holds always refers
    to an allocated entry; the default is what a handle that was never
    allocated would read, and no consistent state has one. *)
Definition deref (l : lruList) (e : ptr) : entry :=
  default (Entry zero zero 0) (cells l !! e).

Definition set_value (e : ptr) (v : V) (l : lruList) : lruList :=
  LruList (alter (λ x, Entry (key x) v (weight x)) e (cells l)) (order l).

Definition set_weight (e : ptr) (w : Z) (l : lruList) : lruList :=
  LruList (alter (λ x, Entry (key x) (value x) w) e (cells l)) (order l).

(** The engine.  [onEvict] and [weightCalculator] are nil or a
    function. *)
Record LRU := MkLRU {
  size : Z;
  evictList : lruList;
  items : gmap K ptr;
  onEvict : option EvictCallback;
  weightTotal : Z;
  weightLimit : Z;
  weightCalculator : option WeightCalculator }.

Definition with_size (n : Z) (c : LRU) : LRU :=
  MkLRU n (evictList c) (items c) (onEvict c)
        (weightTotal c) (weightLimit c) (weightCalculator c).
Definition with_evictList (l : lruList) (c : LRU) : LRU :=
  MkLRU (size c) l (items c) (onEvict c)
        (weightTotal c) (weightLimit c) (weightCalculator c).
Definition with_items (m : gmap K ptr) (c : LRU) : LRU :=
  MkLRU (size c) (evictList c) m (onEvict c)
        (weightTotal c) (weightLimit c) (weightCalculator c).
Definition with_weightTotal (t : Z) (c : LRU) : LRU :=
  MkLRU (size c) (evictList c) (items c) (onEvict c)
        t (weightLimit c) (weightCalculator c).
Definition with_weightLimit (t : Z) (c : LRU) : LRU :=
  MkLRU (size c) (evictList c) (items c) (onEvict c)
        (weightTotal c) t (weightCalculator c).

(** [if c.onEvict != nil { c.onEvict(k, v) }] *)
Definition fire (c : LRU) (k : K) (v : V) (w : W) : W :=
  match onEvict c with
  | Some cb => cb k v w
  | None => w
  end.

Definition NewLRUWithWeightLimit (size : Z) (weightLimit : Z)
    (weightCalculator : option WeightCalculator)
    (onEvict : option EvictCallback) : string + LRU :=
  if bool_decide (size ≤ 0) then inl "must provide a positive size"%string
  else inr (MkLRU size newList ∅ onEvict 0 (wrap64 weightLimit) weightCalculator).

Definition NewLRU (size : Z) (onEvict : option EvictCallback) : string + LRU :=
  NewLRUWithWeightLimit size 0 None onEvict.

Definition removeElement (e : ptr) (c : LRU) (w : W) : LRU * W :=
  let ent := deref (evictList c) e in
  let c := with_evictList (lruList_remove e (evictList c)) c in
  let c := with_items (delete (key ent) (items c)) c in
  let c := with_weightTotal (wrap64 (weightTotal c - weight ent)) c in
  (c, fire c (key ent) (value ent) w).

Definition over_limit (c : LRU) : bool :=
  bool_decide (lruList_length (evictList c) > size c)
  || bool_decide (weightTotal c > weightLimit c).

(** The loop of [checkEvict]; [fuel] bounds the number of iterations. *)
Fixpoint checkEvict_loop (fuel : nat) (evicted : Z) (c : LRU) (w : W)
    : outcome (Z * LRU * W) :=
  if over_limit c then
    match fuel with
    | O => Unfinished
    | S fuel' =>
        match lruList_back (evictList c) with
        | None => Panics
        | Some ent =>
            let '(c', w') := removeElement ent c w in
            checkEvict_loop fuel' (evicted + 1) c' w'
        end
    end
  else Returns (evicted, c, w).

(** One more iteration than there are entries is enough: every iteration
    unlinks one. *)
Definition checkEvict (c : LRU) (w : W) : outcome (Z * LRU * W) :=
  checkEvict_loop (S (length (order (evictList c)))) 0 c w.

Definition Purge (seed : list nat) (c : LRU) (w : W) : LRU * W :=
  let '(c, w) :=
    foldl (λ '(c, w) '(k, v),
             (with_items (delete k (items c)) c,
              fire c k (value (deref (evictList c) v)) w))
          (c, w) (range_order seed (map_to_list (items c))) in
  (with_evictList (lruList_init (evictList c)) c, w).

Definition Add (k : K) (v : V) (c : LRU) (w : W) : outcome (bool * LRU * W) :=
  match items c !! k with
  | Some ent =>
      let c := with_evictList (lruList_moveToFront ent (evictList c)) c in
      let c := with_evictList (set_value ent v (evictList c)) c in
      let c :=
        match weightCalculator c with
        | Some calc =>
            let c := with_weightTotal
                       (wrap64 (weightTotal c - weight (deref (evictList c) ent))) c in
            let c := with_evictList (set_weight ent (wrap64 (calc v)) (evictList c)) c in
            with_weightTotal
              (wrap64 (weightTotal c + weight (deref (evictList c) ent))) c
        | None => c
        end in
      '(n, c, w) ← checkEvict c w;
      Returns (bool_decide (n > 0), c, w)
  | None =>
      let '(ent, l) := lruList_pushFront k v (evictList c) in
      let c := with_evictList l c in
      let c := with_items (<[k := ent]> (items c)) c in
      let c :=
        match weightCalculator c with
        | Some calc =>
            let c := with_evictList (set_weight ent (wrap64 (calc v)) (evictList c)) c in
            with_weightTotal
              (wrap64 (weightTotal c + weight (deref (evictList c) ent))) c
        | None => c
        end in
      '(n, c, w) ← checkEvict c w;
      Returns (bool_decide (n > 0), c, w)
  end.

Definition Get (k : K) (c : LRU) : V * bool * LRU :=
  match items c !! k with
  | Some ent =>
      let c := with_evictList (lruList_moveToFront ent (evictList c)) c in
      (value (deref (evictList c) ent), true, c)
  | None => (zero, false, c)
  end.

Definition Contains (k : K) (c : LRU) : bool :=
  bool_decide (is_Some (items c !! k)).

Definition Peek (k : K) (c : LRU) : V * bool :=
  match items c !! k with
  | Some ent => (value (deref (evictList c) ent), true)
  | None => (zero, false)
  end.

Definition Remove (k : K) (c : LRU) (w : W) : bool * LRU * W :=
  match items c !! k with
  | Some ent => let '(c, w) := removeElement ent c w in (true, c, w)
  | None => (false, c, w)
  end.

Definition RemoveOldest (c : LRU) (w : W) : K * V * bool * LRU * W :=
  match lruList_back (evictList c) with
  | Some ent =>
      let e := deref (evictList c) ent in
      let '(c, w) := removeElement ent c w in
      (key e, value e, true, c, w)
  | None => (zero, zero, false, c, w)
  end.

Definition GetOldest (c : LRU) : K * V * bool :=
  match lruList_back (evictList c) with
  | Some ent =>
      let e := deref (evictList c) ent in (key e, value e, true)
  | None => (zero, zero, false)
  end.

(** [Keys] walks from [back] along [prevEntry], that is, over the order
    reversed. *)
Definition Keys (c : LRU) : list K :=
  (λ e, key (deref (evictList c) e)) <$> reverse (order (evictList c)).

Definition Len (c : LRU) : Z := lruList_length (evictList c).

Definition WeightTotal (c : LRU) : Z := weightTotal c.

Definition Resize (n : Z) (c : LRU) (w : W) : outcome (Z * LRU * W) :=
  checkEvict (with_size n c) w.

Definition ResetWeightLimit (t : Z) (c : LRU) (w : W) : outcome (Z * LRU * W) :=
  checkEvict (with_weightLimit (wrap64 t) c) w.

End engine.

End simplelru.

Module lru.

Definition DefaultEvictedBufferSize : nat := 16.

Section wrapper.
Context {K V : Type} `{Countable K} `{!Zero K, !Zero V}.
(** The state the user's eviction callback acts on. *)
Context {U : Type}.
Context (growslice : nat → nat).

Abbreviation buffers := (slice K * slice V)%type.

(** The lock is not part of the state: calls are modelled one at a
    time, each running from [Lock] to the deferred call after [Unlock]. *)
Record Cache := MkCache {
  lru : simplelru.LRU (K := K) (V := V) (W := buffers);
  evictedKeys : slice K;
  evictedVals : slice V;
  onEvictedCB : option (K → V → U → U) }.

Definition initEvictBuffers : buffers :=
  (make 0 DefaultEvictedBufferSize, make 0 DefaultEvictedBufferSize).

(** The method value [c.onEvicted], installed as the engine's callback;
    the buffers it appends to are the world the engine threads. *)
Definition onEvicted (k : K) (v : V) (b : buffers) : buffers :=
  (append growslice b.1 k, append growslice b.2 v).

Definition NewWithWeightLimitAndEvict (size : Z) (weightLimit : Z)
    (weightCalculator : option (V → Z))
    (onEvictedCB : option (K → V → U → U)) : string + Cache :=
  let '(ks, vs) :=
    match onEvictedCB with
    | Some _ => initEvictBuffers
    | None => (nil_slice, nil_slice)
    end in
  let hook :=
    match onEvictedCB with
    | Some _ => Some onEvicted
    | None => None
    end in
  match simplelru.NewLRUWithWeightLimit size weightLimit weightCalculator hook with
  | inl err => inl err
  | inr l => inr (MkCache l ks vs onEvictedCB)
  end.

Definition NewWithEvict (size : Z) (onEvictedCB : option (K → V → U → U))
    : string + Cache :=
  NewWithWeightLimitAndEvict size 0 None onEvictedCB.

Definition New (size : Z) : string + Cache := NewWithEvict size None.

Definition collectEvicted (purge : bool) (c : Cache)
    : slice K * slice V * Cache :=
  let count := len (evictedKeys c) in
  if decide (count = 0%nat) then (nil_slice, nil_slice, c)
  else if purge then
    let '(ks, vs) := initEvictBuffers in
    (evictedKeys c, evictedVals c, MkCache (lru c) ks vs (onEvictedCB c))
  else
    (copy (make count count) (evictedKeys c),
     copy (make count count) (evictedVals c),
     MkCache (lru c) (truncate (evictedKeys c)) (truncate (evictedVals c))
             (onEvictedCB c)).

(** [callEvictCB] indexes both slices up to [len(evictedKeys)]; an
    index past the end of [evictedVals] panics. *)
Fixpoint callEvictCB_loop (cb : K → V → U → U) (ks : list K) (vs : list V)
    (u : U) : outcome U :=
  match ks with
  | [] => Returns u
  | k :: ks' =>
      match vs with
      | [] => Panics
      | v :: vs' => callEvictCB_loop cb ks' vs' (cb k v u)
      end
  end.

Definition callEvictCB (c : Cache) (ks : slice K) (vs : slice V) (u : U)
    : outcome U :=
  match onEvictedCB c with
  | Some cb => callEvictCB_loop cb (data ks) (data vs) u
  | None => if decide (len ks = 0%nat) then Returns u else Panics
  end.

(** The tail shared by the mutating methods:
    [if c.onEvictedCB != nil && cond { ks, vs := c.collectEvicted(purge);
    defer c.callEvictCB(ks, vs) }; c.lock.Unlock()], the deferred call
    running when the method returns. *)
Definition flush (purge : bool) (cond : bool) (c : Cache) (u : U)
    : outcome (Cache * U) :=
  if bool_decide (is_Some (onEvictedCB c)) && cond then
    let '(ks, vs, c') := collectEvicted purge c in
    u' ← callEvictCB c ks vs u;
    Returns (c', u')
  else Returns (c, u).

Definition with_engine (r : simplelru.LRU * buffers) (c : Cache) : Cache :=
  MkCache r.1 r.2.1 r.2.2 (onEvictedCB c).

Definition bufs (c : Cache) : buffers := (evictedKeys c, evictedVals c).

Definition Purge (seed : list nat) (c : Cache) (u : U) : outcome (Cache * U) :=
  let c := with_engine (simplelru.Purge seed (lru c) (bufs c)) c in
  flush true (bool_decide (0 < len (evictedKeys c))%nat) c u.

Definition Add (k : K) (v : V) (c : Cache) (u : U) : outcome (bool * Cache * U) :=
  '(evicted, l, b) ← simplelru.Add k v (lru c) (bufs c);
  let c := with_engine (l, b) c in
  '(c, u) ← flush false evicted c u;
  Returns (evicted, c, u).

Definition Get (k : K) (c : Cache) : V * bool * Cache :=
  let '(value, ok, l) := simplelru.Get k (lru c) in
  (value, ok, with_engine (l, bufs c) c).

Definition Contains (k : K) (c : Cache) : bool := simplelru.Contains k (lru c).

Definition Peek (k : K) (c : Cache) : V * bool := simplelru.Peek k (lru c).

Definition GetOrAdd (k : K) (v : V) (c : Cache) (u : U)
    : outcome (V * bool * bool * Cache * U) :=
  let '(previous, ok, l) := simplelru.Get k (lru c) in
  let c := with_engine (l, bufs c) c in
  if ok then Returns (previous, ok, false, c, u)
  else
    '(evicted, l, b) ← simplelru.Add k v (lru c) (bufs c);
    let c := with_engine (l, b) c in
    '(c, u) ← flush false evicted c u;
    Returns (previous, ok, evicted, c, u).

Definition ContainsOrAdd (k : K) (v : V) (c : Cache) (u : U)
    : outcome (bool * bool * Cache * U) :=
  if simplelru.Contains k (lru c) then Returns (true, false, c, u)
  else
    '(evicted, l, b) ← simplelru.Add k v (lru c) (bufs c);
    let c := with_engine (l, b) c in
    '(c, u) ← flush false evicted c u;
    Returns (false, evicted, c, u).

Definition PeekOrAdd (k : K) (v : V) (c : Cache) (u : U)
    : outcome (V * bool * bool * Cache * U) :=
  let '(previous, ok) := simplelru.Peek k (lru c) in
  if ok then Returns (previous, true, false, c, u)
  else
    '(evicted, l, b) ← simplelru.Add k v (lru c) (bufs c);
    let c := with_engine (l, b) c in
    '(c, u) ← flush false evicted c u;
    Returns (previous, ok, evicted, c, u).

Definition Remove (k : K) (c : Cache) (u : U) : outcome (bool * Cache * U) :=
  let '(present, l, b) := simplelru.Remove k (lru c) (bufs c) in
  let c := with_engine (l, b) c in
  '(c, u) ← flush false present c u;
  Returns (present, c, u).

Definition Resize (n : Z) (c : Cache) (u : U) : outcome (Z * Cache * U) :=
  '(evicted, l, b) ← simplelru.Resize n (lru c) (bufs c);
  let c := with_engine (l, b) c in
  '(c, u) ← flush true (bool_decide (evicted > 0)) c u;
  Returns (evicted, c, u).

Definition ResetWeightLimit (t : Z) (c : Cache) (u : U) : outcome (Z * Cache * U) :=
  '(evicted, l, b) ← simplelru.ResetWeightLimit t (lru c) (bufs c);
  let c := with_engine (l, b) c in
  '(c, u) ← flush true (bool_decide (evicted > 0)) c u;
  Returns (evicted, c, u).

Definition RemoveOldest (c : Cache) (u : U) : outcome (K * V * bool * Cache * U) :=
  let '(k, v, ok, l, b) := simplelru.RemoveOldest (lru c) (bufs c) in
  let c := with_engine (l, b) c in
  '(c, u) ← flush true ok c u;
  Returns (k, v, ok, c, u).

Definition GetOldest (c : Cache) : K * V * bool := simplelru.GetOldest (lru c).
Definition Keys (c : Cache) : list K := simplelru.Keys (lru c).
Definition Len (c : Cache) : Z := simplelru.Len (lru c).
Definition WeightTotal (c : Cache) : Z := simplelru.WeightTotal (lru c).

End wrapper.

End lru.

(** * State invariants of the engine *)

Import simplelru.

Section invariants.
Context {K V : Type} `{Countable K} `{!Zero K, !Zero V} {W : Type}.
Implicit Types (c : LRU (K := K) (V := V) (W := W)) (e : ptr).

(** The entries of the ordered store, most recently used first. *)
Definition entries c : list (@entry K V) :=
  deref (evictList c) <$> order (evictList c).

(** Index/store consistency: no handle is linked twice, every linked
    handle is allocated and indexed under its key, and the index holds
    linked handles only. *)
Definition store_ok c : Prop :=
  NoDup (order (evictList c))
  ∧ Forall (λ e, is_Some (cells (evictList c) !! e)
                 ∧ items c !! key (deref (evictList c) e) = Some e)
           (order (evictList c))
  ∧ map_Forall (λ k e, e ∈ order (evictList c)
                       ∧ key (deref (evictList c) e) = k) (items c).

(** The weight an entry carries: what the weight function gives its
    value, or zero when no weight function is configured. *)
Definition weight_of (calc : option (V → Z)) (v : V) : Z :=
  match calc with
  | Some f => wrap64 (f v)
  | None => 0
  end.

Definition weight_sum (calc : option (V → Z)) (l : list (@entry K V)) : Z :=
  foldr (λ x s, weight_of calc (value x) + s) 0 l.

(** Weight accounting: every entry carries the weight of its value, and
    the stored total is the sum of the weights in [uint64] arithmetic. *)
Definition weights_ok c : Prop :=
  0 ≤ weightLimit c < 2 ^ 64
  ∧ Forall (λ x, weight x = weight_of (weightCalculator c) (value x)) (entries c)
  ∧ weightTotal c = wrap64 (weight_sum (weightCalculator c) (entries c)).

Global Instance store_ok_dec c : Decision (store_ok c).
Proof. unfold store_ok. apply _. Defined.

Global Instance weights_ok_dec c : Decision (weights_ok c).
Proof. unfold weights_ok. apply _. Defined.

(** The state [Add] hands to [checkEvict] when the key is indexed at
    [ent] (the entry moved to the front, its value and weight replaced),
    and when it is not (a new entry pushed and indexed). *)
Definition updated (ent : ptr) (v : V) c : LRU :=
  let c := with_evictList (lruList_moveToFront ent (evictList c)) c in
  let c := with_evictList (set_value ent v (evictList c)) c in
  match weightCalculator c with
  | Some calc =>
      let c := with_weightTotal
                 (wrap64 (weightTotal c - weight (deref (evictList c) ent))) c in
      let c := with_evictList (set_weight ent (wrap64 (calc v)) (evictList c)) c in
      with_weightTotal
        (wrap64 (weightTotal c + weight (deref (evictList c) ent))) c
  | None => c
  end.

Definition inserted (k : K) (v : V) c : LRU :=
  let '(ent, l) := lruList_pushFront k v (evictList c) in
  let c := with_evictList l c in
  let c := with_items (<[k := ent]> (items c)) c in
  match weightCalculator c with
  | Some calc =>
      let c := with_evictList (set_weight ent (wrap64 (calc v)) (evictList c)) c in
      with_weightTotal
        (wrap64 (weightTotal c + weight (deref (evictList c) ent))) c
  | None => c
  end.

(** The weight an entry has after [Add] replaced its value. *)
Definition new_weight c (old : Z) (v : V) : Z :=
  match weightCalculator c with
  | Some calc => wrap64 (calc v)
  | None => old
  end.

(** A sequence of [Add] calls. *)
Fixpoint add_all (adds : list (K * V)) c (w : W) : outcome (LRU * W) :=
  match adds with
  | [] => Returns (c, w)
  | (k, v) :: adds' => '(_, c, w) ← Add k v c w; add_all adds' c w
  end.

(** The notifications fired for the handles [l], in that order. *)
Definition notify c (l : list ptr) (w : W) : W :=
  foldl (λ w e, fire c (key (deref (evictList c) e))
                       (value (deref (evictList c) e)) w) w l.
End invariants.

(** * Relating two engines

    Two engines that differ only in the callback installed, and in the
    world that callback acts on, make the same decisions; the worlds stay
    related as long as the two callbacks keep them so. *)

Inductive outcome_rel {A B : Type} (R : A → B → Prop)
    : outcome A → outcome B → Prop :=
| rel_Returns a b : R a b → outcome_rel R (Returns a) (Returns b)
| rel_Panics : outcome_rel R Panics Panics
| rel_Unfinished : outcome_rel R Unfinished Unfinished.

Section relating.
Context {K V : Type} `{Countable K} `{!Zero K, !Zero V} {W1 W2 : Type}.

Definition hooks_related (R : W1 → W2 → Prop)
    (f : option (K → V → W1 → W1)) (g : option (K → V → W2 → W2)) : Prop :=
  match f, g with
  | Some f, Some g => ∀ k v w1 w2, R w1 w2 → R (f k v w1) (g k v w2)
  | None, None => True
  | _, _ => False
  end.

Definition same_engine
    (f : option (K → V → W1 → W1)) (g : option (K → V → W2 → W2))
    (c1 : LRU (K := K) (V := V) (W := W1))
    (c2 : LRU (K := K) (V := V) (W := W2)) : Prop :=
  size c1 = size c2
  ∧ evictList c1 = evictList c2
  ∧ items c1 = items c2
  ∧ weightTotal c1 = weightTotal c2
  ∧ weightLimit c1 = weightLimit c2
  ∧ weightCalculator c1 = weightCalculator c2
  ∧ onEvict c1 = f
  ∧ onEvict c2 = g.

(** Two calls gave the same result, left engines that still differ in
    the callback only, and left related worlds. *)
Definition result_related {A} (R : W1 → W2 → Prop)
    (f : option (K → V → W1 → W1)) (g : option (K → V → W2 → W2))
    (r1 : A * LRU (K := K) (V := V) (W := W1) * W1)
    (r2 : A * LRU (K := K) (V := V) (W := W2) * W2) : Prop :=
  r1.1.1 = r2.1.1 ∧ same_engine f g r1.1.2 r2.1.2 ∧ R r1.2 r2.2.
End relating.

(** * The wrapper against an engine with the callback installed directly *)

Section deferred.
Context {K V : Type} `{Countable K} `{!Zero K, !Zero V} {U : Type}.
Context (growslice : nat → nat).

Abbreviation buffers := (slice K * slice V)%type.

(** The engine callback the wrapper installs for a user callback. *)
Definition hook_of (cb : option (K → V → U → U))
    : option (K → V → buffers → buffers) :=
  match cb with
  | Some _ => Some (lru.onEvicted growslice)
  | None => None
  end.

(** What the user's world becomes once the buffered pairs are delivered,
    oldest first. *)
Definition pending (cb : K → V → U → U) (b : buffers) (u : U) : U :=
  foldl (λ u kv, cb kv.1 kv.2 u) u (zip (data b.1) (data b.2)).

(** Inside a call: the buffers [b] hold what a directly installed
    callback has already told the user, whose world is then [ud]. *)
Definition awaiting (cb : option (K → V → U → U)) (b0 : buffers) (u : U)
    (b : buffers) (ud : U) : Prop :=
  match cb with
  | Some f => length (data b.1) = length (data b.2) ∧ ud = pending f b u
  | None => b = b0 ∧ ud = u
  end.

Definition drained (c : lru.Cache (K := K) (V := V) (U := U)) : Prop :=
  data (lru.evictedKeys c) = [] ∧ data (lru.evictedVals c) = [].

(** Between calls: nothing is buffered, and the wrapper's engine is the
    direct engine but for the callback. *)
Definition mirrors (c : lru.Cache (K := K) (V := V) (U := U))
    (d : LRU (K := K) (V := V) (W := U)) : Prop :=
  drained c
  ∧ same_engine (hook_of (lru.onEvictedCB c)) (lru.onEvictedCB c) (lru.lru c) d.

(** Two wrapper states that differ in the capacity of their buffers
    only. *)
Definition same_contents (c1 c2 : lru.Cache (K := K) (V := V) (U := U)) : Prop :=
  lru.lru c1 = lru.lru c2
  ∧ lru.onEvictedCB c1 = lru.onEvictedCB c2
  ∧ data (lru.evictedKeys c1) = data (lru.evictedKeys c2)
  ∧ data (lru.evictedVals c1) = data (lru.evictedVals c2).

(** The wrapper's engine with the user's callback in place of the
    hook. *)
Definition direct_of (c : lru.Cache (K := K) (V := V) (U := U))
    : LRU (K := K) (V := V) (W := U) :=
  MkLRU (size (lru.lru c)) (evictList (lru.lru c)) (items (lru.lru c))
        (lru.onEvictedCB c) (weightTotal (lru.lru c))
        (weightLimit (lru.lru c)) (weightCalculator (lru.lru c)).

(** The user callback called on each pair of [l] in turn. *)
Definition deliver (cb : option (K → V → U → U)) (l : list (K * V)) (u : U) : U :=
  match cb with
  | Some f => foldl (λ u kv, f kv.1 kv.2 u) u l
  | None => u
  end.

(** The (key, value) pairs of the entries, least recently used first. *)
Definition oldest_first (c : lru.Cache (K := K) (V := V) (U := U)) : list (K * V) :=
  (λ e, (key (deref (evictList (lru.lru c)) e),
         value (deref (evictList (lru.lru c)) e)))
    <$> reverse (order (evictList (lru.lru c))).

(** What two corresponding calls leave behind. *)
Definition step_mirrors {A}
    (r1 : A * lru.Cache (K := K) (V := V) (U := U) * U)
    (r2 : A * LRU (K := K) (V := V) (W := U) * U) : Prop :=
  r1.1.1 = r2.1.1 ∧ mirrors r1.1.2 r2.1.2 ∧ r1.2 = r2.2.

Definition step_same {A}
    (r1 r2 : A * lru.Cache (K := K) (V := V) (U := U) * U) : Prop :=
  r1.1.1 = r2.1.1 ∧ same_contents r1.1.2 r2.1.2 ∧ r1.2 = r2.2.
End deferred.

(** * Calls and runs

    A call of the public interface, its result, and the effect of a
    sequence of calls: on the wrapper ([cache_run]) and, for comparison,
    on an engine that has the user's callback installed directly
    ([direct_run]), where every notification reaches the user at once. *)

Section runs.
Context {K V : Type} `{Countable K} `{!Zero K, !Zero V} {U : Type}.

Inductive call : Type :=
| CallPurge (seed : list nat)
| CallAdd (k : K) (v : V)
| CallGet (k : K)
| CallContains (k : K)
| CallPeek (k : K)
| CallGetOrAdd (k : K) (v : V)
| CallContainsOrAdd (k : K) (v : V)
| CallPeekOrAdd (k : K) (v : V)
| CallRemove (k : K)
| CallResize (n : Z)
| CallResetWeightLimit (t : Z)
| CallRemoveOldest
| CallGetOldest
| CallKeys
| CallLen
| CallWeightTotal.

Inductive result : Type :=
| NoResult
| Flag (b : bool)
| Lookup (v : V) (ok : bool)
| LookupAdd (v : V) (ok evicted : bool)
| FlagAdd (ok evicted : bool)
| Count (n : Z)
| Oldest (k : K) (v : V) (ok : bool)
| KeyList (l : list K).

Definition cache_step (o : call) (c : lru.Cache (U := U)) (u : U)
    : outcome (result * lru.Cache (U := U) * U) :=
  match o with
  | CallPurge seed =>
      '(c, u) ← lru.Purge seed c u; Returns (NoResult, c, u)
  | CallAdd k v =>
      '(b, c, u) ← lru.Add k v c u; Returns (Flag b, c, u)
  | CallGet k =>
      let '(v, ok, c) := lru.Get k c in Returns (Lookup v ok, c, u)
  | CallContains k => Returns (Flag (lru.Contains k c), c, u)
  | CallPeek k =>
      let '(v, ok) := lru.Peek k c in Returns (Lookup v ok, c, u)
  | CallGetOrAdd k v =>
      '(p, ok, b, c, u) ← lru.GetOrAdd k v c u;
      Returns (LookupAdd p ok b, c, u)
  | CallContainsOrAdd k v =>
      '(ok, b, c, u) ← lru.ContainsOrAdd k v c u;
      Returns (FlagAdd ok b, c, u)
  | CallPeekOrAdd k v =>
      '(p, ok, b, c, u) ← lru.PeekOrAdd k v c u;
      Returns (LookupAdd p ok b, c, u)
  | CallRemove k =>
      '(b, c, u) ← lru.Remove k c u; Returns (Flag b, c, u)
  | CallResize n =>
      '(n, c, u) ← lru.Resize n c u; Returns (Count n, c, u)
  | CallResetWeightLimit t =>
      '(n, c, u) ← lru.ResetWeightLimit t c u; Returns (Count n, c, u)
  | CallRemoveOldest =>
      '(k, v, ok, c, u) ← lru.RemoveOldest c u;
      Returns (Oldest k v ok, c, u)
  | CallGetOldest =>
      let '(k, v, ok) := lru.GetOldest c in Returns (Oldest k v ok, c, u)
  | CallKeys => Returns (KeyList (lru.Keys c), c, u)
  | CallLen => Returns (Count (lru.Len c), c, u)
  | CallWeightTotal => Returns (Count (lru.WeightTotal c), c, u)
  end.

Definition direct_step (o : call) (c : LRU (W := U)) (u : U)
    : outcome (result * LRU (W := U) * U) :=
  match o with
  | CallPurge seed =>
      let '(c, u) := Purge seed c u in Returns (NoResult, c, u)
  | CallAdd k v =>
      '(b, c, u) ← Add k v c u; Returns (Flag b, c, u)
  | CallGet k =>
      let '(v, ok, c) := Get k c in Returns (Lookup v ok, c, u)
  | CallContains k => Returns (Flag (Contains k c), c, u)
  | CallPeek k =>
      let '(v, ok) := Peek k c in Returns (Lookup v ok, c, u)
  | CallGetOrAdd k v =>
      let '(p, ok, c) := Get k c in
      if ok then Returns (LookupAdd p ok false, c, u)
      else '(b, c, u) ← Add k v c u; Returns (LookupAdd p ok b, c, u)
  | CallContainsOrAdd k v =>
      if Contains k c then Returns (FlagAdd true false, c, u)
      else '(b, c, u) ← Add k v c u; Returns (FlagAdd false b, c, u)
  | CallPeekOrAdd k v =>
      let '(p, ok) := Peek k c in
      if ok then Returns (LookupAdd p true false, c, u)
      else '(b, c, u) ← Add k v c u; Returns (LookupAdd p ok b, c, u)
  | CallRemove k =>
      let '(b, c, u) := Remove k c u in Returns (Flag b, c, u)
  | CallResize n =>
      '(n, c, u) ← Resize n c u; Returns (Count n, c, u)
  | CallResetWeightLimit t =>
      '(n, c, u) ← ResetWeightLimit t c u; Returns (Count n, c, u)
  | CallRemoveOldest =>
      let '(k, v, ok, c, u) := RemoveOldest c u in
      Returns (Oldest k v ok, c, u)
  | CallGetOldest =>
      let '(k, v, ok) := GetOldest c in Returns (Oldest k v ok, c, u)
  | CallKeys => Returns (KeyList (Keys c), c, u)
  | CallLen => Returns (Count (Len c), c, u)
  | CallWeightTotal => Returns (Count (WeightTotal c), c, u)
  end.

Fixpoint cache_run (os : list call) (c : lru.Cache (U := U)) (u : U)
    : outcome (list result * lru.Cache (U := U) * U) :=
  match os with
  | [] => Returns ([], c, u)
  | o :: os' =>
      '(r, c, u) ← cache_step o c u;
      '(rs, c, u) ← cache_run os' c u;
      Returns (r :: rs, c, u)
  end.

Fixpoint direct_run (os : list call) (c : LRU (W := U)) (u : U)
    : outcome (list result * LRU (W := U) * U) :=
  match os with
  | [] => Returns ([], c, u)
  | o :: os' =>
      '(r, c, u) ← direct_step o c u;
      '(rs, c, u) ← direct_run os' c u;
      Returns (r :: rs, c, u)
  end.
End runs.

(** A callback that records what it is told, oldest notification first. *)
Definition record_eviction {K V : Type} (k : K) (v : V) (u : list (K * V))
    : list (K * V) := u ++ [(k, v)].

(** * Example states

    Caches with string keys and integer values whose callback records
    the notifications; each is the state a short run of calls reaches. *)

Section examples.
Local Open Scope string_scope.
Local Open Scope Z_scope.

Definition example_cache : Type :=
  LRU (K := string) (V := Z) (W := list (string * Z)).

(** [NewLRU(2)]; [Add("a", 1)]; [Add("b", 2)] *)
Definition plain_ab : example_cache :=
  MkLRU 2
    (LruList (<[2%positive := Entry "b" 2 0]> {[1%positive := Entry "a" 1 0]})
             [2%positive; 1%positive])
    (<["b" := 2%positive]> {["a" := 1%positive]})
    (Some record_eviction) 0 0 None.

(** [plain_ab] with its size set to 1 and "a" evicted *)
Definition plain_b : example_cache :=
  MkLRU 1
    (LruList (<[2%positive := Entry "b" 2 0]> {[1%positive := Entry "a" 1 0]})
             [2%positive])
    {["b" := 2%positive]}
    (Some record_eviction) 0 0 None.

(** [NewLRUWithWeightLimit(n, 10, identity)] *)
Definition weighted_new (n : Z) : example_cache :=
  MkLRU n newList ∅ (Some record_eviction) 0 10 (Some (λ v, v)).

(** [weighted_new n] after [Add("x", v)], [v] within the limit *)
Definition weighted_x (n v : Z) : example_cache :=
  MkLRU n
    (LruList {[1%positive := Entry "x" v v]} [1%positive])
    {["x" := 1%positive]}
    (Some record_eviction) v 10 (Some (λ v, v)).

(** [weighted_x n 6] after [Add("y", 6)], which evicts "x" *)
Definition weighted_y (n : Z) : example_cache :=
  MkLRU n
    (LruList (<[2%positive := Entry "y" 6 6]> {[1%positive := Entry "x" 6 6]})
             [2%positive])
    {["y" := 2%positive]}
    (Some record_eviction) 6 10 (Some (λ v, v)).

(** [weighted_x 2 5] after [Add("x", 20)], which evicts "x" itself *)
Definition weighted_none : example_cache :=
  MkLRU 2
    (LruList {[1%positive := Entry "x" 20 20]} [])
    ∅
    (Some record_eviction) 0 10 (Some (λ v, v)).

(** [weighted_x 2 5] after [Add("y", 4)] *)
Definition weighted_xy : example_cache :=
  MkLRU 2
    (LruList (<[2%positive := Entry "y" 4 4]> {[1%positive := Entry "x" 5 5]})
             [2%positive; 1%positive])
    (<["y" := 2%positive]> {["x" := 1%positive]})
    (Some record_eviction) 9 10 (Some (λ v, v)).

(** A wrapper without callback after [Add("a", 1)]; [Add("b", 2)], and
    the same after a hit on "a" moved it to the front. *)
Definition wrapped_ab : lru.Cache (K := string) (V := Z) (U := list (string * Z)) :=
  lru.MkCache
    (MkLRU 2
       (LruList (<[2%positive := Entry "b" 2 0]> {[1%positive := Entry "a" 1 0]})
                [2%positive; 1%positive])
       (<["b" := 2%positive]> {["a" := 1%positive]})
       None 0 0 None)
    nil_slice nil_slice None.

Definition wrapped_ba : lru.Cache (K := string) (V := Z) (U := list (string * Z)) :=
  lru.MkCache
    (MkLRU 2
       (LruList (<[2%positive := Entry "b" 2 0]> {[1%positive := Entry "a" 1 0]})
                [1%positive; 2%positive])
       (<["b" := 2%positive]> {["a" := 1%positive]})
       None 0 0 None)
    nil_slice nil_slice None.

(** A wrapper with a recording callback after [Add("a", 1)];
    [Add("b", 2)]; appended slices double their capacity. *)
Definition doubling (n : nat) : nat := (2 * n)%nat.

Definition recording_ab : lru.Cache (K := string) (V := Z) (U := list (string * Z)) :=
  lru.MkCache
    (MkLRU 2
       (LruList (<[2%positive := Entry "b" 2 0]> {[1%positive := Entry "a" 1 0]})
                [2%positive; 1%positive])
       (<["b" := 2%positive]> {["a" := 1%positive]})
       (Some (lru.onEvicted doubling)) 0 0 None)
    (make 0 lru.DefaultEvictedBufferSize) (make 0 lru.DefaultEvictedBufferSize)
    (Some record_eviction).
End examples.

(** * Contents and calls within the interface's domain *)

Section contents.
Context {K V : Type} `{Countable K} `{!Zero K, !Zero V} {W : Type}.

(** The (key, value) pairs of the entries of an engine, least recently
    used first: what a walk from [back] along [prevEntry] reads. *)
Definition contents (c : LRU (K := K) (V := V) (W := W)) : list (K * V) :=
  (λ e, (key (deref (evictList c) e), value (deref (evictList c) e)))
    <$> reverse (order (evictList c)).

(** The calls the safety results cover: a size is not negative, and a
    cache that weighs its values is not purged. *)
Definition call_safe (calc : option (V → Z)) (o : call (K := K) (V := V)) : Prop :=
  match o with
  | CallResize n => 0 ≤ n
  | CallPurge _ => calc = None
  | _ => True
  end.

(** What holds between the calls of a run that stays in that domain:
    index and store agree, the weights are accounted for, the weight
    function is [calc], and the entries fit the size. *)
Definition consistent (calc : option (V → Z))
    (c : LRU (K := K) (V := V) (W := W)) : Prop :=
  store_ok c ∧ weights_ok c ∧ weightCalculator c = calc ∧ Len c ≤ size c.
End contents.

(** * Where a panicking loop stops

    The engine and the world as the loop of [checkEvict] leaves them when
    it stops, whether it returns or panics: what the iterations before a
    panic have done (entries unlinked, callbacks called) stays done. *)

Section reached.
Context {K V : Type} `{Countable K} `{!Zero K, !Zero V} {W : Type}.

Fixpoint checkEvict_loop_reached (fuel : nat)
    (c : LRU (K := K) (V := V) (W := W)) (w : W) : LRU * W :=
  if over_limit c then
    match fuel with
    | O => (c, w)
    | S fuel' =>
        match lruList_back (evictList c) with
        | None => (c, w)
        | Some ent =>
            let '(c', w') := removeElement ent c w in
            checkEvict_loop_reached fuel' c' w'
        end
    end
  else (c, w).

Definition checkEvict_reached (c : LRU (K := K) (V := V) (W := W)) (w : W)
    : LRU * W :=
  checkEvict_loop_reached (S (length (order (evictList c)))) c w.
End reached.

(** * Properties *)

Section engine_facts.
Context {K V : Type} `{Countable K} `{!Zero K, !Zero V} {W : Type}.
Implicit Types (c : LRU (K := K) (V := V) (W := W)) (e : ptr) (w : W).

(** ** The ordered store *)

Lemma filter_ne_id (l : list ptr) e :
  e ∉ l → filter (λ q, q ≠ e) l = l.
Proof.
  induction l as [|q l IH]; [done|].
  intros [Hq Hl]%not_elem_of_cons.
  rewrite filter_cons_True by done. by rewrite IH.
Qed.

Lemma filter_ne_snoc (l : list ptr) e :
  e ∉ l → filter (λ q, q ≠ e) (l ++ [e]) = l.
Proof.
  intros Hn.
  rewrite filter_app, filter_cons_False, filter_nil, app_nil_r by naive_solver.
  by apply filter_ne_id.
Qed.

Lemma length_moveToFront (l : list ptr) e :
  NoDup l → e ∈ l → S (length (filter (λ q, q ≠ e) l)) = length l.
Proof.
  induction l as [|q l IH]; intros Hnd Hin; [by apply elem_of_nil in Hin|].
  apply NoDup_cons in Hnd as [Hq Hnd].
  destruct (decide (q = e)) as [->|Hne].
  - rewrite filter_cons_False by (intros Hn; by apply Hn).
    by rewrite filter_ne_id.
  - rewrite filter_cons_True by done. simpl. f_equal. apply IH; [done|].
    apply elem_of_cons in Hin as [?|?]; [congruence|done].
Qed.

Lemma back_snoc c e :
  lruList_back (evictList c) = Some e →
  ∃ l, order (evictList c) = l ++ [e].
Proof. unfold lruList_back. by intros ?%last_Some. Qed.

Lemma remove_back_shrinks (l : list ptr) e :
  last l = Some e → (length (filter (λ q, q ≠ e) l) < length l)%nat.
Proof.
  intros [l' ->]%last_Some.
  rewrite filter_app, filter_cons_False, filter_nil, app_nil_r by naive_solver.
  pose proof (length_filter (λ q, q ≠ e) l'). rewrite length_app. simpl. lia.
Qed.

(** ** Unfolding the loop *)

Lemma checkEvict_loop_stop fuel n c w :
  over_limit c = false → checkEvict_loop fuel n c w = Returns (n, c, w).
Proof. intros Ho. destruct fuel; simpl; by rewrite Ho. Qed.

Lemma checkEvict_loop_step fuel n c w e :
  over_limit c = true → lruList_back (evictList c) = Some e →
  checkEvict_loop (S fuel) n c w =
  checkEvict_loop fuel (n + 1) (removeElement e c w).1 (removeElement e c w).2.
Proof. intros Ho Hb. simpl. rewrite Ho, Hb. by destruct (removeElement e c w). Qed.

Lemma checkEvict_loop_nil fuel n c w :
  over_limit c = true → lruList_back (evictList c) = None →
  checkEvict_loop (S fuel) n c w = Panics.
Proof. intros Ho Hb. simpl. by rewrite Ho, Hb. Qed.

(** The loop never runs out of iterations: each one unlinks the back
    entry, so [length()] iterations empty the store, and the next test
    either leaves the loop or dereferences the nil [back()]. *)
Lemma checkEvict_loop_finishes fuel n c w :
  (length (order (evictList c)) < fuel)%nat →
  checkEvict_loop fuel n c w ≠ Unfinished.
Proof.
  revert n c w. induction fuel as [|fuel IH]; intros n c w Hlen; [lia|].
  destruct (over_limit c) eqn:Ho.
  - destruct (lruList_back (evictList c)) as [e|] eqn:Hb.
    + rewrite (checkEvict_loop_step _ _ _ _ e) by done. apply IH.
      apply remove_back_shrinks in Hb. simpl. lia.
    + by rewrite checkEvict_loop_nil.
  - by rewrite checkEvict_loop_stop.
Qed.

Lemma checkEvict_finishes c w : checkEvict c w ≠ Unfinished.
Proof. apply checkEvict_loop_finishes. lia. Qed.

Lemma checkEvict_loop_negative_size fuel n c w :
  size c < 0 → (length (order (evictList c)) < fuel)%nat →
  checkEvict_loop fuel n c w = Panics.
Proof.
  revert n c w. induction fuel as [|fuel IH]; intros n c w Hs Hlen; [lia|].
  assert (over_limit c = true) as Ho.
  { unfold over_limit, lruList_length.
    rewrite bool_decide_eq_true_2; [done|lia]. }
  destruct (lruList_back (evictList c)) as [e|] eqn:Hb.
  - rewrite (checkEvict_loop_step _ _ _ _ e) by done. apply IH; [done|].
    apply remove_back_shrinks in Hb. simpl. lia.
  - by rewrite checkEvict_loop_nil.
Qed.

(** ** Removing an element *)

Lemma weight_sum_remove calc (f : ptr → @entry K V) (l : list ptr) e :
  NoDup l → e ∈ l →
  weight_sum calc (f <$> filter (λ q, q ≠ e) l)
  = weight_sum calc (f <$> l) - weight_of calc (value (f e)).
Proof.
  induction l as [|q l IH]; intros Hnd Hin; [by apply elem_of_nil in Hin|].
  apply NoDup_cons in Hnd as [Hq Hnd].
  destruct (decide (q = e)) as [->|Hne].
  - rewrite filter_cons_False by naive_solver.
    rewrite filter_ne_id by done. rewrite fmap_cons. simpl. lia.
  - rewrite filter_cons_True by done. rewrite !fmap_cons. simpl.
    apply elem_of_cons in Hin as [?|Hin]; [done|].
    rewrite IH by done. lia.
Qed.

Lemma wrap64_sub_l a b : wrap64 (wrap64 a - b) = wrap64 (a - b).
Proof. unfold wrap64. by rewrite Zminus_mod_idemp_l. Qed.

Lemma wrap64_add_l a b : wrap64 (wrap64 a + b) = wrap64 (a + b).
Proof. unfold wrap64. by rewrite Zplus_mod_idemp_l. Qed.

Lemma wrap64_range a : 0 ≤ wrap64 a < 2 ^ 64.
Proof. unfold wrap64. apply Z.mod_pos_bound. lia. Qed.

Lemma wrap64_small a : 0 ≤ a < 2 ^ 64 → wrap64 a = a.
Proof. unfold wrap64. apply Z.mod_small. Qed.

Lemma store_ok_key_inj c e1 e2 :
  store_ok c → e1 ∈ order (evictList c) → e2 ∈ order (evictList c) →
  key (deref (evictList c) e1) = key (deref (evictList c) e2) → e1 = e2.
Proof.
  intros (_ & Hf & _) H1 H2 Hk.
  rewrite Forall_forall in Hf.
  destruct (Hf _ H1) as [_ Hi1]. destruct (Hf _ H2) as [_ Hi2].
  rewrite Hk in Hi1. congruence.
Qed.

Lemma store_ok_lookup c k e :
  store_ok c →
  items c !! k = Some e ↔
  e ∈ order (evictList c) ∧ key (deref (evictList c) e) = k.
Proof.
  intros (_ & Hf & Hm). split.
  - apply Hm.
  - intros [Hin <-]. rewrite Forall_forall in Hf. by apply Hf.
Qed.

Lemma removeElement_store_ok c e w :
  store_ok c → e ∈ order (evictList c) → store_ok (removeElement e c w).1.
Proof.
  intros Hok Hin. pose proof Hok as (Hnd & Hf & Hm).
  unfold store_ok; simpl. split_and!.
  - by apply NoDup_filter.
  - rewrite Forall_forall in Hf. apply Forall_forall.
    intros q [Hne Hq]%list_elem_of_filter.
    destruct (Hf _ Hq) as [Hc Hi]. split; [done|].
    unfold deref in *; simpl. rewrite lookup_delete_ne; [done|].
    intros Hk. apply Hne. symmetry.
    by apply (store_ok_key_inj c).
  - intros k q [Hk Hq]%lookup_delete_Some.
    destruct (Hm _ _ Hq) as [Hqin Hkq]. split; [|done].
    apply list_elem_of_filter. split; [|done].
    intros ->. by apply Hk.
Qed.

Lemma removeElement_weights_ok c e w :
  store_ok c → weights_ok c → e ∈ order (evictList c) →
  weights_ok (removeElement e c w).1.
Proof.
  intros (Hnd & _ & _) (Hlim & Hw & Ht) Hin.
  unfold weights_ok, entries in *; simpl. split_and!; [lia..| |].
  - rewrite Forall_fmap in Hw. rewrite Forall_fmap.
    rewrite Forall_forall in Hw. apply Forall_forall.
    intros q [_ Hq]%list_elem_of_filter. by apply Hw.
  - change (deref (lruList_remove e (evictList c))) with (deref (evictList c)).
    rewrite weight_sum_remove by done.
    rewrite Forall_fmap, Forall_forall in Hw.
    rewrite (Hw _ Hin), Ht. simpl. apply wrap64_sub_l.
Qed.

Lemma notify_ext c c' l w :
  cells (evictList c') = cells (evictList c) → onEvict c' = onEvict c →
  notify c' l w = notify c l w.
Proof.
  intros Hc Ho. unfold notify, fire, deref. by rewrite Hc, Ho.
Qed.

(** ** What the eviction check does *)

(** A run of the loop that returns has unlinked a suffix of the order,
    back first, counted the unlinked entries, fired their notifications
    in that order and touched nothing else. *)
Lemma checkEvict_loop_trace fuel n c w n' c' w' :
  store_ok c →
  checkEvict_loop fuel n c w = Returns (n', c', w') →
  ∃ victims,
    order (evictList c) = order (evictList c') ++ reverse victims
    ∧ n' = n + Z.of_nat (length victims)
    ∧ w' = notify c victims w
    ∧ cells (evictList c') = cells (evictList c)
    ∧ size c' = size c ∧ weightLimit c' = weightLimit c
    ∧ weightCalculator c' = weightCalculator c ∧ onEvict c' = onEvict c
    ∧ store_ok c' ∧ over_limit c' = false
    ∧ (weights_ok c → weights_ok c').
Proof.
  revert n c w. induction fuel as [|fuel IH]; intros n c w Hok Hr.
  - simpl in Hr. destruct (over_limit c) eqn:Ho; [done|].
    injection Hr as <- <- <-. exists []. simpl.
    rewrite app_nil_r. split_and!; try done. lia.
  - destruct (over_limit c) eqn:Ho.
    + destruct (lruList_back (evictList c)) as [e|] eqn:Hb;
        [|by rewrite checkEvict_loop_nil in Hr].
      rewrite (checkEvict_loop_step _ _ _ _ e) in Hr by done.
      destruct (back_snoc _ _ Hb) as [l Hl].
      assert (e ∈ order (evictList c)) as Hin by (rewrite Hl; set_solver).
      assert (e ∉ l) as Hnl.
      { destruct Hok as (Hnd & _). rewrite Hl in Hnd.
        apply NoDup_app in Hnd as (_ & Hd & _).
        intros Hel. apply (Hd _ Hel). set_solver. }
      apply IH in Hr as (vs & Hord & Hn & Hw & Hc & Hs & Hwl & Hwc & Hoe & Hok' & Hov & Hwok);
        [|by apply removeElement_store_ok].
      exists (e :: vs). simpl in *.
      rewrite Hl, filter_ne_snoc in Hord by done.
      split_and!; try done.
      * rewrite reverse_cons, app_assoc, Hl. by rewrite Hord.
      * lia.
      * intros Hwo. apply Hwok. by apply (removeElement_weights_ok c e w).
    + rewrite checkEvict_loop_stop in Hr by done.
      injection Hr as <- <- <-. exists []. simpl.
      rewrite app_nil_r. split_and!; try done. lia.
Qed.

(** On a consistent state with a size that is not negative the loop
    returns: when the store is empty neither bound is exceeded. *)
Lemma over_limit_nonempty c :
  weights_ok c → 0 ≤ size c → over_limit c = true →
  order (evictList c) ≠ [].
Proof.
  intros (Hlim & _ & Ht) Hs Ho Hnil.
  unfold over_limit, lruList_length, entries in *. rewrite Hnil in *.
  simpl in *. rewrite Ht in Ho.
  apply orb_true_iff in Ho as [Ho|Ho]; apply bool_decide_eq_true in Ho.
  - lia.
  - change (wrap64 0) with 0 in Ho. lia.
Qed.

Lemma checkEvict_loop_returns fuel n c w :
  store_ok c → weights_ok c → 0 ≤ size c →
  (length (order (evictList c)) < fuel)%nat →
  ∃ r, checkEvict_loop fuel n c w = Returns r.
Proof.
  revert n c w. induction fuel as [|fuel IH]; intros n c w Hok Hw Hs Hlen; [lia|].
  destruct (over_limit c) eqn:Ho.
  - destruct (lruList_back (evictList c)) as [e|] eqn:Hb.
    + rewrite (checkEvict_loop_step _ _ _ _ e) by done.
      destruct (back_snoc _ _ Hb) as [l Hl].
      assert (e ∈ order (evictList c)) as Hin by (rewrite Hl; set_solver).
      apply IH.
      * by apply removeElement_store_ok.
      * by apply removeElement_weights_ok.
      * done.
      * apply remove_back_shrinks in Hb. simpl. lia.
    + exfalso. apply (over_limit_nonempty c); try done.
      unfold lruList_back in Hb. by apply last_None in Hb.
  - rewrite checkEvict_loop_stop by done. eauto.
Qed.

(** ** Adding *)

Lemma Add_hit k v c w ent :
  items c !! k = Some ent →
  Add k v c w =
  '(n, c', w') ← checkEvict (updated ent v c) w;
  Returns (bool_decide (n > 0), c', w').
Proof. intros Hk. unfold Add. rewrite Hk. reflexivity. Qed.

Lemma Add_miss k v c w :
  items c !! k = None →
  Add k v c w =
  '(n, c', w') ← checkEvict (inserted k v c) w;
  Returns (bool_decide (n > 0), c', w').
Proof. intros Hk. unfold Add. rewrite Hk. reflexivity. Qed.

Lemma updated_frame c ent v :
  order (evictList (updated ent v c))
  = ent :: filter (λ q, q ≠ ent) (order (evictList c))
  ∧ items (updated ent v c) = items c
  ∧ size (updated ent v c) = size c
  ∧ weightLimit (updated ent v c) = weightLimit c
  ∧ weightCalculator (updated ent v c) = weightCalculator c
  ∧ onEvict (updated ent v c) = onEvict c.
Proof.
  unfold updated. simpl. destruct (weightCalculator c) eqn:Hc; by split_and!.
Qed.

Lemma updated_deref_ne c ent v q :
  q ≠ ent → deref (evictList (updated ent v c)) q = deref (evictList c) q.
Proof.
  intros Hne. unfold updated, deref. simpl.
  destruct (weightCalculator c); simpl;
    rewrite !lookup_alter_ne; done.
Qed.

Lemma updated_deref_eq c ent v x :
  cells (evictList c) !! ent = Some x →
  deref (evictList (updated ent v c)) ent
  = Entry (key x) v (new_weight c (weight x) v).
Proof.
  intros Hx. unfold updated, deref, new_weight. simpl.
  destruct (weightCalculator c); simpl;
    by rewrite !lookup_alter_eq, ?Hx.
Qed.

Lemma updated_cells_is_Some c ent v q :
  is_Some (cells (evictList (updated ent v c)) !! q)
  ↔ is_Some (cells (evictList c) !! q).
Proof.
  unfold updated. simpl.
  destruct (weightCalculator c); simpl;
    by rewrite !lookup_alter_is_Some.
Qed.

Lemma updated_weightTotal c ent v x :
  cells (evictList c) !! ent = Some x →
  weightTotal (updated ent v c)
  = match weightCalculator c with
    | Some calc => wrap64 (weightTotal c - weight x + wrap64 (calc v))
    | None => weightTotal c
    end.
Proof.
  intros Hx. unfold updated, deref. simpl.
  destruct (weightCalculator c); simpl; [|done].
  rewrite !lookup_alter_eq, Hx. simpl. by rewrite wrap64_add_l.
Qed.

Lemma store_ok_allocated c e :
  store_ok c → e ∈ order (evictList c) →
  ∃ x, cells (evictList c) !! e = Some x ∧ deref (evictList c) e = x.
Proof.
  intros (_ & Hf & _) Hin. rewrite Forall_forall in Hf.
  destruct (Hf _ Hin) as [[x Hx] _]. exists x. split; [done|].
  unfold deref. by rewrite Hx.
Qed.

Lemma updated_store_ok c k ent v :
  store_ok c → items c !! k = Some ent → store_ok (updated ent v c).
Proof.
  intros Hok Hk. pose proof Hok as (Hnd & Hf & Hm).
  apply (store_ok_lookup c k ent Hok) in Hk as [Hin Hkey].
  destruct (store_ok_allocated c ent Hok Hin) as (x & Hx & Hdx).
  destruct (updated_frame c ent v) as (Ho & Hi & _).
  assert (∀ q, key (deref (evictList (updated ent v c)) q)
               = key (deref (evictList c) q)) as Hkeys.
  { intros q. destruct (decide (q = ent)) as [->|Hne].
    - rewrite (updated_deref_eq c ent v x), Hdx by done. done.
    - by rewrite updated_deref_ne. }
  unfold store_ok. rewrite Ho, Hi. split_and!.
  - apply NoDup_cons. split; [|by apply NoDup_filter].
    rewrite list_elem_of_filter. intros [Hne _]. by apply Hne.
  - rewrite Forall_forall in Hf. apply Forall_forall. intros q Hq.
    assert (q ∈ order (evictList c)) as Hq'.
    { apply elem_of_cons in Hq as [->|Hq]; [done|].
      by apply list_elem_of_filter in Hq as [_ ?]. }
    rewrite updated_cells_is_Some, Hkeys. by apply Hf.
  - intros k' q Hq. destruct (Hm _ _ Hq) as [Hqin Hqk].
    rewrite Hkeys. split; [|done].
    destruct (decide (q = ent)) as [->|Hne]; [set_solver|].
    apply elem_of_cons. right. by apply list_elem_of_filter.
Qed.

Lemma weight_sum_ext calc (f g : ptr → @entry K V) (l : list ptr) :
  (∀ q, q ∈ l → value (f q) = value (g q)) →
  weight_sum calc (f <$> l) = weight_sum calc (g <$> l).
Proof.
  induction l as [|q l IH]; intros Hfg; [done|].
  rewrite !fmap_cons. simpl. rewrite Hfg, IH; [done| |].
  - intros q' Hq'. apply Hfg. apply elem_of_cons. by right.
  - apply elem_of_cons. by left.
Qed.

Lemma updated_weights_ok c k ent v :
  store_ok c → weights_ok c → items c !! k = Some ent →
  weights_ok (updated ent v c).
Proof.
  intros Hok (Hlim & Hw & Ht) Hk. pose proof Hok as (Hnd & Hf & Hm).
  apply (store_ok_lookup c k ent Hok) in Hk as [Hin Hkey].
  destruct (store_ok_allocated c ent Hok Hin) as (x & Hx & Hdx).
  destruct (updated_frame c ent v) as (Ho & Hi & Hs & Hl & Hc & Hoe).
  unfold entries in Hw, Ht. rewrite Forall_fmap, Forall_forall in Hw.
  pose proof (Hw _ Hin) as Hwx. simpl in Hwx. rewrite Hdx in Hwx.
  assert (new_weight c (weight x) v = weight_of (weightCalculator c) v) as Hnew.
  { unfold new_weight, weight_of in *. by destruct (weightCalculator c). }
  unfold weights_ok, entries. rewrite Ho, Hl, Hc. split_and!; [lia..| |].
  - rewrite Forall_fmap. apply Forall_cons. simpl. split.
    + by rewrite (updated_deref_eq c ent v x).
    + apply Forall_forall. intros q [Hne Hq]%list_elem_of_filter. simpl.
      rewrite updated_deref_ne by done. by apply Hw.
  - rewrite fmap_cons. simpl.
    rewrite (updated_deref_eq c ent v x) by done. simpl.
    rewrite (weight_sum_ext _ _ (deref (evictList c))).
    2:{ intros q [Hne _]%list_elem_of_filter. by rewrite updated_deref_ne. }
    rewrite weight_sum_remove, Hdx by done.
    rewrite (updated_weightTotal c ent v x) by done.
    unfold weight_of in *. destruct (weightCalculator c) as [calc|].
    + rewrite Ht, Hwx.
      rewrite <-(wrap64_add_l (_ - _)), wrap64_sub_l, wrap64_add_l.
      f_equal. lia.
    + rewrite Ht. f_equal. lia.
Qed.

Lemma inserted_frame c k v :
  let p := fresh (dom (cells (evictList c))) in
  order (evictList (inserted k v c)) = p :: order (evictList c)
  ∧ items (inserted k v c) = <[k := p]> (items c)
  ∧ size (inserted k v c) = size c
  ∧ weightLimit (inserted k v c) = weightLimit c
  ∧ weightCalculator (inserted k v c) = weightCalculator c
  ∧ onEvict (inserted k v c) = onEvict c
  ∧ deref (evictList (inserted k v c)) p
    = Entry k v (weight_of (weightCalculator c) v)
  ∧ is_Some (cells (evictList (inserted k v c)) !! p)
  ∧ (∀ q, q ≠ p → cells (evictList (inserted k v c)) !! q
                  = cells (evictList c) !! q)
  ∧ weightTotal (inserted k v c)
    = match weightCalculator c with
      | Some calc => wrap64 (weightTotal c + wrap64 (calc v))
      | None => weightTotal c
      end.
Proof.
  intros p. unfold inserted, deref, weight_of. simpl. fold p.
  destruct (weightCalculator c) as [calc|] eqn:Hc; simpl; split_and!; try done.
  - by rewrite lookup_alter_eq, lookup_insert_eq.
  - by rewrite lookup_alter_eq, lookup_insert_eq.
  - intros q Hq. by rewrite lookup_alter_ne, lookup_insert_ne.
  - by rewrite lookup_alter_eq, lookup_insert_eq.
  - by rewrite lookup_insert_eq.
  - by rewrite lookup_insert_eq.
  - intros q Hq. by rewrite lookup_insert_ne.
Qed.

Lemma fresh_not_linked c :
  store_ok c → fresh (dom (cells (evictList c))) ∉ order (evictList c).
Proof.
  intros Hok Hin. destruct (store_ok_allocated c _ Hok Hin) as (x & Hx & _).
  apply (is_fresh (dom (cells (evictList c)))).
  apply elem_of_dom. eauto.
Qed.

Lemma fmap_ext_elem_of {A B} (f g : A → B) (l : list A) :
  (∀ q, q ∈ l → f q = g q) → f <$> l = g <$> l.
Proof.
  induction l as [|q l IH]; intros Hfg; [done|].
  rewrite !fmap_cons. f_equal.
  - apply Hfg. apply elem_of_cons. by left.
  - apply IH. intros q' Hq'. apply Hfg. apply elem_of_cons. by right.
Qed.

Lemma inserted_deref_old c k v q :
  store_ok c → q ∈ order (evictList c) →
  deref (evictList (inserted k v c)) q = deref (evictList c) q.
Proof.
  intros Hok Hq. destruct (inserted_frame c k v) as (_&_&_&_&_&_&_&_&Hc&_).
  unfold deref. rewrite Hc; [done|].
  intros ->. by apply (fresh_not_linked c).
Qed.

Lemma inserted_store_ok c k v :
  store_ok c → items c !! k = None → store_ok (inserted k v c).
Proof.
  intros Hok Hk. pose proof Hok as (Hnd & Hf & Hm).
  pose proof (fresh_not_linked c Hok) as Hfresh.
  destruct (inserted_frame c k v) as (Ho & Hi & _ & _ & _ & _ & Hp & Hsp & Hc & _).
  simpl in *. unfold store_ok. rewrite Ho, Hi. split_and!.
  - by apply NoDup_cons.
  - apply Forall_cons. split.
    + rewrite Hp. simpl. split; [done|]. by rewrite lookup_insert_eq.
    + rewrite Forall_forall in Hf. apply Forall_forall. intros q Hq.
      destruct (Hf _ Hq) as [Hs Hiq].
      rewrite inserted_deref_old by done.
      rewrite Hc by (by intros ->). split; [done|].
      rewrite lookup_insert_ne; [done|]. intros ->. congruence.
  - apply map_Forall_insert; [done|]. split.
    + rewrite Hp. split; [|done]. apply elem_of_cons. by left.
    + intros k' q Hq. destruct (Hm _ _ Hq) as [Hqin Hqk].
      rewrite inserted_deref_old by done. split; [|done].
      apply elem_of_cons. by right.
Qed.

Lemma inserted_weights_ok c k v :
  store_ok c → weights_ok c → weights_ok (inserted k v c).
Proof.
  intros Hok (Hlim & Hw & Ht).
  destruct (inserted_frame c k v) as (Ho & _ & _ & Hl & Hcalc & _ & Hp & _ & _ & HT).
  simpl in *. unfold weights_ok, entries in *. rewrite Ho, Hl, Hcalc.
  rewrite fmap_cons, Hp.
  rewrite (fmap_ext_elem_of _ (deref (evictList c)))
    by (intros q Hq; by apply inserted_deref_old).
  split_and!; [lia..| |].
  - by apply Forall_cons.
  - rewrite HT, Ht. simpl. unfold weight_of.
    destruct (weightCalculator c) as [calc|].
    + rewrite wrap64_add_l. f_equal. lia.
    + done.
Qed.

(** [Add] on a consistent state with a positive size returns, and the
    state it leaves is consistent and within both bounds. *)
Lemma Add_returns k v c w :
  store_ok c → weights_ok c → 0 ≤ size c →
  ∃ b c' w',
    Add k v c w = Returns (b, c', w')
    ∧ store_ok c' ∧ weights_ok c'
    ∧ size c' = size c ∧ weightLimit c' = weightLimit c
    ∧ weightCalculator c' = weightCalculator c ∧ onEvict c' = onEvict c
    ∧ over_limit c' = false.
Proof.
  intros Hok Hw Hs.
  destruct (items c !! k) as [ent|] eqn:Hk.
  - rewrite (Add_hit _ _ _ _ ent) by done.
    pose proof (updated_store_ok c k ent v Hok Hk) as Hok1.
    pose proof (updated_weights_ok c k ent v Hok Hw Hk) as Hw1.
    destruct (updated_frame c ent v) as (_ & _ & Hs1 & Hl1 & Hc1 & Ho1).
    destruct (checkEvict_loop_returns
                (S (length (order (evictList (updated ent v c))))) 0
                (updated ent v c) w) as [[[n c'] w'] Hr]; [done|done|lia|lia|].
    unfold checkEvict. rewrite Hr. simpl.
    apply checkEvict_loop_trace in Hr
      as (vs & _ & _ & _ & _ & ? & ? & ? & ? & ? & ? & ?); [|done].
    eexists _, _, _. split; [done|]. split_and!; try done; try congruence.
    auto.
  - rewrite Add_miss by done.
    pose proof (inserted_store_ok c k v Hok Hk) as Hok1.
    pose proof (inserted_weights_ok c k v Hok Hw) as Hw1.
    destruct (inserted_frame c k v) as (_ & _ & Hs1 & Hl1 & Hc1 & Ho1 & _).
    destruct (checkEvict_loop_returns
                (S (length (order (evictList (inserted k v c))))) 0
                (inserted k v c) w) as [[[n c'] w'] Hr]; [done|done|lia|lia|].
    unfold checkEvict. rewrite Hr. simpl.
    apply checkEvict_loop_trace in Hr
      as (vs & _ & _ & _ & _ & ? & ? & ? & ? & ? & ? & ?); [|done].
    eexists _, _, _. split; [done|]. split_and!; try done; try congruence.
    auto.
Qed.

(** ** The other operations keep the state consistent

    With [Add] above: every operation but [Purge] keeps index and store
    consistent and the weight total equal to the sum of the weights. *)

Lemma Remove_ok k c w :
  store_ok c → weights_ok c →
  store_ok (Remove k c w).1.2 ∧ weights_ok (Remove k c w).1.2.
Proof.
  intros Hok Hw. unfold Remove.
  destruct (items c !! k) as [ent|] eqn:Hk; [|done].
  apply (store_ok_lookup c k ent Hok) in Hk as [Hin _].
  pose proof (removeElement_store_ok c ent w Hok Hin).
  pose proof (removeElement_weights_ok c ent w Hok Hw Hin).
  by destruct (removeElement ent c w).
Qed.

Lemma RemoveOldest_ok c w :
  store_ok c → weights_ok c →
  store_ok (RemoveOldest c w).1.2 ∧ weights_ok (RemoveOldest c w).1.2.
Proof.
  intros Hok Hw. unfold RemoveOldest.
  destruct (lruList_back (evictList c)) as [ent|] eqn:Hb; [|done].
  destruct (back_snoc _ _ Hb) as [l Hl].
  assert (ent ∈ order (evictList c)) as Hin by (rewrite Hl; set_solver).
  pose proof (removeElement_store_ok c ent w Hok Hin).
  pose proof (removeElement_weights_ok c ent w Hok Hw Hin).
  by destruct (removeElement ent c w).
Qed.

Lemma Get_ok k c :
  store_ok c → weights_ok c →
  store_ok (Get k c).2 ∧ weights_ok (Get k c).2.
Proof.
  intros Hok Hw. unfold Get.
  destruct (items c !! k) as [ent|] eqn:Hk; [|done]. simpl.
  apply (store_ok_lookup c k ent Hok) in Hk as [Hin Hkey].
  pose proof Hok as (Hnd & Hf & Hm). destruct Hw as (Hlim & Hwe & Ht).
  rewrite Forall_forall in Hf. unfold entries in Hwe, Ht.
  rewrite Forall_fmap, Forall_forall in Hwe.
  split.
  - unfold store_ok. simpl. split_and!.
    + apply NoDup_cons. split; [|by apply NoDup_filter].
      rewrite list_elem_of_filter. intros [Hne _]. by apply Hne.
    + apply Forall_forall. intros q Hq. apply Hf.
      apply elem_of_cons in Hq as [->|Hq]; [done|].
      by apply list_elem_of_filter in Hq as [_ ?].
    + intros k' q Hq. destruct (Hm _ _ Hq) as [Hqin Hqk]. split; [|done].
      destruct (decide (q = ent)) as [->|Hne]; [apply elem_of_cons; by left|].
      apply elem_of_cons. right. by apply list_elem_of_filter.
  - assert (entries (with_evictList (lruList_moveToFront ent (evictList c)) c)
            = deref (evictList c) ent
              :: (deref (evictList c)
                    <$> filter (λ q, q ≠ ent) (order (evictList c)))) as He
      by reflexivity.
    unfold weights_ok. rewrite He. simpl. split_and!; [lia..| |].
    + apply Forall_cons. split; [by apply Hwe|].
      rewrite Forall_fmap. apply Forall_forall.
      intros q [_ Hq]%list_elem_of_filter. by apply Hwe.
    + rewrite weight_sum_remove by done. rewrite Ht. f_equal. lia.
Qed.

Lemma Resize_ok n c w m c' w' :
  store_ok c → weights_ok c →
  Resize n c w = Returns (m, c', w') → store_ok c' ∧ weights_ok c'.
Proof.
  intros Hok Hw Hr. unfold Resize, checkEvict in Hr.
  apply checkEvict_loop_trace in Hr
    as (_ & _ & _ & _ & _ & _ & _ & _ & _ & ? & _ & Hwok); [|done].
  split; [done|]. by apply Hwok.
Qed.

Lemma ResetWeightLimit_ok t c w m c' w' :
  store_ok c → weights_ok c →
  ResetWeightLimit t c w = Returns (m, c', w') → store_ok c' ∧ weights_ok c'.
Proof.
  intros Hok Hw Hr. unfold ResetWeightLimit, checkEvict in Hr.
  apply checkEvict_loop_trace in Hr
    as (_ & _ & _ & _ & _ & _ & _ & _ & _ & ? & _ & Hwok); [|done].
  split; [done|]. apply Hwok.
  destruct Hw as (_ & ? & ?). split; [|done]. simpl. apply wrap64_range.
Qed.

(** ** Construction *)

Lemma New_ok n limit calc cb :
  0 < n →
  ∃ c0 : LRU (W := W),
    NewLRUWithWeightLimit n limit calc cb = inr c0
    ∧ store_ok c0 ∧ weights_ok c0 ∧ over_limit c0 = false
    ∧ size c0 = n ∧ weightLimit c0 = wrap64 limit
    ∧ weightCalculator c0 = calc ∧ onEvict c0 = cb
    ∧ order (evictList c0) = [] ∧ weightTotal c0 = 0.
Proof.
  intros Hn. eexists. unfold NewLRUWithWeightLimit.
  rewrite bool_decide_eq_false_2 by lia. split; [done|].
  pose proof (wrap64_range limit).
  split_and!; try done.
  - unfold store_ok. simpl. split_and!; [constructor..|]. apply map_Forall_empty.
  - unfold over_limit, lruList_length. simpl.
    rewrite !bool_decide_eq_false_2; [done|lia..].
Qed.

Lemma within_bounds c :
  over_limit c = false → Len c ≤ size c ∧ WeightTotal c ≤ weightLimit c.
Proof.
  unfold over_limit, Len, WeightTotal.
  intros [H1%bool_decide_eq_false H2%bool_decide_eq_false]%orb_false_iff. lia.
Qed.

Lemma add_all_returns adds c w :
  store_ok c → weights_ok c → 0 ≤ size c → over_limit c = false →
  ∃ c' w',
    add_all adds c w = Returns (c', w')
    ∧ store_ok c' ∧ weights_ok c'
    ∧ size c' = size c ∧ weightLimit c' = weightLimit c
    ∧ over_limit c' = false.
Proof.
  revert c w. induction adds as [|[k v] adds IH]; intros c w Hok Hw Hs Ho.
  - exists c, w. by split_and!.
  - destruct (Add_returns k v c w Hok Hw Hs)
      as (b & c1 & w1 & Hr & Hok1 & Hw1 & Hs1 & Hl1 & _ & _ & Ho1).
    destruct (IH c1 w1) as (c2 & w2 & Hr2 & ? & ? & ? & ? & ?);
      [done|done|lia|done|].
    exists c2, w2. simpl. rewrite Hr. simpl. split_and!; try done; congruence.
Qed.

(** C4. Capacity invariant: on a cache constructed with a positive size,
    every sequence of [Add] calls returns, and after each call of it (after
    the first [m] calls, for every [m]) the number of entries is at most
    the size and the weight total at most the weight limit. *)
Theorem Add_sequence_within_bounds n limit calc cb (adds : list (K * V)) w :
  0 < n →
  ∃ c0 : LRU (W := W),
    NewLRUWithWeightLimit n limit calc cb = inr c0
    ∧ ∀ m : nat,
        ∃ c w',
          add_all (take m adds) c0 w = Returns (c, w')
          ∧ size c = n ∧ weightLimit c = weightLimit c0
          ∧ Len c ≤ size c ∧ WeightTotal c ≤ weightLimit c.
Proof.
  intros Hn.
  destruct (New_ok n limit calc cb Hn)
    as (c0 & Hnew & Hok & Hw & Ho & Hs & _).
  exists c0. split; [done|]. intros m.
  destruct (add_all_returns (take m adds) c0 w)
    as (c & w' & Hr & _ & _ & Hs' & Hl' & Ho'); [done|done|lia|done|].
  exists c, w'. destruct (within_bounds c Ho').
  split_and!; try done. congruence.
Qed.

(** C5. Victim selection: a returning eviction check has removed a
    suffix of the recency order and nothing else, the back entry first,
    whichever of the two bounds was exceeded; it counted the removed
    entries and notified them in that order. *)
Theorem checkEvict_evicts_from_back c w n c' w' :
  store_ok c →
  checkEvict c w = Returns (n, c', w') →
  ∃ victims,
    order (evictList c) = order (evictList c') ++ reverse victims
    ∧ n = Z.of_nat (length victims)
    ∧ w' = notify c victims w
    ∧ (∀ e, e ∈ victims → items c' !! key (deref (evictList c) e) = None)
    ∧ (∀ e, e ∈ order (evictList c') →
            items c' !! key (deref (evictList c) e) = Some e).
Proof.
  intros Hok Hr. unfold checkEvict in Hr.
  apply checkEvict_loop_trace in Hr
    as (vs & Hord & Hn & Hw & Hc & _ & _ & _ & _ & Hok' & _); [|done].
  exists vs. split_and!; try done.
  - intros e He. apply eq_None_not_Some. intros [q Hq].
    apply (store_ok_lookup c' _ _ Hok') in Hq as [Hq Hk].
    assert (deref (evictList c') q = deref (evictList c) q) as Hd
      by (unfold deref; by rewrite Hc).
    rewrite Hd in Hk.
    assert (q = e) as ->.
    { apply (store_ok_key_inj c); [done| | |done]; rewrite Hord.
      - apply elem_of_app. by left.
      - apply elem_of_app. right. by apply elem_of_reverse. }
    destruct Hok as (Hnd & _). rewrite Hord in Hnd.
    apply NoDup_app in Hnd as (_ & Hd' & _).
    apply (Hd' _ Hq). by apply elem_of_reverse.
  - intros e He.
    assert (deref (evictList c') e = deref (evictList c) e) as Hd
      by (unfold deref; by rewrite Hc).
    rewrite <-Hd. by apply (store_ok_lookup c').
Qed.

(** ** Resizing *)


Lemma checkEvict_negative_size c w :
  size c < 0 → checkEvict c w = Panics.
Proof. intros Hs. apply checkEvict_loop_negative_size; [done|lia]. Qed.

(** C2. The eviction check does not terminate without failure for every
    state: with a negative size the test [length() > size] stays true on
    the empty store, [back()] is nil and the loop body dereferences it. *)
Theorem Resize_negative_panics n c w :
  n < 0 → Resize n c w = Panics.
Proof.
  intros Hn. unfold Resize. by apply checkEvict_negative_size.
Qed.

(** ** Purging *)

Lemma Purge_frame seed c w :
  weightTotal (Purge seed c w).1 = weightTotal c
  ∧ order (evictList (Purge seed c w).1) = []
  ∧ size (Purge seed c w).1 = size c
  ∧ weightLimit (Purge seed c w).1 = weightLimit c.
Proof.
  unfold Purge.
  generalize (range_order seed (map_to_list (items c))). intros l.
  assert (∀ s : LRU (W := W) * W,
            weightTotal (foldl (λ '(c, w) '(k, v),
               (with_items (delete k (items c)) c,
                fire c k (value (deref (evictList c) v)) w)) s l).1
            = weightTotal s.1
            ∧ size (foldl (λ '(c, w) '(k, v),
               (with_items (delete k (items c)) c,
                fire c k (value (deref (evictList c) v)) w)) s l).1
            = size s.1
            ∧ weightLimit (foldl (λ '(c, w) '(k, v),
               (with_items (delete k (items c)) c,
                fire c k (value (deref (evictList c) v)) w)) s l).1
            = weightLimit s.1) as Hfold.
  { induction l as [|[k e] l IH]; intros [c1 w1]; [done|].
    simpl. by rewrite !(proj1 (IH _)), !(proj1 (proj2 (IH _))),
                      !(proj2 (proj2 (IH _))). }
  specialize (Hfold (c, w)).
  destruct (foldl _ (c, w) l) as [c2 w2]. simpl in *.
  by destruct Hfold as (-> & -> & ->).
Qed.

Lemma Purge_empties seed c w :
  Keys (Purge seed c w).1 = []
  ∧ Len (Purge seed c w).1 = 0
  ∧ weight_sum (weightCalculator (Purge seed c w).1)
               (entries (Purge seed c w).1) = 0
  ∧ weightTotal (Purge seed c w).1 = weightTotal c.
Proof.
  destruct (Purge_frame seed c w) as (Ht & Ho & _).
  unfold Keys, Len, lruList_length, entries. rewrite Ho. by split_and!.
Qed.

Lemma ResetWeightLimit_after_Purge_panics seed c w t :
  wrap64 t < weightTotal c →
  ResetWeightLimit t (Purge seed c w).1 (Purge seed c w).2 = Panics.
Proof.
  intros Hlt. destruct (Purge_frame seed c w) as (Ht & Ho & _).
  unfold ResetWeightLimit, checkEvict.
  apply checkEvict_loop_nil.
  - unfold over_limit. simpl. rewrite Ht.
    rewrite (bool_decide_eq_true_2 (_ > wrap64 t)) by lia.
    apply orb_true_r.
  - unfold lruList_back. simpl. by rewrite Ho.
Qed.

(** ** Updating a present key *)

Lemma weight_of_range calc (v : V) : 0 ≤ weight_of calc v < 2 ^ 64.
Proof. destruct calc; simpl; [apply wrap64_range|lia]. Qed.

Lemma checkEvict_loop_keeps_front fuel n c w ent n' c' w' :
  store_ok c → weights_ok c → 1 ≤ size c →
  head (order (evictList c)) = Some ent →
  weight_of (weightCalculator c) (value (deref (evictList c) ent))
    ≤ weightLimit c →
  checkEvict_loop fuel n c w = Returns (n', c', w') →
  head (order (evictList c')) = Some ent.
Proof.
  revert n c w. induction fuel as [|fuel IH]; intros n c w Hok Hw Hs Hh Hle Hr.
  - simpl in Hr. destruct (over_limit c); [done|]. by injection Hr as <- <- <-.
  - destruct (over_limit c) eqn:Ho;
      [|rewrite checkEvict_loop_stop in Hr by done; by injection Hr as <- <- <-].
    destruct (lruList_back (evictList c)) as [e|] eqn:Hb;
      [|by rewrite checkEvict_loop_nil in Hr].
    rewrite (checkEvict_loop_step _ _ _ _ e) in Hr by done.
    destruct (back_snoc _ _ Hb) as [l Hl].
    assert (e ∈ order (evictList c)) as Hin by (rewrite Hl; set_solver).
    assert (e ∉ l) as Hnl.
    { destruct Hok as (Hnd & _). rewrite Hl in Hnd.
      apply NoDup_app in Hnd as (_ & Hd & _).
      intros Hel. apply (Hd _ Hel). set_solver. }
    destruct l as [|x l].
    + exfalso. simpl in Hl. rewrite Hl in Hh. simpl in Hh. injection Hh as ->.
      destruct Hw as (Hlim & _ & Ht).
      unfold over_limit, lruList_length, entries in *.
      rewrite Hl in *. rewrite fmap_cons in Ht. simpl in *.
      rewrite Z.add_0_r, wrap64_small in Ht by apply weight_of_range.
      apply orb_true_iff in Ho as [Ho|Ho]; apply bool_decide_eq_true in Ho; lia.
    + rewrite Hl in Hh. simpl in Hh. injection Hh as ->.
      eapply IH; [..|exact Hr].
      * by apply removeElement_store_ok.
      * by apply removeElement_weights_ok.
      * done.
      * simpl. rewrite Hl. change (ent :: l ++ [e]) with ((ent :: l) ++ [e]).
        by rewrite filter_ne_snoc.
      * done.
Qed.

(** C3 (amended). [Add] of a present key keeps that key whenever the
    weight of the new value does not exceed the weight limit (always so
    without a weight function): the call returns, the key is still
    present with the new value and is the most recently used entry; only
    entries behind it can have been evicted. *)
Theorem Add_update_keeps_key k v c w :
  store_ok c → weights_ok c → 1 ≤ size c →
  Contains k c = true →
  weight_of (weightCalculator c) v ≤ weightLimit c →
  ∃ b c' w',
    Add k v c w = Returns (b, c', w')
    ∧ Contains k c' = true
    ∧ Peek k c' = (v, true)
    ∧ last (Keys c') = Some k.
Proof.
  intros Hok Hw Hs Hk Hle.
  apply bool_decide_eq_true in Hk as [ent Hk].
  rewrite (Add_hit _ _ _ _ ent) by done.
  pose proof (updated_store_ok c k ent v Hok Hk) as Hok1.
  pose proof (updated_weights_ok c k ent v Hok Hw Hk) as Hw1.
  destruct (updated_frame c ent v) as (Hord1 & _ & Hs1 & Hl1 & Hc1 & _).
  apply (store_ok_lookup c k ent Hok) in Hk as [Hin Hkey].
  destruct (store_ok_allocated c ent Hok Hin) as (x & Hx & Hdx).
  pose proof (updated_deref_eq c ent v x Hx) as Hd1.
  destruct (checkEvict_loop_returns
              (S (length (order (evictList (updated ent v c))))) 0
              (updated ent v c) w) as [[[n c'] w'] Hr]; [done|done|lia|lia|].
  unfold checkEvict. rewrite Hr. simpl.
  assert (head (order (evictList c')) = Some ent) as Hh.
  { eapply checkEvict_loop_keeps_front; [..|exact Hr]; try done.
    - lia.
    - by rewrite Hord1.
    - rewrite Hd1, Hl1, Hc1. done. }
  apply checkEvict_loop_trace in Hr
    as (vs & _ & _ & _ & Hc & _ & _ & _ & _ & Hok' & _); [|done].
  assert (deref (evictList c') ent = Entry k v (new_weight c (weight x) v)) as Hd'.
  { unfold deref in *. rewrite Hc, Hd1. by rewrite <-Hkey, Hx. }
  assert (ent ∈ order (evictList c')) as Hin'.
  { destruct (order (evictList c')); [done|]. injection Hh as ->.
    apply elem_of_cons. by left. }
  assert (items c' !! k = Some ent) as Hk'.
  { apply (store_ok_lookup c' k ent Hok'). by rewrite Hd'. }
  eexists _, _, _. split; [done|]. split_and!.
  - apply bool_decide_eq_true. eauto.
  - unfold Peek. by rewrite Hk', Hd'.
  - unfold Keys. destruct (order (evictList c')) as [|q l]; [done|].
    injection Hh as ->.
    rewrite reverse_cons, fmap_app, fmap_cons, fmap_nil, last_snoc.
    by rewrite Hd'.
Qed.

(** ** Calls that evict nothing notify nothing *)

Lemma checkEvict_loop_quiet fuel n c w n' c' w' :
  checkEvict_loop fuel n c w = Returns (n', c', w') →
  n ≤ n' ∧ (n' = n → w' = w).
Proof.
  revert n c w. induction fuel as [|fuel IH]; intros n c w Hr.
  - simpl in Hr. destruct (over_limit c); [done|].
    injection Hr as <- <- <-. split; [lia|done].
  - destruct (over_limit c) eqn:Ho.
    + destruct (lruList_back (evictList c)) as [e|] eqn:Hb;
        [|by rewrite checkEvict_loop_nil in Hr].
      rewrite (checkEvict_loop_step _ _ _ _ e) in Hr by done.
      apply IH in Hr as [Hle _]. split; lia.
    + rewrite checkEvict_loop_stop in Hr by done.
      injection Hr as <- <- <-. split; [lia|done].
Qed.

Lemma checkEvict_quiet c w n c' w' :
  checkEvict c w = Returns (n, c', w') → ¬ n > 0 → w' = w.
Proof.
  intros Hr Hn. apply checkEvict_loop_quiet in Hr as [Hle Hq].
  apply Hq. lia.
Qed.

Lemma Add_quiet k v c w c' w' :
  Add k v c w = Returns (false, c', w') → w' = w.
Proof.
  intros Hr. destruct (items c !! k) as [ent|] eqn:Hk.
  - rewrite (Add_hit _ _ _ _ ent) in Hr by done.
    destruct (checkEvict (updated ent v c) w) as [[[n c1] w1]| |] eqn:He;
      try done.
    simpl in Hr. injection Hr as Hb <- <-.
    apply bool_decide_eq_false in Hb. by apply checkEvict_quiet in He.
  - rewrite Add_miss in Hr by done.
    destruct (checkEvict (inserted k v c) w) as [[[n c1] w1]| |] eqn:He;
      try done.
    simpl in Hr. injection Hr as Hb <- <-.
    apply bool_decide_eq_false in Hb. by apply checkEvict_quiet in He.
Qed.

Lemma Remove_quiet k c w c' w' :
  Remove k c w = (false, c', w') → w' = w.
Proof.
  unfold Remove. destruct (items c !! k); [|congruence].
  destruct (removeElement _ c w). congruence.
Qed.

Lemma RemoveOldest_quiet c w k v c' w' :
  RemoveOldest c w = (k, v, false, c', w') → w' = w.
Proof.
  unfold RemoveOldest. destruct (lruList_back (evictList c)); [|congruence].
  destruct (removeElement _ c w). congruence.
Qed.

End engine_facts.

(** * Engines that differ in their callback *)

Section relating_facts.
Context {K V : Type} `{Countable K} `{!Zero K, !Zero V} {W1 W2 : Type}.
Context (R : W1 → W2 → Prop).
Context (f : option (K → V → W1 → W1)) (g : option (K → V → W2 → W2)).
Context (Hfg : hooks_related R f g).
Implicit Types (c : LRU (K := K) (V := V) (W := W1))
               (d : LRU (K := K) (V := V) (W := W2)).

Lemma outcome_rel_bind {A1 A2 B1 B2} (P : A1 → A2 → Prop) (Q : B1 → B2 → Prop)
    (m1 : outcome A1) (m2 : outcome A2) k1 k2 :
  outcome_rel P m1 m2 →
  (∀ a1 a2, P a1 a2 → outcome_rel Q (k1 a1) (k2 a2)) →
  outcome_rel Q (m1 ≫= k1) (m2 ≫= k2).
Proof. intros [a1 a2 Ha| |] Hk; simpl; [by apply Hk|constructor..]. Qed.

Lemma outcome_rel_cases {A B} (P : A → B → Prop) m1 m2 :
  outcome_rel P m1 m2 →
  (∃ a b, m1 = Returns a ∧ m2 = Returns b ∧ P a b)
  ∨ (m1 = Panics ∧ m2 = Panics)
  ∨ (m1 = Unfinished ∧ m2 = Unfinished).
Proof. intros [a b Hab| |]; eauto 10. Qed.

Lemma assoc_outcome {A B C} (m : outcome A) (k1 : A → outcome B)
    (k2 : B → outcome C) :
  (m ≫= k1) ≫= k2 = m ≫= (λ a, k1 a ≫= k2).
Proof. by destruct m. Qed.

Ltac same_fields c1 c2 Hc :=
  destruct c1, c2; destruct Hc as (?&?&?&?&?&?&?&?); simpl in *; subst.

Lemma fire_related c d k v w u :
  same_engine f g c d → R w u → R (fire c k v w) (fire d k v u).
Proof.
  intros (_&_&_&_&_&_&Hf&Hg) Hw. unfold fire.
  pose proof Hfg as Hh. rewrite <-Hf, <-Hg in Hh. unfold hooks_related in Hh.
  destruct (onEvict c), (onEvict d); try done. by apply Hh.
Qed.

Lemma removeElement_related e c d w u :
  same_engine f g c d → R w u →
  same_engine f g (removeElement e c w).1 (removeElement e d u).1
  ∧ R (removeElement e c w).2 (removeElement e d u).2.
Proof.
  intros Hc Hw. split.
  - same_fields c d Hc. by split_and!.
  - unfold removeElement. simpl.
    pose proof Hc as (_ & He & _). rewrite He.
    pose proof (fire_related c d) as Hfire.
    unfold fire in *. simpl. by apply Hfire.
Qed.

Lemma over_limit_related c d :
  same_engine f g c d → over_limit c = over_limit d.
Proof. intros Hc. same_fields c d Hc. done. Qed.

Lemma checkEvict_loop_related fuel n c d w u :
  same_engine f g c d → R w u →
  outcome_rel (result_related R f g)
    (checkEvict_loop fuel n c w) (checkEvict_loop fuel n d u).
Proof.
  revert n c d w u. induction fuel as [|fuel IH]; intros n c d w u Hc Hw.
  - simpl. rewrite <-(over_limit_related c d Hc).
    destruct (over_limit c); constructor. by split_and!.
  - pose proof (over_limit_related c d Hc) as Ho.
    pose proof Hc as (_ & He & _).
    destruct (over_limit c) eqn:Hoc; symmetry in Ho.
    + destruct (lruList_back (evictList c)) as [e|] eqn:Hb.
      * rewrite (checkEvict_loop_step _ _ c _ e) by done.
        rewrite (checkEvict_loop_step _ _ d _ e) by (by rewrite <-?He).
        destruct (removeElement_related e c d w u Hc Hw) as [Hc' Hw'].
        by apply IH.
      * rewrite (checkEvict_loop_nil _ _ c) by done.
        rewrite (checkEvict_loop_nil _ _ d) by (by rewrite <-?He).
        constructor.
    + rewrite !checkEvict_loop_stop by done. constructor. by split_and!.
Qed.

Lemma checkEvict_related c d w u :
  same_engine f g c d → R w u →
  outcome_rel (result_related R f g) (checkEvict c w) (checkEvict d u).
Proof.
  intros Hc Hw. unfold checkEvict.
  pose proof Hc as (_ & He & _). rewrite <-He.
  by apply checkEvict_loop_related.
Qed.

Lemma updated_related ent v c d :
  same_engine f g c d → same_engine f g (updated ent v c) (updated ent v d).
Proof.
  intros Hc. same_fields c d Hc. unfold updated. simpl.
  destruct weightCalculator1; by split_and!.
Qed.

Lemma inserted_related k v c d :
  same_engine f g c d → same_engine f g (inserted k v c) (inserted k v d).
Proof.
  intros Hc. same_fields c d Hc. unfold inserted. simpl.
  destruct weightCalculator1; by split_and!.
Qed.

Lemma Add_related k v c d w u :
  same_engine f g c d → R w u →
  outcome_rel (result_related R f g) (Add k v c w) (Add k v d u).
Proof.
  intros Hc Hw. pose proof Hc as (_ & _ & Hi & _).
  destruct (items c !! k) as [ent|] eqn:Hk.
  - rewrite (Add_hit k v c w ent), (Add_hit k v d u ent) by (by rewrite <-?Hi).
    eapply outcome_rel_bind;
      [apply checkEvict_related; [by apply updated_related|done]|].
    intros [[n1 c1] w1] [[n2 c2] w2] (Hn & Hc' & Hw'). simpl in *. subst.
    constructor. by split_and!.
  - rewrite (Add_miss k v c w), (Add_miss k v d u) by (by rewrite <-?Hi).
    eapply outcome_rel_bind;
      [apply checkEvict_related; [by apply inserted_related|done]|].
    intros [[n1 c1] w1] [[n2 c2] w2] (Hn & Hc' & Hw'). simpl in *. subst.
    constructor. by split_and!.
Qed.

Lemma Resize_related n c d w u :
  same_engine f g c d → R w u →
  outcome_rel (result_related R f g) (Resize n c w) (Resize n d u).
Proof.
  intros Hc Hw. apply checkEvict_related; [|done].
  same_fields c d Hc. by split_and!.
Qed.

Lemma ResetWeightLimit_related t c d w u :
  same_engine f g c d → R w u →
  outcome_rel (result_related R f g)
    (ResetWeightLimit t c w) (ResetWeightLimit t d u).
Proof.
  intros Hc Hw. apply checkEvict_related; [|done].
  same_fields c d Hc. by split_and!.
Qed.

Lemma Remove_related k c d w u :
  same_engine f g c d → R w u →
  result_related R f g (Remove k c w) (Remove k d u).
Proof.
  intros Hc Hw. pose proof Hc as (_ & _ & Hi & _).
  unfold Remove. rewrite <-Hi.
  destruct (items c !! k) as [ent|]; [|by split_and!].
  destruct (removeElement_related ent c d w u Hc Hw) as [Hc' Hw'].
  destruct (removeElement ent c w), (removeElement ent d u). by split_and!.
Qed.

Lemma RemoveOldest_related c d w u :
  same_engine f g c d → R w u →
  (RemoveOldest c w).1.1 = (RemoveOldest d u).1.1
  ∧ same_engine f g (RemoveOldest c w).1.2 (RemoveOldest d u).1.2
  ∧ R (RemoveOldest c w).2 (RemoveOldest d u).2.
Proof.
  intros Hc Hw. pose proof Hc as (_ & He & _).
  unfold RemoveOldest. rewrite <-He.
  destruct (lruList_back (evictList c)) as [ent|]; [|by split_and!].
  destruct (removeElement_related ent c d w u Hc Hw) as [Hc' Hw'].
  destruct (removeElement ent c w), (removeElement ent d u). by split_and!.
Qed.

Lemma Get_related k c d :
  same_engine f g c d →
  (Get k c).1 = (Get k d).1 ∧ same_engine f g (Get k c).2 (Get k d).2.
Proof.
  intros Hc. same_fields c d Hc. unfold Get. simpl.
  destruct (items1 !! k); by split_and!.
Qed.

Lemma readers_related c d :
  same_engine f g c d →
  (∀ k, Contains k c = Contains k d)
  ∧ (∀ k, Peek k c = Peek k d)
  ∧ GetOldest c = GetOldest d
  ∧ Keys c = Keys d
  ∧ Len c = Len d
  ∧ WeightTotal c = WeightTotal d.
Proof. intros Hc. same_fields c d Hc. by split_and!. Qed.

Lemma Purge_related seed c d w u :
  same_engine f g c d → R w u →
  same_engine f g (Purge seed c w).1 (Purge seed d u).1
  ∧ R (Purge seed c w).2 (Purge seed d u).2.
Proof.
  intros Hc Hw. unfold Purge.
  pose proof Hc as (_ & _ & Hi & _). rewrite <-Hi.
  generalize (range_order seed (map_to_list (items c))). intros l.
  revert c d w u Hc Hw Hi. induction l as [|[k e] l IH]; intros c d w u Hc Hw Hi.
  - simpl. split; [|done]. same_fields c d Hc. by split_and!.
  - simpl. apply IH.
    + same_fields c d Hc. by split_and!.
    + pose proof Hc as (_ & He & _). rewrite <-He. by apply fire_related.
    + simpl. by rewrite Hi.
Qed.

End relating_facts.

(** * The wrapper's buffers *)

Section buffer_facts.
Context {K V : Type} `{Countable K} `{!Zero K, !Zero V} {U : Type}.
Context (growslice : nat → nat).
Implicit Types (c : lru.Cache (K := K) (V := V) (U := U)) (u : U).

Lemma data_append {A} (s : slice A) x :
  data (append growslice s x) = data s ++ [x].
Proof. unfold append. by destruct (decide _). Qed.

Lemma data_copy_make {A} `{!Zero A} (s : slice A) :
  data (copy (make (len s) (len s)) s) = data s.
Proof.
  unfold copy, make, len. simpl. rewrite length_replicate, Nat.min_id.
  rewrite take_ge by lia.
  rewrite drop_ge by (rewrite length_replicate; lia).
  apply app_nil_r.
Qed.

Lemma data_copy_make_eq {A} `{!Zero A} (s : slice A) n :
  n = len s → data (copy (make n n) s) = data s.
Proof. intros ->. apply data_copy_make. Qed.

Lemma callEvictCB_loop_delivers (cb : K → V → U → U) ks vs u :
  length ks = length vs →
  lru.callEvictCB_loop cb ks vs u
  = Returns (foldl (λ u kv, cb kv.1 kv.2 u) u (zip ks vs)).
Proof.
  revert vs u. induction ks as [|k ks IH]; intros [|v vs] u Hlen;
    simpl in *; try done.
  apply IH. lia.
Qed.

Lemma pending_onEvicted (cb : K → V → U → U) k v (b : slice K * slice V) u :
  length (data b.1) = length (data b.2) →
  pending cb (lru.onEvicted growslice k v b) u = cb k v (pending cb b u).
Proof.
  intros Hlen. unfold pending, lru.onEvicted. simpl.
  rewrite !data_append.
  rewrite (zip_with_app pair (data b.1) [k] (data b.2) [v] Hlen).
  by rewrite foldl_app.
Qed.

Lemma hooks_awaiting (cb : option (K → V → U → U)) b0 u :
  hooks_related (awaiting cb b0 u) (hook_of growslice cb) cb.
Proof.
  destruct cb as [f|]; simpl; [|done].
  intros k v b ud [Hlen ->]. split.
  - unfold lru.onEvicted. simpl. rewrite !data_append, !length_app.
    simpl. lia.
  - symmetry. by apply pending_onEvicted.
Qed.

(** The two drain forms hand over the same pairs and leave the buffers
    empty; they differ in the capacity they leave. *)
Lemma collectEvicted_forms c :
  length (data (lru.evictedKeys c)) = length (data (lru.evictedVals c)) →
  ∀ purge,
    data (lru.collectEvicted purge c).1.1 = data (lru.evictedKeys c)
    ∧ data (lru.collectEvicted purge c).1.2 = data (lru.evictedVals c)
    ∧ lru.lru (lru.collectEvicted purge c).2 = lru.lru c
    ∧ lru.onEvictedCB (lru.collectEvicted purge c).2 = lru.onEvictedCB c
    ∧ drained (lru.collectEvicted purge c).2.
Proof.
  intros Hlen purge. unfold lru.collectEvicted, drained.
  destruct (decide (len (lru.evictedKeys c) = 0%nat)) as [Hz|Hnz].
  - unfold len in Hz. apply length_zero_iff_nil in Hz as Hk.
    rewrite Hz in Hlen. symmetry in Hlen.
    apply length_zero_iff_nil in Hlen as Hv.
    simpl. by rewrite Hk, Hv.
  - destruct purge; simpl; split_and!; try done.
    + apply data_copy_make.
    + by apply data_copy_make_eq.
Qed.

Lemma drained_pending (cb : K → V → U → U) (b : slice K * slice V) u :
  data b.1 = [] → pending cb b u = u.
Proof. intros Hk. unfold pending. by rewrite Hk. Qed.

(** The tail of a mutating method delivers what is buffered, in order,
    and leaves the buffers empty. *)
Lemma flush_delivers purge cond c b0 u ud :
  awaiting (lru.onEvictedCB c) b0 u (lru.bufs c) ud →
  data b0.1 = [] → data b0.2 = [] →
  (cond = false → data (lru.evictedKeys c) = []) →
  ∃ c',
    lru.flush purge cond c u = Returns (c', ud)
    ∧ lru.lru c' = lru.lru c
    ∧ lru.onEvictedCB c' = lru.onEvictedCB c
    ∧ drained c'.
Proof.
  intros Ha Hk0 Hv0 Hquiet. unfold lru.flush, awaiting in *.
  destruct (lru.onEvictedCB c) as [f|] eqn:Hcb; simpl in *.
  - destruct Ha as [Hlen ->]. destruct cond.
    + destruct (collectEvicted_forms c Hlen purge) as (Hk & Hv & Hl & Hc & Hd).
      destruct (lru.collectEvicted purge c) as [[ks vs] c'] eqn:Hce.
      simpl in *. unfold lru.callEvictCB. rewrite Hcb.
      rewrite callEvictCB_loop_delivers by (by rewrite Hk, Hv).
      simpl. exists c'. unfold pending. simpl. rewrite Hk, Hv.
      split_and!; try done. by rewrite Hc.
    + specialize (Hquiet eq_refl). exists c.
      rewrite drained_pending by done. split_and!; try done.
      split; [done|]. rewrite Hquiet in Hlen. simpl in Hlen.
      symmetry in Hlen. by apply length_zero_iff_nil in Hlen.
  - destruct Ha as [Hb ->]. exists c. split_and!; try done.
    unfold drained. unfold lru.bufs in Hb. rewrite <-Hb in Hk0, Hv0. done.
Qed.

(** The two drain forms deliver the same pairs in the same order and
    leave states of equal contents. *)
Lemma flush_forms cond c u :
  length (data (lru.evictedKeys c)) = length (data (lru.evictedVals c)) →
  outcome_rel (λ r1 r2, same_contents r1.1 r2.1 ∧ r1.2 = r2.2)
    (lru.flush true cond c u) (lru.flush false cond c u).
Proof.
  intros Hlen. unfold lru.flush.
  destruct (bool_decide (is_Some (lru.onEvictedCB c)) && cond) eqn:Hgo.
  - destruct (collectEvicted_forms c Hlen true) as (Hk1 & Hv1 & Hl1 & Hc1 & Hd1).
    destruct (collectEvicted_forms c Hlen false) as (Hk2 & Hv2 & Hl2 & Hc2 & Hd2).
    destruct (lru.collectEvicted true c) as [[ks1 vs1] c1].
    destruct (lru.collectEvicted false c) as [[ks2 vs2] c2].
    simpl in *. unfold lru.callEvictCB.
    apply andb_true_iff in Hgo as [[f Hf]%bool_decide_eq_true _].
    rewrite Hf, Hk1, Hv1, Hk2, Hv2.
    rewrite callEvictCB_loop_delivers by done. simpl. constructor.
    split; [|done]. simpl. unfold same_contents.
    destruct Hd1 as [Hd1k Hd1v], Hd2 as [Hd2k Hd2v].
    rewrite Hd1k, Hd1v, Hd2k, Hd2v, Hl1, Hl2, Hc1, Hc2. by split_and!.
  - constructor. by split_and!.
Qed.

End buffer_facts.

(** * The wrapper step by step *)

Section wrapper_facts.
Context {K V : Type} `{Countable K} `{!Zero K, !Zero V} {U : Type}.
Context (growslice : nat → nat).
Implicit Types (c : lru.Cache (K := K) (V := V) (U := U)) (u : U)
               (d : LRU (K := K) (V := V) (W := U)).

Lemma awaiting_start c u :
  drained c → awaiting (lru.onEvictedCB c) (lru.bufs c) u (lru.bufs c) u.
Proof.
  intros [Hk Hv]. unfold awaiting. destruct (lru.onEvictedCB c); [|done].
  simpl. rewrite Hk, Hv. split; [done|].
  symmetry. by apply drained_pending.
Qed.

(** After the engine call: the tail delivers what the call buffered. *)
Lemma tail_mirrors purge cond c u l b d ud :
  drained c →
  same_engine (hook_of growslice (lru.onEvictedCB c)) (lru.onEvictedCB c) l d →
  awaiting (lru.onEvictedCB c) (lru.bufs c) u b ud →
  (cond = false → data b.1 = []) →
  ∃ c',
    lru.flush purge cond (lru.with_engine (l, b) c) u = Returns (c', ud)
    ∧ mirrors growslice c' d.
Proof.
  intros [Hk Hv] He Ha Hq. destruct b as [ks vs].
  destruct (flush_delivers purge cond (lru.with_engine (l, (ks, vs)) c)
              (lru.bufs c) u ud) as (c' & Hf & Hl & Hc & Hd);
    [exact Ha|exact Hk|exact Hv|exact Hq|].
  exists c'. split; [done|]. split; [done|]. by rewrite Hc, Hl.
Qed.

Lemma Add_mirrors k v c d u :
  mirrors growslice c d →
  outcome_rel (step_mirrors growslice) (lru.Add k v c u) (Add k v d u).
Proof.
  intros [Hd He].
  pose proof (Add_related _ _ _ (hooks_awaiting growslice _ (lru.bufs c) u)
                k v _ _ _ _ He (awaiting_start c u Hd)) as Hrel.
  unfold lru.Add.
  destruct (outcome_rel_cases _ _ _ Hrel)
    as [([[ev l] b] & [[ev' d'] ud] & E1 & E2 & Hev & He' & Hw)|[[E1 E2]|[E1 E2]]];
    rewrite E1, E2; simpl in *; try constructor.
  subst ev'.
  destruct (tail_mirrors false ev c u l b d' ud) as (c' & Hf & Hm); try done.
  { intros ->. apply Add_quiet in E1 as ->. apply Hd. }
  rewrite Hf. simpl. constructor. by split_and!.
Qed.

Ltac destruct_engine_Add :=
  match goal with
  | |- context [Add ?k ?v ?l ?b] =>
      destruct (Add k v l b) as [[[? ?] ?]| |]; simpl; try done
  end.

(** The compound methods are a lookup followed, on a miss, by [Add]. *)
Lemma GetOrAdd_unfold k v c u :
  lru.GetOrAdd k v c u
  = let '(p, ok, c1) := lru.Get k c in
    if ok then Returns (p, ok, false, c1, u)
    else '(ev, c2, u2) ← lru.Add k v c1 u; Returns (p, ok, ev, c2, u2).
Proof.
  unfold lru.GetOrAdd, lru.Get, lru.Add.
  destruct (Get k (lru.lru c)) as [[p ok] l]. destruct ok; [done|]. simpl.
  destruct_engine_Add.
  match goal with
  | |- context [lru.flush ?p ?e ?x ?y] =>
      by destruct (lru.flush p e x y) as [[c' u']| |]
  end.
Qed.

Lemma ContainsOrAdd_unfold k v c u :
  lru.ContainsOrAdd k v c u
  = if lru.Contains k c then Returns (true, false, c, u)
    else '(ev, c2, u2) ← lru.Add k v c u; Returns (false, ev, c2, u2).
Proof.
  unfold lru.ContainsOrAdd, lru.Contains, lru.Add.
  destruct (Contains k (lru.lru c)); [done|].
  destruct_engine_Add.
  match goal with
  | |- context [lru.flush ?p ?e ?x ?y] =>
      by destruct (lru.flush p e x y) as [[c' u']| |]
  end.
Qed.

Lemma PeekOrAdd_unfold k v c u :
  lru.PeekOrAdd k v c u
  = let '(p, ok) := lru.Peek k c in
    if ok then Returns (p, true, false, c, u)
    else '(ev, c2, u2) ← lru.Add k v c u; Returns (p, ok, ev, c2, u2).
Proof.
  unfold lru.PeekOrAdd, lru.Peek, lru.Add.
  destruct (Peek k (lru.lru c)) as [p ok]. destruct ok; [done|].
  destruct_engine_Add.
  match goal with
  | |- context [lru.flush ?p ?e ?x ?y] =>
      by destruct (lru.flush p e x y) as [[c' u']| |]
  end.
Qed.

Lemma Resize_mirrors n c d u :
  mirrors growslice c d →
  outcome_rel (step_mirrors growslice) (lru.Resize n c u) (Resize n d u).
Proof.
  intros [Hd He].
  pose proof (Resize_related _ _ _ (hooks_awaiting growslice _ (lru.bufs c) u)
                n _ _ _ _ He (awaiting_start c u Hd)) as Hrel.
  unfold lru.Resize.
  destruct (outcome_rel_cases _ _ _ Hrel)
    as [([[ev l] b] & [[ev' d'] ud] & E1 & E2 & Hev & He' & Hw)|[[E1 E2]|[E1 E2]]];
    rewrite E1, E2; simpl in *; try constructor.
  subst ev'.
  destruct (tail_mirrors true (bool_decide (ev > 0)) c u l b d' ud)
    as (c' & Hf & Hm); try done.
  { intros Hn%bool_decide_eq_false.
    apply checkEvict_quiet in E1 as ->; [apply Hd|done]. }
  rewrite Hf. simpl. constructor. by split_and!.
Qed.

Lemma ResetWeightLimit_mirrors t c d u :
  mirrors growslice c d →
  outcome_rel (step_mirrors growslice)
    (lru.ResetWeightLimit t c u) (ResetWeightLimit t d u).
Proof.
  intros [Hd He].
  pose proof (ResetWeightLimit_related _ _ _
                (hooks_awaiting growslice _ (lru.bufs c) u)
                t _ _ _ _ He (awaiting_start c u Hd)) as Hrel.
  unfold lru.ResetWeightLimit.
  destruct (outcome_rel_cases _ _ _ Hrel)
    as [([[ev l] b] & [[ev' d'] ud] & E1 & E2 & Hev & He' & Hw)|[[E1 E2]|[E1 E2]]];
    rewrite E1, E2; simpl in *; try constructor.
  subst ev'.
  destruct (tail_mirrors true (bool_decide (ev > 0)) c u l b d' ud)
    as (c' & Hf & Hm); try done.
  { intros Hn%bool_decide_eq_false.
    apply checkEvict_quiet in E1 as ->; [apply Hd|done]. }
  rewrite Hf. simpl. constructor. by split_and!.
Qed.

Lemma Remove_mirrors k c d u :
  mirrors growslice c d →
  outcome_rel (step_mirrors growslice)
    (lru.Remove k c u) (Returns (Remove k d u)).
Proof.
  intros [Hd He].
  pose proof (Remove_related _ _ _ (hooks_awaiting growslice _ (lru.bufs c) u)
                k _ _ _ _ He (awaiting_start c u Hd)) as (Hev & He' & Hw).
  unfold lru.Remove.
  destruct (Remove k (lru.lru c) (lru.bufs c)) as [[ev l] b] eqn:E1.
  destruct (Remove k d u) as [[ev' d'] ud] eqn:E2. simpl in *. subst ev'.
  destruct (tail_mirrors false ev c u l b d' ud) as (c' & Hf & Hm); try done.
  { intros ->. apply Remove_quiet in E1 as ->. apply Hd. }
  rewrite Hf. simpl. constructor. by split_and!.
Qed.

Lemma RemoveOldest_mirrors c d u :
  mirrors growslice c d →
  outcome_rel (step_mirrors growslice)
    (lru.RemoveOldest c u) (Returns (RemoveOldest d u)).
Proof.
  intros [Hd He].
  pose proof (RemoveOldest_related _ _ _
                (hooks_awaiting growslice _ (lru.bufs c) u)
                _ _ _ _ He (awaiting_start c u Hd)) as (Hev & He' & Hw).
  unfold lru.RemoveOldest.
  destruct (RemoveOldest (lru.lru c) (lru.bufs c)) as [[[[k v] ok] l] b] eqn:E1.
  destruct (RemoveOldest d u) as [[[[k' v'] ok'] d'] ud] eqn:E2.
  simpl in *. injection Hev as <- <- <-.
  destruct (tail_mirrors true ok c u l b d' ud) as (c' & Hf & Hm); try done.
  { intros ->. apply RemoveOldest_quiet in E1 as ->. apply Hd. }
  rewrite Hf. simpl. constructor. by split_and!.
Qed.

Lemma Purge_mirrors seed c d u :
  mirrors growslice c d →
  outcome_rel (λ r1 r2, mirrors growslice r1.1 r2.1 ∧ r1.2 = r2.2)
    (lru.Purge seed c u) (Returns (Purge seed d u)).
Proof.
  intros [Hd He].
  pose proof (Purge_related _ _ _ (hooks_awaiting growslice _ (lru.bufs c) u)
                seed _ _ _ _ He (awaiting_start c u Hd)) as (He' & Hw).
  unfold lru.Purge.
  destruct (Purge seed (lru.lru c) (lru.bufs c)) as [l [ks vs]] eqn:E1.
  destruct (Purge seed d u) as [d' ud] eqn:E2. simpl in *.
  destruct (tail_mirrors true (bool_decide (0 < len ks)%nat) c u l (ks, vs) d' ud)
    as (c' & Hf & Hm); try done.
  { intros Hn%bool_decide_eq_false. simpl. unfold len in Hn.
    apply length_zero_iff_nil. lia. }
  unfold lru.with_engine in *. simpl in *. rewrite Hf. constructor. by split.
Qed.

Lemma Get_mirrors k c d :
  mirrors growslice c d →
  (lru.Get k c).1 = (Get k d).1 ∧ mirrors growslice (lru.Get k c).2 (Get k d).2.
Proof.
  intros [Hd He]. unfold lru.Get.
  destruct (Get_related (hook_of growslice (lru.onEvictedCB c))
              (lru.onEvictedCB c) k _ _ He) as [Hr He'].
  destruct (Get k (lru.lru c)) as [[v ok] l], (Get k d) as [[v' ok'] d'].
  simpl in *. split; [done|]. split; [|done]. by destruct Hd.
Qed.

(** Every call of the wrapper returns what the same call returns on the
    direct engine, and has told the user the same. *)
Lemma cache_step_mirrors o c d u :
  mirrors growslice c d →
  outcome_rel (step_mirrors growslice) (cache_step o c u) (direct_step o d u).
Proof.
  intros Hm. pose proof Hm as [Hd He].
  destruct (readers_related _ _ _ _ He) as (Hco & Hpe & Hgo & Hke & Hle & Hwt).
  destruct o as [seed|k v|k|k|k|k v|k v|k v|k|n|t| | | | |]; simpl.
  - pose proof (Purge_mirrors seed c d u Hm) as Hrel.
    destruct (outcome_rel_cases _ _ _ Hrel)
      as [([c' u'] & [d' ud] & E1 & E2 & Hm' & Hu)|[[E1 E2]|[E1 E2]]];
      try done.
    rewrite E1. injection E2 as ->. simpl in *. subst.
    constructor. by split_and!.
  - eapply outcome_rel_bind; [by apply Add_mirrors|].
    intros [[b1 c1] u1] [[b2 d2] u2] (Hb & Hm' & Hu). simpl in *. subst.
    constructor. by split_and!.
  - destruct (Get_mirrors k c d Hm) as [Hr Hm'].
    destruct (lru.Get k c) as [[v ok] c'], (Get k d) as [[v' ok'] d'].
    simpl in *. injection Hr as <- <-. constructor. by split_and!.
  - unfold lru.Contains. rewrite Hco. constructor. by split_and!.
  - unfold lru.Peek. rewrite Hpe. destruct (Peek k d). constructor. by split_and!.
  - rewrite GetOrAdd_unfold.
    destruct (Get_mirrors k c d Hm) as [Hr Hm'].
    destruct (lru.Get k c) as [[p ok] c1], (Get k d) as [[p' ok'] d'].
    simpl in Hr, Hm'. injection Hr as <- <-.
    destruct ok; [constructor; by split_and!|].
    rewrite assoc_outcome.
    eapply outcome_rel_bind; [by apply Add_mirrors|].
    intros [[b1 c2] u1] [[b2 d2] u2] (Hb & Hm'' & Hu). simpl in *. subst.
    constructor. by split_and!.
  - rewrite ContainsOrAdd_unfold. unfold lru.Contains. rewrite Hco.
    destruct (Contains k d); [constructor; by split_and!|].
    rewrite assoc_outcome.
    eapply outcome_rel_bind; [by apply Add_mirrors|].
    intros [[b1 c2] u1] [[b2 d2] u2] (Hb & Hm'' & Hu). simpl in *. subst.
    constructor. by split_and!.
  - rewrite PeekOrAdd_unfold. unfold lru.Peek. rewrite Hpe.
    destruct (Peek k d) as [p ok].
    destruct ok; [constructor; by split_and!|].
    rewrite assoc_outcome.
    eapply outcome_rel_bind; [by apply Add_mirrors|].
    intros [[b1 c2] u1] [[b2 d2] u2] (Hb & Hm'' & Hu). simpl in *. subst.
    constructor. by split_and!.
  - pose proof (Remove_mirrors k c d u Hm) as Hrel.
    destruct (outcome_rel_cases _ _ _ Hrel)
      as [([[b1 c'] u'] & [[b2 d'] ud] & E1 & E2 & Hb & Hm' & Hu)|[[E1 E2]|[E1 E2]]];
      try done.
    rewrite E1. injection E2 as ->. simpl in *. subst.
    constructor. by split_and!.
  - eapply outcome_rel_bind; [by apply Resize_mirrors|].
    intros [[b1 c1] u1] [[b2 d2] u2] (Hb & Hm' & Hu). simpl in *. subst.
    constructor. by split_and!.
  - eapply outcome_rel_bind; [by apply ResetWeightLimit_mirrors|].
    intros [[b1 c1] u1] [[b2 d2] u2] (Hb & Hm' & Hu). simpl in *. subst.
    constructor. by split_and!.
  - pose proof (RemoveOldest_mirrors c d u Hm) as Hrel.
    destruct (outcome_rel_cases _ _ _ Hrel)
      as [([[b1 c'] u'] & [[b2 d'] ud] & E1 & E2 & Hb & Hm' & Hu)|[[E1 E2]|[E1 E2]]];
      try done.
    rewrite E1. injection E2 as ->. simpl in *. subst.
    destruct b2 as [[k v] ok]. constructor. by split_and!.
  - unfold lru.GetOldest. rewrite Hgo. destruct (GetOldest d) as [[k v] ok].
    constructor. by split_and!.
  - unfold lru.Keys. rewrite Hke. constructor. by split_and!.
  - unfold lru.Len. rewrite Hle. constructor. by split_and!.
  - unfold lru.WeightTotal. rewrite Hwt. constructor. by split_and!.
Qed.

Lemma cache_run_mirrors os c d u :
  mirrors growslice c d →
  outcome_rel (step_mirrors growslice) (cache_run os c u) (direct_run os d u).
Proof.
  revert c d u. induction os as [|o os IH]; intros c d u Hm; simpl.
  - constructor. by split_and!.
  - eapply outcome_rel_bind; [by apply cache_step_mirrors|].
    intros [[r1 c1] u1] [[r2 d2] u2] (Hr & Hm' & Hu). simpl in *. subst.
    eapply outcome_rel_bind; [by apply IH|].
    intros [[rs1 c3] u3] [[rs2 d4] u4] (Hrs & Hm'' & Hu). simpl in *. subst.
    constructor. by split_and!.
Qed.

Lemma New_mirrors n limit calc (cb : option (K → V → U → U)) :
  match lru.NewWithWeightLimitAndEvict growslice n limit calc cb,
        NewLRUWithWeightLimit n limit calc cb with
  | inr c, inr d => mirrors growslice c d ∧ lru.onEvictedCB c = cb
  | inl e1, inl e2 => e1 = e2
  | _, _ => False
  end.
Proof.
  unfold lru.NewWithWeightLimitAndEvict, NewLRUWithWeightLimit.
  destruct cb as [f|]; simpl; destruct (bool_decide (n ≤ 0)); try done.
Qed.

Lemma same_engine_eq (h1 h2 : option (K → V → U → U)) c1 c2 d :
  lru.onEvictedCB c1 = lru.onEvictedCB c2 →
  same_engine (hook_of growslice (lru.onEvictedCB c1)) h1 (lru.lru c1) d →
  same_engine (hook_of growslice (lru.onEvictedCB c2)) h2 (lru.lru c2) d →
  lru.lru c1 = lru.lru c2.
Proof.
  intros Hcb H1 H2. rewrite <-Hcb in H2.
  destruct (lru.lru c1), (lru.lru c2), d.
  destruct H1 as (?&?&?&?&?&?&?&?), H2 as (?&?&?&?&?&?&?&?).
  simpl in *. congruence.
Qed.

Lemma mirrors_same_contents c1 c2 d :
  mirrors growslice c1 d → same_contents c1 c2 → mirrors growslice c2 d.
Proof.
  intros [[Hk Hv] He] (Hl & Hcb & Hdk & Hdv). split.
  - split; congruence.
  - by rewrite <-Hl, <-Hcb.
Qed.

(** X17. On runs that complete, the two drain forms are observably
    equivalent.
    - At any state whose two buffers are equally long, the
      ownership-taking drain and the copy-then-truncate drain deliver
      the same pairs to the user callback in the same order and leave
      states that differ in buffer capacity only.
    - States that differ in buffer capacity only answer every sequence
      of calls alike.
    - From construction on, every sequence of wrapper calls that
      completes returns what the same calls return on an engine that has
      the user callback installed directly, has told the user exactly
      what that engine tells it, notification by notification in the
      order of eviction, and has left nothing buffered; a call that
      panics panics on both. *)
Theorem drain_forms_equivalent :
  (∀ cond c u,
     length (data (lru.evictedKeys c)) = length (data (lru.evictedVals c)) →
     outcome_rel (λ r1 r2, same_contents r1.1 r2.1 ∧ r1.2 = r2.2)
       (lru.flush true cond c u) (lru.flush false cond c u))
  ∧ (∀ os c1 c2 d u,
       mirrors growslice c1 d → same_contents c1 c2 →
       outcome_rel step_same (cache_run os c1 u) (cache_run os c2 u))
  ∧ (∀ n limit calc cb os u,
       match lru.NewWithWeightLimitAndEvict growslice n limit calc cb,
             NewLRUWithWeightLimit n limit calc cb with
       | inr c, inr d =>
           outcome_rel (step_mirrors growslice)
             (cache_run os c u) (direct_run os d u)
       | inl e1, inl e2 => e1 = e2
       | _, _ => False
       end).
Proof.
  split_and!.
  - intros cond c u Hlen. by apply flush_forms.
  - intros os c1 c2 d u Hm1 Hs.
    pose proof (mirrors_same_contents c1 c2 d Hm1 Hs) as Hm2.
    pose proof (cache_run_mirrors os c1 d u Hm1) as H1.
    pose proof (cache_run_mirrors os c2 d u Hm2) as H2.
    destruct (outcome_rel_cases _ _ _ H1)
      as [([[r1 c1'] u1] & [[r d'] ud] & E1 & E & Hr1 & Hm1' & Hu1)|[[E1 E]|[E1 E]]];
      rewrite E in H2; rewrite E1;
      destruct (outcome_rel_cases _ _ _ H2)
        as [([[r2 c2'] u2] & [[r' d''] ud'] & E2 & E' & Hr2 & Hm2' & Hu2)|[[E2 E']|[E2 E']]];
      try done; rewrite E2; constructor.
    injection E' as <- <- <-. simpl in *. subst.
    destruct Hm1' as [[Hk1 Hv1] He1], Hm2' as [[Hk2 Hv2] He2].
    assert (lru.onEvictedCB c1' = lru.onEvictedCB c2') as Hcb.
    { destruct He1 as (_&_&_&_&_&_&_&Ho1), He2 as (_&_&_&_&_&_&_&Ho2).
      congruence. }
    split_and!; try done. unfold same_contents. simpl.
    split_and!; try congruence.
    eapply same_engine_eq; [exact Hcb|exact He1|exact He2].
  - intros n limit calc cb os u.
    pose proof (New_mirrors n limit calc cb) as Hnew.
    destruct (lru.NewWithWeightLimitAndEvict growslice n limit calc cb) as [e1|c],
             (NewLRUWithWeightLimit n limit calc cb) as [e2|d]; try done.
    apply cache_run_mirrors, Hnew.
Qed.

(** ** A hit of [GetOrAdd] *)

Lemma filter_fmap_key (h : ptr → K) (x : ptr) (l : list ptr) :
  (∀ q, q ∈ l → h q = h x → q = x) →
  filter (λ y, y ≠ h x) (h <$> l) = h <$> filter (λ q, q ≠ x) l.
Proof.
  induction l as [|q l IH]; intros Hinj; [done|].
  rewrite fmap_cons.
  assert (∀ q', q' ∈ l → h q' = h x → q' = x) as Hinj'
    by (intros q' Hq'; apply Hinj, elem_of_cons; by right).
  destruct (decide (q = x)) as [->|Hne].
  - rewrite !filter_cons_False by (intros Hn; by apply Hn). by apply IH.
  - rewrite !filter_cons_True; [|done|].
    + rewrite fmap_cons. f_equal. by apply IH.
    + intros Hh. apply Hne, Hinj; [|done]. apply elem_of_cons. by left.
Qed.

(** C6 (amended). [GetOrAdd] on a hit returns the stored value with
    found = true and evicted = false, calls no callback, and changes
    neither the contents nor the weight total nor the buffers -- but it
    does move the entry to the most recently used position, as [Get]
    does; on a miss it is [Add], reporting the zero value, found = false
    and whether [Add] evicted. *)
Theorem GetOrAdd_hit_moves_to_front k v c u :
  store_ok (lru.lru c) →
  (lru.Contains k c = true
   ∧ ∃ c',
       lru.GetOrAdd k v c u = Returns ((lru.Peek k c).1, true, false, c', u)
       ∧ (∀ k', lru.Peek k' c' = lru.Peek k' c)
       ∧ (∀ k', lru.Contains k' c' = lru.Contains k' c)
       ∧ lru.Len c' = lru.Len c
       ∧ lru.WeightTotal c' = lru.WeightTotal c
       ∧ lru.bufs c' = lru.bufs c
       ∧ lru.Keys c' = filter (λ k', k' ≠ k) (lru.Keys c) ++ [k])
  ∨ (lru.Contains k c = false
     ∧ lru.GetOrAdd k v c u
       = '(ev, c2, u2) ← lru.Add k v c u; Returns (zero, false, ev, c2, u2)).
Proof.
  intros Hok. rewrite GetOrAdd_unfold.
  unfold lru.Contains, lru.Get, lru.Peek, lru.Len, lru.WeightTotal, lru.Keys.
  unfold Contains, Get, Peek.
  destruct (items (lru.lru c) !! k) as [ent|] eqn:Hk.
  - left. split; [by apply bool_decide_eq_true|].
    eexists. split; [reflexivity|]. simpl.
    apply (store_ok_lookup _ _ _ Hok) in Hk as [Hin Hkey].
    split_and!; try done.
    + unfold Len, lruList_length. simpl. f_equal.
      destruct Hok as (Hnd & _). by apply length_moveToFront.
    + unfold Keys. simpl.
      change (deref (lruList_moveToFront ent (evictList (lru.lru c))))
        with (deref (evictList (lru.lru c))).
      rewrite reverse_cons, fmap_app, fmap_cons, fmap_nil, Hkey.
      f_equal. subst k.
      rewrite (filter_fmap_key (λ e, key (deref (evictList (lru.lru c)) e))).
      * by rewrite filter_reverse.
      * intros q Hq Hh. rewrite elem_of_reverse in Hq.
        by apply (store_ok_key_inj (lru.lru c)).
  - right. split; [by apply bool_decide_eq_false, is_Some_None|].
    destruct c. reflexivity.
Qed.

(** ** Resizing to zero *)

Lemma mirrors_direct_of c :
  drained c →
  onEvict (lru.lru c) = hook_of growslice (lru.onEvictedCB c) →
  mirrors growslice c (direct_of c).
Proof. intros Hd Hh. split; [done|]. unfold direct_of. by split_and!. Qed.

Lemma notify_direct_of c l u :
  notify (direct_of c) l u
  = deliver (lru.onEvictedCB c)
      ((λ e, (key (deref (evictList (lru.lru c)) e),
              value (deref (evictList (lru.lru c)) e))) <$> l) u.
Proof.
  unfold notify, deliver, fire, direct_of. simpl.
  destruct (lru.onEvictedCB c) as [f|].
  - revert u. induction l as [|e l IH]; intros u; [done|].
    rewrite fmap_cons. simpl. apply IH.
  - revert u. induction l as [|e l IH]; intros u; [done|]. simpl. apply IH.
Qed.


(** C8. Construction fails exactly for a size that is not positive, and
    a key that is absent or a store that is empty is reported as not
    found; but construction is not the only failure: [Resize] with a
    negative size panics on every cache, where the claim has every
    method total. *)
Theorem Resize_negative_is_a_failure :
  (∀ n limit calc (cb : option (K → V → U → U)),
     (∃ e, lru.NewWithWeightLimitAndEvict growslice n limit calc cb = inl e)
     ↔ n ≤ 0)
  ∧ (∀ k c, lru.Contains k c = false →
       lru.Peek k c = (zero, false)
       ∧ lru.Get k c = (zero, false, c)
       ∧ ∀ u, lru.Remove k c u = Returns (false, c, u))
  ∧ (∀ c u, lru.Len c = 0 →
       lru.GetOldest c = (zero, zero, false)
       ∧ lru.RemoveOldest c u = Returns (zero, zero, false, c, u))
  ∧ (∀ n c u, n < 0 → lru.Resize n c u = Panics).
Proof.
  split_and!.
  - intros n limit calc cb.
    unfold lru.NewWithWeightLimitAndEvict, NewLRUWithWeightLimit.
    destruct cb; simpl; case_bool_decide; split; try done; eauto;
      by intros [e He].
  - intros k c Hc. unfold lru.Contains, Contains in Hc.
    apply bool_decide_eq_false in Hc.
    assert (items (lru.lru c) !! k = None) as Hk
      by (by apply eq_None_not_Some).
    unfold lru.Peek, lru.Get, lru.Remove, Peek, Get, Remove. rewrite Hk.
    destruct c as [l [ks kc] [vs vc] cb]. simpl. split_and!; try done.
    intros u. unfold lru.flush. simpl. by rewrite andb_false_r.
  - intros c u Hlen. unfold lru.Len, Len, lruList_length in Hlen.
    assert (order (evictList (lru.lru c)) = []) as Ho
      by (apply length_zero_iff_nil; lia).
    unfold lru.GetOldest, lru.RemoveOldest, GetOldest, RemoveOldest, lruList_back.
    rewrite Ho. simpl. split; [done|].
    destruct c as [l [ks kc] [vs vc] cb]. unfold lru.flush. simpl.
    by rewrite andb_false_r.
  - intros n c u Hn. unfold lru.Resize.
    unfold Resize. by rewrite checkEvict_negative_size.
Qed.

End wrapper_facts.

(** * Scenarios and instances at concrete caches *)

(** A decidable invariant of a concrete state holds by evaluation. *)
Ltac decide_by_evaluation :=
  apply (bool_decide_unpack _); vm_compute; exact I.

Section scenarios.
Local Open Scope string_scope.
Local Open Scope Z_scope.

(** The example states are reached by the calls they are named after. *)
Lemma plain_ab_reached :
  ∃ c0 : example_cache,
    NewLRU 2 (Some record_eviction) = inr c0
    ∧ add_all [("a", 1); ("b", 2)] c0 [] = Returns (plain_ab, []).
Proof. eexists. split; [reflexivity|]. vm_compute. reflexivity. Qed.

Lemma wrapped_ab_reached :
  ∃ c0 rs,
    lru.New doubling 2 = inr c0
    ∧ cache_run [CallAdd "a" 1; CallAdd "b" 2] c0 [] = Returns (rs, wrapped_ab, []).
Proof. eexists _, _. split; [reflexivity|]. vm_compute. reflexivity. Qed.

Lemma recording_ab_reached :
  ∃ c0 rs,
    lru.NewWithEvict doubling 2 (Some record_eviction) = inr c0
    ∧ cache_run [CallAdd "a" 1; CallAdd "b" 2] c0 [] = Returns (rs, recording_ab, []).
Proof. eexists _, _. split; [reflexivity|]. vm_compute. reflexivity. Qed.

Lemma weighted_xy_reached :
  NewLRUWithWeightLimit 2 10 (Some (λ v, v)) (Some record_eviction)
  = inr (weighted_new 2)
  ∧ add_all [("x", 5); ("y", 4)] (weighted_new 2) [] = Returns (weighted_xy, []).
Proof. split; [reflexivity|]. vm_compute. reflexivity. Qed.

Lemma Add_sequence_within_bounds_witness :
  0 < 2 ∧
  ∃ c0 : example_cache,
    NewLRUWithWeightLimit 2 10 (Some (λ v, v)) (Some record_eviction) = inr c0
    ∧ ∀ m : nat,
        ∃ c w',
          add_all (take m [("x", 6); ("y", 6); ("y", 3)]) c0 [] = Returns (c, w')
          ∧ size c = 2 ∧ weightLimit c = weightLimit c0
          ∧ Len c ≤ size c ∧ WeightTotal c ≤ weightLimit c.
Proof. split; [lia|]. apply Add_sequence_within_bounds. lia. Defined.

Lemma checkEvict_evicts_from_back_witness :
  store_ok (with_size 1 plain_ab)
  ∧ checkEvict (with_size 1 plain_ab) [] = Returns (1, plain_b, [("a", 1)])
  ∧ ∃ victims,
      order (evictList (with_size 1 plain_ab))
      = (order (evictList plain_b) ++ reverse victims)%list
      ∧ 1 = Z.of_nat (length victims)
      ∧ [("a", 1)] = notify (with_size 1 plain_ab) victims []
      ∧ (∀ e, e ∈ victims →
           items plain_b !! key (deref (evictList (with_size 1 plain_ab)) e) = None)
      ∧ (∀ e, e ∈ order (evictList plain_b) →
           items plain_b !! key (deref (evictList (with_size 1 plain_ab)) e)
           = Some e).
Proof.
  assert (store_ok (with_size 1 plain_ab)) as Hok by decide_by_evaluation.
  assert (checkEvict (with_size 1 plain_ab) []
          = Returns (1, plain_b, [("a", 1)])) as Hr by (vm_compute; reflexivity).
  split; [exact Hok|]. split; [exact Hr|].
  exact (checkEvict_evicts_from_back _ _ _ _ _ Hok Hr).
Defined.

Lemma Resize_negative_panics_witness :
  -1 < 0 ∧ Resize (-1) plain_ab [] = Panics.
Proof. split; [lia|]. apply Resize_negative_panics. lia. Defined.

(** C1. Weight accounting is broken by [Purge]: it clears the index and
    the ordered store and leaves [weightTotal] as it was.  On a weighted
    cache holding the single entry ("x", 6), after [Purge] no entry is
    present, so the weights of the present entries sum to 0, while
    [WeightTotal] still returns 6 -- and a later [ResetWeightLimit] below
    that stale total dereferences the nil [back()]. *)
Theorem Purge_leaves_weight_total seed :
  NewLRUWithWeightLimit 2 10 (Some (λ v, v)) (Some record_eviction)
  = inr (weighted_new 2)
  ∧ Add "x" 6 (weighted_new 2) [] = Returns (false, weighted_x 2 6, [])
  ∧ WeightTotal (weighted_x 2 6) = 6
  ∧ Keys (Purge seed (weighted_x 2 6) []).1 = []
  ∧ Len (Purge seed (weighted_x 2 6) []).1 = 0
  ∧ weight_sum (weightCalculator (Purge seed (weighted_x 2 6) []).1)
               (entries (Purge seed (weighted_x 2 6) []).1) = 0
  ∧ WeightTotal (Purge seed (weighted_x 2 6) []).1 = 6
  ∧ ResetWeightLimit 5 (Purge seed (weighted_x 2 6) []).1
                       (Purge seed (weighted_x 2 6) []).2 = Panics.
Proof.
  split; [reflexivity|]. split; [vm_compute; reflexivity|].
  split; [reflexivity|].
  destruct (Purge_empties seed (weighted_x 2 6) []) as (Hk & Hl & Hs & Ht).
  split; [exact Hk|]. split; [exact Hl|]. split; [exact Hs|].
  split; [exact Ht|].
  apply ResetWeightLimit_after_Purge_panics. vm_compute. reflexivity.
Qed.

(** C9. The weighted scenario, for every positive size: limit 10 and
    the identity weight function; [Add("x", 6)] evicts nothing,
    [Add("y", 6)] reports an eviction and notifies ("x", 6), after which
    the weight total is 6 and the only key is "y". *)
Theorem weighted_scenario n (w : list (string * Z)) :
  0 < n →
  NewLRUWithWeightLimit n 10 (Some (λ v, v)) (Some record_eviction)
  = inr (weighted_new n)
  ∧ Add "x" 6 (weighted_new n) w = Returns (false, weighted_x n 6, w)
  ∧ Add "y" 6 (weighted_x n 6) w
    = Returns (true, weighted_y n, (w ++ [("x", 6)])%list)
  ∧ WeightTotal (weighted_y n) = 6
  ∧ Keys (weighted_y n) = ["y"]
  ∧ Contains "x" (weighted_y n) = false.
Proof.
  intros Hn.
  destruct n as [|[[q|q|]|[q|q|]|]|q]; try lia;
    (split_and!; vm_compute; reflexivity).
Qed.

Lemma weighted_scenario_witness :
  0 < 128
  ∧ NewLRUWithWeightLimit 128 10 (Some (λ v, v)) (Some record_eviction)
    = inr (weighted_new 128)
  ∧ Add "x" 6 (weighted_new 128) [] = Returns (false, weighted_x 128 6, [])
  ∧ Add "y" 6 (weighted_x 128 6) []
    = Returns (true, weighted_y 128, ([] ++ [("x", 6)])%list)
  ∧ WeightTotal (weighted_y 128) = 6
  ∧ Keys (weighted_y 128) = ["y"]
  ∧ Contains "x" (weighted_y 128) = false.
Proof. split; [lia|]. apply weighted_scenario. lia. Defined.

(** C3, as stated, fails: updating a present key with a value whose
    weight alone exceeds the limit evicts that very key. *)
Lemma Add_update_evicts_own_key :
  Add "x" 5 (weighted_new 2) [] = Returns (false, weighted_x 2 5, [])
  ∧ Contains "x" (weighted_x 2 5) = true
  ∧ Add "x" 20 (weighted_x 2 5) [] = Returns (true, weighted_none, [("x", 20)])
  ∧ Contains "x" weighted_none = false
  ∧ Keys weighted_none = [].
Proof. split_and!; vm_compute; reflexivity. Qed.

Lemma Add_update_keeps_key_witness :
  store_ok weighted_xy ∧ weights_ok weighted_xy ∧ 1 ≤ size weighted_xy
  ∧ Contains "x" weighted_xy = true
  ∧ weight_of (weightCalculator weighted_xy) 8 ≤ weightLimit weighted_xy
  ∧ ∃ b c' w',
      Add "x" 8 weighted_xy [] = Returns (b, c', w')
      ∧ Contains "x" c' = true
      ∧ Peek "x" c' = (8, true)
      ∧ last (Keys c') = Some "x".
Proof.
  assert (store_ok weighted_xy) as Hok by decide_by_evaluation.
  assert (weights_ok weighted_xy) as Hw by decide_by_evaluation.
  assert (1 ≤ size weighted_xy) as Hs by (vm_compute; discriminate).
  assert (Contains "x" weighted_xy = true) as Hk by (vm_compute; reflexivity).
  assert (weight_of (weightCalculator weighted_xy) 8 ≤ weightLimit weighted_xy)
    as Hle by (vm_compute; discriminate).
  split_and!; try done.
  exact (Add_update_keeps_key _ _ _ _ Hok Hw Hs Hk Hle).
Defined.

(** C6, as stated, fails: a hit of [GetOrAdd] changes the recency
    order. *)
Lemma GetOrAdd_hit_changes_order :
  lru.Keys wrapped_ab = ["a"; "b"]
  ∧ lru.GetOrAdd "a" 9 wrapped_ab [] = Returns (1, true, false, wrapped_ba, [])
  ∧ lru.Keys wrapped_ba = ["b"; "a"].
Proof. split_and!; vm_compute; reflexivity. Qed.

Lemma GetOrAdd_hit_moves_to_front_witness :
  store_ok (lru.lru wrapped_ab)
  ∧ ((lru.Contains "a" wrapped_ab = true
      ∧ ∃ c',
          lru.GetOrAdd "a" 9 wrapped_ab []
          = Returns ((lru.Peek "a" wrapped_ab).1, true, false, c', [])
          ∧ (∀ k', lru.Peek k' c' = lru.Peek k' wrapped_ab)
          ∧ (∀ k', lru.Contains k' c' = lru.Contains k' wrapped_ab)
          ∧ lru.Len c' = lru.Len wrapped_ab
          ∧ lru.WeightTotal c' = lru.WeightTotal wrapped_ab
          ∧ lru.bufs c' = lru.bufs wrapped_ab
          ∧ lru.Keys c'
            = (filter (λ k', k' ≠ "a") (lru.Keys wrapped_ab) ++ ["a"])%list)
     ∨ (lru.Contains "a" wrapped_ab = false
        ∧ lru.GetOrAdd "a" 9 wrapped_ab []
          = '(ev, c2, u2) ← lru.Add "a" 9 wrapped_ab [];
            Returns (zero, false, ev, c2, u2))).
Proof.
  assert (store_ok (lru.lru wrapped_ab)) as Hok by decide_by_evaluation.
  split; [exact Hok|].
  exact (GetOrAdd_hit_moves_to_front "a" 9 wrapped_ab [] Hok).
Defined.


(** What [Resize(0)] tells the recording callback on that cache. *)
Lemma Resize_zero_recorded :
  deliver (lru.onEvictedCB recording_ab) (oldest_first recording_ab) []
  = [("a", 1); ("b", 2)]
  ∧ lru.Len recording_ab = 2.
Proof. split; vm_compute; reflexivity. Qed.

(** A run through the wrapper: the results of the calls, what the
    recording callback was told, and what is left buffered and cached. *)
Lemma wrapper_run_recorded :
  ∃ c0,
    lru.NewWithEvict doubling 2 (Some record_eviction) = inr c0
    ∧ ('(rs, c, u) ←
         cache_run [CallAdd "a" 1; CallAdd "b" 2; CallAdd "c" 3; CallGet "b";
                    CallGetOrAdd "c" 7; CallKeys; CallResize 1;
                    CallRemoveOldest; CallAdd "d" 4; CallPurge [0%nat]; CallLen]
                   c0 [];
       Returns (rs, u, data (lru.evictedKeys c), lru.Keys c))
      = Returns
          ([Flag false; Flag false; Flag true; Lookup 2 true;
            LookupAdd 3 true false; KeyList ["b"; "c"]; Count 1;
            Oldest "c" 3 true; Flag false; NoResult; Count 0],
           [("a", 1); ("b", 2); ("c", 3); ("d", 4)], [], []).
Proof. eexists. split; [reflexivity|]. vm_compute. reflexivity. Qed.

End scenarios.

(** * Further properties of the engine *)

Section engine_more.
Context {K V : Type} `{Countable K} `{!Zero K, !Zero V} {W : Type}.
Implicit Types (c : LRU (K := K) (V := V) (W := W)) (e : ptr) (w : W).

(** ** The keys *)

Lemma Keys_elem c k :
  store_ok c → k ∈ Keys c ↔ is_Some (items c !! k).
Proof.
  intros Hok. unfold Keys. rewrite list_elem_of_fmap. split.
  - intros (e & -> & He). rewrite elem_of_reverse in He.
    exists e. by apply (store_ok_lookup c).
  - intros [e He]. apply (store_ok_lookup c _ _ Hok) in He as [He Hk].
    exists e. split; [done|]. by rewrite elem_of_reverse.
Qed.

Lemma Keys_NoDup c : store_ok c → NoDup (Keys c).
Proof.
  intros Hok. unfold Keys. apply NoDup_fmap_2_strong.
  - intros e1 e2 H1 H2 Hk. rewrite elem_of_reverse in H1, H2.
    by apply (store_ok_key_inj c).
  - rewrite reverse_Permutation. by destruct Hok.
Qed.

Lemma filter_ne_id_gen (l : list K) k :
  k ∉ l → filter (λ q, q ≠ k) l = l.
Proof.
  induction l as [|q l IH]; [done|].
  intros [Hq Hl]%not_elem_of_cons.
  rewrite filter_cons_True by done. by rewrite IH.
Qed.

Lemma contents_keys c : Keys c = (contents c).*1.
Proof. unfold Keys, contents. by rewrite <-list_fmap_compose. Qed.

Lemma contents_length c : Z.of_nat (length (contents c)) = Len c.
Proof.
  unfold contents, Len, lruList_length. by rewrite length_fmap, length_reverse.
Qed.

Lemma contents_Peek c k v :
  store_ok c → (k, v) ∈ contents c ↔ Peek k c = (v, true).
Proof.
  intros Hok. unfold contents, Peek. rewrite list_elem_of_fmap. split.
  - intros (e & [= -> ->] & He). rewrite elem_of_reverse in He.
    assert (items c !! key (deref (evictList c) e) = Some e) as ->
      by (by apply (store_ok_lookup c)).
    done.
  - destruct (items c !! k) as [e|] eqn:Hk; [|done].
    intros [= <-]. apply (store_ok_lookup c k e Hok) in Hk as [He <-].
    exists e. split; [done|]. by rewrite elem_of_reverse.
Qed.

(** X1. [Keys] lists exactly the keys that are present, each once and
    oldest first, and [Len] is their number; the pairs of the contents
    are the keys with the values [Peek] finds. *)
Theorem Keys_are_the_present_keys c :
  store_ok c →
  NoDup (Keys c)
  ∧ Z.of_nat (length (Keys c)) = Len c
  ∧ (∀ k, k ∈ Keys c ↔ Contains k c = true)
  ∧ Keys c = (contents c).*1
  ∧ (∀ k v, (k, v) ∈ contents c ↔ Peek k c = (v, true)).
Proof.
  intros Hok. split_and!.
  - by apply Keys_NoDup.
  - unfold Keys, Len, lruList_length. by rewrite length_fmap, length_reverse.
  - intros k. rewrite Keys_elem by done. unfold Contains.
    by rewrite bool_decide_eq_true.
  - apply contents_keys.
  - intros k v. by apply contents_Peek.
Qed.

(** ** Removing *)

Lemma removeElement_frame c e w :
  store_ok c → e ∈ order (evictList c) →
  let c' := (removeElement e c w).1 in
  (removeElement e c w).2
  = fire c (key (deref (evictList c) e)) (value (deref (evictList c) e)) w
  ∧ items c' !! key (deref (evictList c) e) = None
  ∧ (∀ k, k ≠ key (deref (evictList c) e) → Peek k c' = Peek k c)
  ∧ Keys c' = filter (λ k, k ≠ key (deref (evictList c) e)) (Keys c)
  ∧ Len c' = Len c - 1.
Proof.
  intros Hok Hin. simpl. split_and!.
  - done.
  - apply lookup_delete_eq.
  - intros k Hk. unfold Peek. simpl. by rewrite lookup_delete_ne.
  - unfold Keys. simpl.
    change (deref (lruList_remove e (evictList c))) with (deref (evictList c)).
    rewrite (filter_fmap_key (λ q, key (deref (evictList c) q))).
    + by rewrite filter_reverse.
    + intros q Hq Hk. rewrite elem_of_reverse in Hq.
      by apply (store_ok_key_inj c).
  - unfold Len, lruList_length. simpl.
    rewrite <-(length_moveToFront (order (evictList c)) e); [lia| |done].
    by destruct Hok.
Qed.

(** X2. [Remove] of an absent key returns false and changes nothing; of a
    present key it returns true, notifies that key with its value once,
    and removes that key and no other: the other keys keep their values
    and their order. *)
Theorem Remove_removes_that_key k c w :
  store_ok c →
  (Contains k c = false ∧ Remove k c w = (false, c, w))
  ∨ (∃ v c',
       Peek k c = (v, true)
       ∧ Remove k c w = (true, c', fire c k v w)
       ∧ Contains k c' = false
       ∧ (∀ k', k' ≠ k → Peek k' c' = Peek k' c)
       ∧ Keys c' = filter (λ k', k' ≠ k) (Keys c)
       ∧ Len c' = Len c - 1).
Proof.
  intros Hok. unfold Contains, Peek, Remove.
  destruct (items c !! k) as [ent|] eqn:Hk.
  - right. apply (store_ok_lookup c k ent Hok) in Hk as [Hin Hkey].
    destruct (removeElement_frame c ent w Hok Hin) as (Hw & Hn & Hp & Hks & Hl).
    rewrite Hkey in *.
    destruct (removeElement ent c w) as [c' w'] eqn:Hr. simpl in *.
    exists (value (deref (evictList c) ent)), c'. split_and!; try done.
    + by rewrite Hw.
    + apply bool_decide_eq_false. rewrite Hn. by apply is_Some_None.
  - left. split; [|done]. apply bool_decide_eq_false. by apply is_Some_None.
Qed.

(** X3. [RemoveOldest] on an empty cache reports not found and changes
    nothing; otherwise it removes and returns what [GetOldest] returns, the
    first of [Keys] with its value, notifies it once, and leaves the other
    keys in their order. *)
Theorem RemoveOldest_removes_first_key c w :
  store_ok c →
  (Keys c = [] ∧ GetOldest c = (zero, zero, false)
   ∧ RemoveOldest c w = (zero, zero, false, c, w))
  ∨ (∃ k v c',
       head (Keys c) = Some k
       ∧ Peek k c = (v, true)
       ∧ GetOldest c = (k, v, true)
       ∧ RemoveOldest c w = (k, v, true, c', fire c k v w)
       ∧ Keys c' = drop 1 (Keys c)
       ∧ Contains k c' = false).
Proof.
  intros Hok. unfold GetOldest, RemoveOldest.
  destruct (lruList_back (evictList c)) as [ent|] eqn:Hb.
  - right. destruct (back_snoc _ _ Hb) as [l Hl].
    assert (ent ∈ order (evictList c)) as Hin by (rewrite Hl; set_solver).
    destruct (removeElement_frame c ent w Hok Hin) as (Hw & Hn & Hp & Hks & Hlen).
    assert (items c !! key (deref (evictList c) ent) = Some ent) as Hk
      by (by apply (store_ok_lookup c)).
    assert (Keys c = key (deref (evictList c) ent)
                     :: ((λ q, key (deref (evictList c) q)) <$> reverse l)) as HK.
    { unfold Keys. by rewrite Hl, reverse_app, fmap_app. }
    pose proof (Keys_NoDup c Hok) as Hnd. rewrite HK in Hnd.
    apply NoDup_cons in Hnd as [Hnk _].
    rewrite HK in Hks. rewrite filter_cons_False in Hks by (intros Hne; by apply Hne).
    rewrite filter_ne_id_gen in Hks by done.
    destruct (removeElement ent c w) as [c' w'] eqn:Hr. simpl in *.
    eexists _, _, c'. split_and!; try done.
    + by rewrite HK.
    + unfold Peek. by rewrite Hk.
    + by rewrite Hw.
    + by rewrite HK.
    + apply bool_decide_eq_false. rewrite Hn. by apply is_Some_None.
  - left. unfold lruList_back in Hb. apply last_None in Hb.
    unfold Keys. rewrite Hb. by split_and!.
Qed.


Lemma notify_deliver c (l : list ptr) w :
  notify c l w
  = deliver (onEvict c)
      ((λ e, (key (deref (evictList c) e), value (deref (evictList c) e)))
         <$> l) w.
Proof.
  unfold notify, deliver, fire. destruct (onEvict c) as [cb|].
  - revert w. induction l as [|e l IH]; intros w; [done|]. simpl. apply IH.
  - revert w. induction l as [|e l IH]; intros w; [done|]. simpl. apply IH.
Qed.

Lemma weight_sum_None (l : list (@entry K V)) : weight_sum None l = 0.
Proof. induction l as [|x l IH]; [done|]. simpl. by rewrite IH. Qed.

Lemma unweighted_over_limit c :
  weights_ok c → weightCalculator c = None →
  over_limit c = bool_decide (Len c > size c).
Proof.
  intros (Hl & _ & Ht) Hc. unfold over_limit, Len.
  rewrite Hc, weight_sum_None in Ht.
  rewrite (bool_decide_eq_false_2 (weightTotal c > weightLimit c)).
  - by rewrite orb_false_r.
  - rewrite Ht. unfold wrap64. rewrite Z.mod_0_l by lia. lia.
Qed.

(** ** Contents

    What [checkEvict] does, read on the contents: it removes entries from
    the old end, notifying each, and stops at the first state within the
    bounds. *)
Lemma checkEvict_loop_contents fuel n c w n' c' w' :
  store_ok c →
  checkEvict_loop fuel n c w = Returns (n', c', w') →
  ∃ m : nat,
    n' = n + Z.of_nat m
    ∧ (m ≤ length (contents c))%nat
    ∧ contents c' = drop m (contents c)
    ∧ w' = deliver (onEvict c) (take m (contents c)) w
    ∧ size c' = size c ∧ weightLimit c' = weightLimit c
    ∧ weightCalculator c' = weightCalculator c ∧ onEvict c' = onEvict c
    ∧ store_ok c' ∧ over_limit c' = false
    ∧ (weights_ok c → weights_ok c').
Proof.
  intros Hok Hr.
  apply checkEvict_loop_trace in Hr
    as (vs & Hord & Hn & Hw & Hc & Hs & Hl & Hcalc & Hev & Hok' & Hov & Hwk);
    [|done].
  exists (length vs).
  set (f := λ e, (key (deref (evictList c) e), value (deref (evictList c) e))).
  assert (contents c = (f <$> vs) ++ contents c') as HC.
  { unfold contents. rewrite Hord, reverse_app, reverse_involutive, fmap_app.
    f_equal. unfold deref. by rewrite Hc. }
  assert (length (f <$> vs) = length vs) as Hlen by apply length_fmap.
  split_and!; try done.
  - rewrite HC, length_app. lia.
  - rewrite HC. rewrite <-Hlen. by rewrite drop_app_length.
  - rewrite HC. rewrite <-Hlen. rewrite take_app_length.
    rewrite Hw. apply notify_deliver.
Qed.

(** Without a weight function the length alone decides: the number of
    evictions is the excess of the length over the size. *)
Lemma checkEvict_loop_count fuel n c w n' c' w' :
  store_ok c → weights_ok c → weightCalculator c = None →
  checkEvict_loop fuel n c w = Returns (n', c', w') →
  n' - n = Z.max 0 (Len c - size c).
Proof.
  revert n c w. induction fuel as [|fuel IH]; intros n c w Hok Hwk Hcalc Hr.
  - simpl in Hr. destruct (over_limit c) eqn:Ho; [done|].
    injection Hr as <- <- <-. apply within_bounds in Ho as [Hle _]. lia.
  - destruct (over_limit c) eqn:Ho.
    + destruct (lruList_back (evictList c)) as [e|] eqn:Hb;
        [|by rewrite checkEvict_loop_nil in Hr].
      rewrite (checkEvict_loop_step _ _ _ _ e) in Hr by done.
      destruct (back_snoc _ _ Hb) as [l Hl].
      assert (e ∈ order (evictList c)) as Hin by (rewrite Hl; set_solver).
      apply IH in Hr.
      * rewrite unweighted_over_limit in Ho by done.
        apply bool_decide_eq_true in Ho.
        destruct (removeElement_frame c e w Hok Hin) as (_ & _ & _ & _ & Hlen).
        rewrite Hlen in Hr.
        change (size (removeElement e c w).1) with (size c) in Hr. lia.
      * by apply removeElement_store_ok.
      * by apply removeElement_weights_ok.
      * done.
    + rewrite checkEvict_loop_stop in Hr by done.
      injection Hr as <- <- <-. apply within_bounds in Ho as [Hle _]. lia.
Qed.

Lemma checkEvict_contents c w :
  store_ok c → weights_ok c → 0 ≤ size c →
  ∃ (m : nat) c',
    checkEvict c w
    = Returns (Z.of_nat m, c', deliver (onEvict c) (take m (contents c)) w)
    ∧ (m ≤ length (contents c))%nat
    ∧ contents c' = drop m (contents c)
    ∧ size c' = size c ∧ weightLimit c' = weightLimit c
    ∧ weightCalculator c' = weightCalculator c ∧ onEvict c' = onEvict c
    ∧ store_ok c' ∧ weights_ok c'
    ∧ Len c' ≤ size c' ∧ WeightTotal c' ≤ weightLimit c'
    ∧ (weightCalculator c = None → Z.of_nat m = Z.max 0 (Len c - size c))
    ∧ (over_limit c = false → m = 0%nat).
Proof.
  intros Hok Hwk Hs. unfold checkEvict.
  destruct (checkEvict_loop_returns (S (length (order (evictList c)))) 0 c w)
    as [[[n c'] w'] Hr]; [done|done|done|lia|].
  pose proof Hr as Hr2.
  apply checkEvict_loop_contents in Hr
    as (m & -> & Hm & HC & -> & Hs' & Hl' & Hc' & He' & Hok' & Hov & Hwk');
    [|done].
  exists m, c'. rewrite Hr2. simpl.
  destruct (within_bounds c' Hov) as [Hlen Hwt].
  split_and!; try done.
  - by apply Hwk'.
  - intros Hcalc. apply (checkEvict_loop_count _ _ _ _ _ _ _ Hok Hwk Hcalc) in Hr2.
    lia.
  - intros Ho. rewrite checkEvict_loop_stop in Hr2 by done.
    injection Hr2 as Hz _ _. lia.
Qed.


(** ** Resizing and resetting the weight limit *)

(** X4. [Resize] to a size that is not negative returns; it evicts the
    oldest entries, notifying them oldest first, and keeps the others in
    their order; the cache then fits the new size.  Without a weight
    function the number evicted is exactly the excess of the length over
    the new size. *)
Theorem Resize_evicts_oldest n c w :
  store_ok c → weights_ok c → 0 ≤ n →
  ∃ (m : nat) c',
    Resize n c w
    = Returns (Z.of_nat m, c', deliver (onEvict c) (take m (contents c)) w)
    ∧ contents c' = drop m (contents c)
    ∧ size c' = n ∧ Len c' ≤ n
    ∧ (weightCalculator c = None → Z.of_nat m = Z.max 0 (Len c - n)).
Proof.
  intros Hok Hwk Hn. unfold Resize.
  destruct (checkEvict_contents (with_size n c) w)
    as (m & c' & Hr & _ & HC & Hs & _ & _ & _ & _ & _ & Hlen & _ & Hcount & _);
    [done..|].
  exists m, c'. rewrite Hs in Hlen. by split_and!.
Qed.

(** X5. [ResetWeightLimit] on a cache whose size is not negative returns;
    it evicts the oldest entries, notifying them oldest first, and keeps
    the others in their order; afterwards the weight total is within the
    new limit.  Nothing is evicted when the cache was within its size and
    the new limit already. *)
Theorem ResetWeightLimit_evicts_oldest t c w :
  store_ok c → weights_ok c → 0 ≤ size c →
  ∃ (m : nat) c',
    ResetWeightLimit t c w
    = Returns (Z.of_nat m, c', deliver (onEvict c) (take m (contents c)) w)
    ∧ contents c' = drop m (contents c)
    ∧ weightLimit c' = wrap64 t
    ∧ WeightTotal c' ≤ wrap64 t
    ∧ Len c' ≤ size c
    ∧ (Len c ≤ size c → WeightTotal c ≤ wrap64 t → m = 0%nat).
Proof.
  intros Hok Hwk Hs. unfold ResetWeightLimit.
  assert (weights_ok (with_weightLimit (wrap64 t) c)) as Hwk1.
  { destruct Hwk as (_ & Hwe & Ht). split; [apply wrap64_range|done]. }
  destruct (checkEvict_contents (with_weightLimit (wrap64 t) c) w)
    as (m & c' & Hr & _ & HC & Hs' & Hl' & _ & _ & _ & _ & Hlen & Hwt & _ & Hq);
    [done..|].
  exists m, c'. rewrite Hs' in Hlen. rewrite Hl' in Hwt.
  split_and!; try done.
  intros Hle Hwle. apply Hq. unfold over_limit. simpl.
  unfold Len, WeightTotal in *.
  rewrite !bool_decide_eq_false_2 by lia. done.
Qed.

(** ** Adding a key that is not present *)

Lemma inserted_contents c k v :
  store_ok c → contents (inserted k v c) = contents c ++ [(k, v)].
Proof.
  intros Hok.
  destruct (inserted_frame c k v) as (Hord & _ & _ & _ & _ & _ & Hd & _).
  unfold contents. rewrite Hord, reverse_cons, fmap_app. simpl.
  rewrite Hd. simpl. f_equal.
  apply fmap_ext_elem_of. intros q Hq. rewrite elem_of_reverse in Hq.
  by rewrite inserted_deref_old.
Qed.

Lemma Contains_false c k : Contains k c = false → items c !! k = None.
Proof.
  unfold Contains. intros Hk%bool_decide_eq_false.
  destruct (items c !! k); [|done]. exfalso. apply Hk. eauto.
Qed.

(** X6. In a cache without weight function that is within its size,
    [Add] of a key that is not present appends the pair as the most
    recent one; it evicts, and notifies, the oldest pair exactly when the
    cache was full. *)
Theorem Add_new_key_unweighted k v c w :
  store_ok c → weights_ok c → weightCalculator c = None →
  1 ≤ size c → Len c ≤ size c →
  Contains k c = false →
  ∃ c',
    Add k v c w
    = Returns (bool_decide (Len c = size c), c',
               if bool_decide (Len c = size c)
               then deliver (onEvict c) (take 1 (contents c)) w else w)
    ∧ contents c'
      = (if bool_decide (Len c = size c)
         then drop 1 (contents c) else contents c) ++ [(k, v)].
Proof.
  intros Hok Hwk Hcalc Hs Hlen Hk%Contains_false.
  rewrite Add_miss by done.
  destruct (inserted_frame c k v) as (Hord & _ & Hs1 & _ & Hc1 & He1 & _).
  destruct (checkEvict_contents (inserted k v c) w)
    as (m & c' & Hr & _ & HC & _ & _ & _ & _ & _ & _ & _ & _ & Hcount & _).
  { by apply inserted_store_ok. }
  { by apply inserted_weights_ok. }
  { lia. }
  rewrite Hr. simpl. exists c'.
  rewrite Hc1, Hs1 in Hcount. specialize (Hcount Hcalc).
  assert (Len (inserted k v c) = Len c + 1) as HL.
  { unfold Len, lruList_length. rewrite Hord. simpl length. lia. }
  rewrite HL in Hcount. rewrite He1, HC, inserted_contents by done.
  pose proof (contents_length c) as Hcl.
  destruct (decide (Len c = size c)) as [Hfull|Hfree].
  - assert (m = 1%nat) as -> by lia.
    rewrite (bool_decide_eq_true_2 (Len c = size c)) by done.
    rewrite bool_decide_eq_true_2 by lia.
    destruct (contents c) as [|kv l]; [simpl length in Hcl; lia|]. done.
  - assert (m = 0%nat) as -> by lia.
    rewrite (bool_decide_eq_false_2 (Len c = size c)) by done.
    rewrite bool_decide_eq_false_2 by lia.
    split; [|done]. unfold deliver. by destruct (onEvict c).
Qed.




(** ** Touching a present key *)

Lemma filter_fmap_pair (f : ptr → K * V) (x : ptr) (l : list ptr) :
  (∀ q, q ∈ l → (f q).1 = (f x).1 → q = x) →
  filter (λ kv, kv.1 ≠ (f x).1) (f <$> l) = f <$> filter (λ q, q ≠ x) l.
Proof.
  induction l as [|q l IH]; intros Hinj; [done|].
  rewrite fmap_cons.
  assert (∀ q', q' ∈ l → (f q').1 = (f x).1 → q' = x) as Hinj'
    by (intros q' Hq'; apply Hinj; set_solver).
  destruct (decide (q = x)) as [->|Hne].
  - rewrite !filter_cons_False by (intros Hn; by apply Hn). by apply IH.
  - rewrite !filter_cons_True.
    + rewrite fmap_cons. f_equal. by apply IH.
    + done.
    + intros Heq. apply Hne, Hinj; [set_solver|done].
Qed.

(** The contents after the entry at [ent] moved to the front, read
    through a store that agrees with the old one except perhaps at
    [ent]. *)
Lemma moved_contents c c' ent k v :
  store_ok c → ent ∈ order (evictList c) →
  key (deref (evictList c) ent) = k →
  order (evictList c') = ent :: filter (λ q, q ≠ ent) (order (evictList c)) →
  (∀ q, q ≠ ent → deref (evictList c') q = deref (evictList c) q) →
  key (deref (evictList c') ent) = k →
  value (deref (evictList c') ent) = v →
  contents c' = filter (λ kv, kv.1 ≠ k) (contents c) ++ [(k, v)].
Proof.
  intros Hok Hin <- Hord Hne Hk' Hv'. unfold contents.
  rewrite Hord, reverse_cons, fmap_app. simpl. rewrite Hk', Hv'. f_equal.
  rewrite <-filter_reverse.
  set (f := λ e, (key (deref (evictList c) e), value (deref (evictList c) e))).
  transitivity (f <$> filter (λ q, q ≠ ent) (reverse (order (evictList c)))).
  - apply fmap_ext_elem_of. intros q [Hq _]%list_elem_of_filter.
    unfold f. by rewrite Hne.
  - rewrite <-(filter_fmap_pair f ent); [done|].
    intros q Hq Heq. rewrite elem_of_reverse in Hq.
    by apply (store_ok_key_inj c).
Qed.

Lemma Get_store_ok k c : store_ok c → store_ok (Get k c).2.
Proof.
  intros Hok. unfold Get.
  destruct (items c !! k) as [ent|] eqn:Hk; [|done]. simpl.
  apply (store_ok_lookup c k ent Hok) in Hk as [Hin Hkey].
  pose proof Hok as (Hnd & Hf & Hm).
  rewrite Forall_forall in Hf.
  unfold store_ok. simpl. split_and!.
  - apply NoDup_cons. split; [|by apply NoDup_filter].
    rewrite list_elem_of_filter. intros [Hne _]. by apply Hne.
  - apply Forall_forall. intros q Hq. apply Hf.
    apply elem_of_cons in Hq as [->|Hq]; [done|].
    by apply list_elem_of_filter in Hq as [_ ?].
  - intros k' q Hq. destruct (Hm _ _ Hq) as [Hqin Hqk]. split; [|done].
    destruct (decide (q = ent)) as [->|Hne]; [apply elem_of_cons; by left|].
    apply elem_of_cons. right. by apply list_elem_of_filter.
Qed.

(** X9. [Get] of an absent key returns the zero value and false and
    changes nothing; of a present key it returns the value and true and
    makes the pair the most recent one, leaving the other pairs in their
    order and the length, the size and the weights as they were. *)
Theorem Get_makes_most_recent k c :
  store_ok c →
  (Contains k c = false ∧ Get k c = (zero, false, c))
  ∨ (∃ v c',
       Peek k c = (v, true)
       ∧ Get k c = (v, true, c')
       ∧ contents c' = filter (λ kv, kv.1 ≠ k) (contents c) ++ [(k, v)]
       ∧ Len c' = Len c ∧ size c' = size c
       ∧ WeightTotal c' = WeightTotal c ∧ weightLimit c' = weightLimit c).
Proof.
  intros Hok. unfold Contains, Peek, Get.
  destruct (items c !! k) as [ent|] eqn:Hk.
  - right. apply (store_ok_lookup c k ent Hok) in Hk as [Hin Hkey].
    eexists _, _. split; [done|]. split; [done|]. split_and!; try done.
    + by apply (moved_contents c _ ent).
    + unfold Len, lruList_length. simpl.
      rewrite length_moveToFront; [done| |done]. by destruct Hok.
  - left. split; [|done]. apply bool_decide_eq_false. by apply is_Some_None.
Qed.

(** X10. In a cache without weight function that is within its size,
    [Add] of a present key evicts and notifies nothing: it replaces the
    value and makes the pair the most recent one, leaving the other pairs
    in their order. *)
Theorem Add_present_key_unweighted k v c w :
  store_ok c → weights_ok c → weightCalculator c = None →
  Len c ≤ size c →
  Contains k c = true →
  ∃ c',
    Add k v c w = Returns (false, c', w)
    ∧ contents c' = filter (λ kv, kv.1 ≠ k) (contents c) ++ [(k, v)]
    ∧ Len c' = Len c.
Proof.
  intros Hok Hwk Hcalc Hlen Hk.
  apply bool_decide_eq_true in Hk as [ent Hk].
  rewrite (Add_hit _ _ _ _ ent) by done.
  pose proof (updated_store_ok c k ent v Hok Hk) as Hok1.
  pose proof (updated_weights_ok c k ent v Hok Hwk Hk) as Hwk1.
  destruct (updated_frame c ent v) as (Hord1 & _ & Hs1 & Hl1 & Hc1 & _).
  apply (store_ok_lookup c k ent Hok) in Hk as [Hin Hkey].
  destruct (store_ok_allocated c ent Hok Hin) as (x & Hx & Hdx).
  pose proof (updated_deref_eq c ent v x Hx) as Hd1.
  assert (Len (updated ent v c) = Len c) as HL.
  { unfold Len, lruList_length. rewrite Hord1. simpl length.
    rewrite length_moveToFront; [done| |done]. by destruct Hok. }
  assert (over_limit (updated ent v c) = false) as Ho.
  { rewrite unweighted_over_limit by (done || by rewrite Hc1).
    apply bool_decide_eq_false. lia. }
  unfold checkEvict. rewrite checkEvict_loop_stop by done. simpl.
  exists (updated ent v c). split; [done|]. split; [|done].
  apply (moved_contents c _ ent); try done.
  - intros q Hq. by apply updated_deref_ne.
  - rewrite Hd1. simpl. by rewrite <-Hdx.
  - by rewrite Hd1.
Qed.

(** ** Purging *)

Lemma range_order_Permutation {A} (seed : list nat) (l : list A) :
  range_order seed l ≡ₚ l.
Proof.
  revert l. induction seed as [|s seed IH]; intros l; [done|]. simpl.
  destruct (l !! (s `mod` length l)%nat) as [x|] eqn:Hx; [|done].
  rewrite IH. symmetry. by apply delete_Permutation.
Qed.

Lemma Purge_fold c w (l : list (K * ptr)) :
  foldl (λ '(c, w) '(k, v),
           (with_items (delete k (items c)) c,
            fire c k (value (deref (evictList c) v)) w)) (c, w) l
  = (with_items (foldl (λ m kv, delete kv.1 m) (items c) l) c,
     deliver (onEvict c)
       ((λ kv, (kv.1, value (deref (evictList c) kv.2))) <$> l) w).
Proof.
  revert c w. induction l as [|[k e] l IH]; intros c w.
  - simpl. unfold deliver. destruct c as [? ? ? [cb|] ? ? ?]; done.
  - simpl. rewrite IH. simpl. f_equal.
    unfold deliver, fire. simpl. by destruct (onEvict c).
Qed.

Lemma foldl_delete_lookup (m : gmap K ptr) (l : list (K * ptr)) k :
  foldl (λ m kv, delete kv.1 m) m l !! k
  = if decide (k ∈ l.*1) then None else m !! k.
Proof.
  revert m. induction l as [|[k' e] l IH]; intros m; [done|].
  simpl foldl. rewrite IH, fmap_cons. simpl fst.
  destruct (decide (k ∈ l.*1)) as [Hin|Hnin].
  - by rewrite decide_True by (apply elem_of_cons; by right).
  - destruct (decide (k = k')) as [->|Hne].
    + rewrite decide_True by (apply elem_of_cons; by left).
      apply lookup_delete_eq.
    + rewrite decide_False by (by intros [?|?]%elem_of_cons).
      by apply lookup_delete_ne.
Qed.

Lemma Purge_result seed c w :
  ∃ l,
    l ≡ₚ map_to_list (items c)
    ∧ Purge seed c w
      = (with_evictList (lruList_init (evictList c)) (with_items ∅ c),
         deliver (onEvict c)
           ((λ kv, (kv.1, value (deref (evictList c) kv.2))) <$> l) w).
Proof.
  exists (range_order seed (map_to_list (items c))).
  split; [apply range_order_Permutation|].
  unfold Purge. rewrite Purge_fold.
  assert (foldl (λ m kv, delete kv.1 m) (items c)
            (range_order seed (map_to_list (items c))) = ∅) as ->; [|done].
  apply map_empty. intros k. rewrite foldl_delete_lookup.
  destruct (decide _) as [|Hn]; [done|].
  destruct (items c !! k) as [e|] eqn:Hk; [|done].
  exfalso. apply Hn. apply list_elem_of_fmap. exists (k, e). split; [done|].
  rewrite range_order_Permutation. by apply elem_of_map_to_list.
Qed.

Lemma items_contents c :
  store_ok c →
  (λ kv, (kv.1, value (deref (evictList c) kv.2))) <$> map_to_list (items c)
  ≡ₚ contents c.
Proof.
  intros Hok. apply NoDup_Permutation.
  - apply NoDup_fmap_2_strong; [|apply NoDup_map_to_list].
    intros [k1 e1] [k2 e2] H1 H2 [= -> _].
    apply elem_of_map_to_list in H1, H2. by simplify_eq.
  - apply (NoDup_fmap_1 fst). rewrite <-contents_keys. by apply Keys_NoDup.
  - intros [k v]. rewrite contents_Peek by done. unfold Peek.
    rewrite list_elem_of_fmap. split.
    + intros ([k' e] & [= -> ->] & He). apply elem_of_map_to_list in He.
      simpl. by rewrite He.
    + destruct (items c !! k) as [e|] eqn:Hk; [|done]. intros [= <-].
      exists (k, e). split; [done|]. by apply elem_of_map_to_list.
Qed.

Lemma Purge_store_ok seed c w :
  ∃ c' w', Purge seed c w = (c', w') ∧ store_ok c'.
Proof.
  destruct (Purge_result seed c w) as (l & _ & ->).
  eexists _, _. split; [done|].
  unfold store_ok. simpl. split_and!.
  - apply NoDup_nil_2.
  - apply Forall_nil_2.
  - apply map_Forall_empty.
Qed.

(** X11. [Purge] empties the cache and notifies every pair it held
    exactly once, in the order in which the key index is visited; the
    size and the weight limit stay. *)
Theorem Purge_notifies_every_pair seed c w :
  store_ok c →
  ∃ l c',
    l ≡ₚ contents c
    ∧ Purge seed c w = (c', deliver (onEvict c) l w)
    ∧ contents c' = []
    ∧ Len c' = 0
    ∧ (∀ k, Contains k c' = false ∧ Peek k c' = (zero, false))
    ∧ size c' = size c ∧ weightLimit c' = weightLimit c
    ∧ store_ok c'.
Proof.
  intros Hok. destruct (Purge_result seed c w) as (l & Hl & ->).
  exists ((λ kv, (kv.1, value (deref (evictList c) kv.2))) <$> l),
         (with_evictList (lruList_init (evictList c)) (with_items ∅ c)).
  split_and!.
  - rewrite Hl. by apply items_contents.
  - done.
  - done.
  - done.
  - intros k. split; [|done]. apply bool_decide_eq_false. simpl.
    rewrite lookup_empty. by apply is_Some_None.
  - done.
  - done.
  - unfold store_ok. simpl. split_and!.
    + apply NoDup_nil_2.
    + apply Forall_nil_2.
    + apply map_Forall_empty.
Qed.


(** ** Runs of calls *)

Lemma Len_nonneg c : 0 ≤ Len c.
Proof. unfold Len, lruList_length. lia. Qed.

Lemma Add_safe calc k v c w :
  consistent calc c →
  ∃ b c' w', Add k v c w = Returns (b, c', w') ∧ consistent calc c'.
Proof.
  intros (Hok & Hwk & Hcalc & Hlen). pose proof (Len_nonneg c).
  destruct (Add_returns k v c w)
    as (b & c' & w' & Hr & Hok' & Hwk' & Hs & _ & Hc & _ & Ho);
    [done|done|lia|].
  exists b, c', w'. split; [done|].
  apply within_bounds in Ho as [Hle _].
  split_and!; try done. by rewrite Hc.
Qed.

Lemma Get_safe calc k c : consistent calc c → consistent calc (Get k c).2.
Proof.
  intros (Hok & Hwk & Hcalc & Hlen).
  destruct (Get_ok k c Hok Hwk) as [Hok' Hwk'].
  split_and!; try done.
  - unfold Get. by destruct (items c !! k).
  - unfold Get in *. destruct (items c !! k) as [ent|] eqn:Hk; [|done].
    apply (store_ok_lookup c k ent Hok) in Hk as [Hin _].
    unfold Len, lruList_length in *. simpl.
    rewrite length_moveToFront; [done| |done]. by destruct Hok.
Qed.

Lemma removeElement_safe calc e c w :
  consistent calc c → e ∈ order (evictList c) →
  consistent calc (removeElement e c w).1.
Proof.
  intros (Hok & Hwk & Hcalc & Hlen) Hin.
  destruct (removeElement_frame c e w Hok Hin) as (_ & _ & _ & _ & HL).
  split_and!.
  - by apply removeElement_store_ok.
  - by apply removeElement_weights_ok.
  - done.
  - rewrite HL. change (size (removeElement e c w).1) with (size c). lia.
Qed.

Lemma Remove_safe calc k c w :
  consistent calc c → consistent calc (Remove k c w).1.2.
Proof.
  intros Hc. unfold Remove.
  destruct (items c !! k) as [ent|] eqn:Hk; [|done].
  apply (store_ok_lookup c k ent (proj1 Hc)) in Hk as [Hin _].
  pose proof (removeElement_safe calc ent c w Hc Hin).
  by destruct (removeElement ent c w).
Qed.

Lemma RemoveOldest_safe calc c w :
  consistent calc c → consistent calc (RemoveOldest c w).1.2.
Proof.
  intros Hc. unfold RemoveOldest.
  destruct (lruList_back (evictList c)) as [ent|] eqn:Hb; [|done].
  destruct (back_snoc _ _ Hb) as [l Hl].
  assert (ent ∈ order (evictList c)) as Hin by (rewrite Hl; set_solver).
  pose proof (removeElement_safe calc ent c w Hc Hin).
  by destruct (removeElement ent c w).
Qed.

Lemma Resize_safe calc n c w :
  consistent calc c → 0 ≤ n →
  ∃ m c' w', Resize n c w = Returns (m, c', w') ∧ consistent calc c'.
Proof.
  intros (Hok & Hwk & Hcalc & Hlen) Hn. unfold Resize.
  destruct (checkEvict_contents (with_size n c) w)
    as (m & c' & Hr & _ & _ & _ & _ & Hc & _ & Hok' & Hwk' & Hle & _);
    [done..|].
  eexists _, c', _. split; [done|]. split_and!; try done. by rewrite Hc.
Qed.

Lemma ResetWeightLimit_safe calc t c w :
  consistent calc c →
  ∃ m c' w', ResetWeightLimit t c w = Returns (m, c', w') ∧ consistent calc c'.
Proof.
  intros (Hok & Hwk & Hcalc & Hlen). unfold ResetWeightLimit.
  pose proof (Len_nonneg c).
  assert (weights_ok (with_weightLimit (wrap64 t) c)) as Hwk1.
  { destruct Hwk as (_ & Hwe & Ht). split; [apply wrap64_range|done]. }
  destruct (checkEvict_contents (with_weightLimit (wrap64 t) c) w)
    as (m & c' & Hr & _ & _ & _ & _ & Hc & _ & Hok' & Hwk' & Hle & _);
    [done|done|simpl; lia|].
  eexists _, c', _. split; [done|]. split_and!; try done. by rewrite Hc.
Qed.

Lemma Purge_safe seed c w :
  consistent None c → consistent None (Purge seed c w).1.
Proof.
  intros (Hok & Hwk & Hcalc & Hlen). pose proof (Len_nonneg c).
  destruct (Purge_result seed c w) as (l & _ & ->). simpl.
  destruct Hwk as (Hlim & _ & Ht).
  rewrite Hcalc, weight_sum_None in Ht.
  split_and!.
  - unfold store_ok. simpl. split_and!.
    + apply NoDup_nil_2.
    + apply Forall_nil_2.
    + apply map_Forall_empty.
  - unfold weights_ok, entries. simpl. split_and!; [lia..|done|done].
  - done.
  - unfold Len, lruList_length. simpl. lia.
Qed.

Lemma direct_step_safe calc (o : call (K := K) (V := V)) c w :
  consistent calc c → call_safe calc o →
  ∃ r c' w', direct_step o c w = Returns (r, c', w') ∧ consistent calc c'.
Proof.
  intros Hc Hsafe. destruct o as [seed|k v|k|k|k|k v|k v|k v|k|n|t| | | | |];
    simpl in *.
  - subst calc. pose proof (Purge_safe seed c w Hc).
    destruct (Purge seed c w) as [c' w']. by eexists _, _, _.
  - destruct (Add_safe calc k v c w Hc) as (b & c' & w' & -> & Hc').
    by eexists _, _, _.
  - pose proof (Get_safe calc k c Hc).
    destruct (Get k c) as [[v ok] c']. by eexists _, _, _.
  - by eexists _, _, _.
  - destruct (Peek k c) as [v ok]. by eexists _, _, _.
  - pose proof (Get_safe calc k c Hc) as Hc1.
    destruct (Get k c) as [[p ok] c1]. simpl in Hc1.
    destruct ok; [by eexists _, _, _|].
    destruct (Add_safe calc k v c1 w Hc1) as (b & c' & w' & -> & Hc').
    by eexists _, _, _.
  - destruct (Contains k c); [by eexists _, _, _|].
    destruct (Add_safe calc k v c w Hc) as (b & c' & w' & -> & Hc').
    by eexists _, _, _.
  - destruct (Peek k c) as [p ok].
    destruct ok; [by eexists _, _, _|].
    destruct (Add_safe calc k v c w Hc) as (b & c' & w' & -> & Hc').
    by eexists _, _, _.
  - pose proof (Remove_safe calc k c w Hc).
    destruct (Remove k c w) as [[b c'] w']. by eexists _, _, _.
  - destruct (Resize_safe calc n c w Hc Hsafe) as (m & c' & w' & -> & Hc').
    by eexists _, _, _.
  - destruct (ResetWeightLimit_safe calc t c w Hc) as (m & c' & w' & -> & Hc').
    by eexists _, _, _.
  - pose proof (RemoveOldest_safe calc c w Hc).
    destruct (RemoveOldest c w) as [[[[k v] ok] c'] w']. by eexists _, _, _.
  - destruct (GetOldest c) as [[k v] ok]. by eexists _, _, _.
  - by eexists _, _, _.
  - by eexists _, _, _.
  - by eexists _, _, _.
Qed.

Lemma direct_run_safe calc (os : list (call (K := K) (V := V))) c w :
  consistent calc c → Forall (call_safe calc) os →
  ∃ rs c' w',
    direct_run os c w = Returns (rs, c', w')
    ∧ length rs = length os ∧ consistent calc c'.
Proof.
  revert c w. induction os as [|o os IH]; intros c w Hc Hos.
  - by exists [], c, w.
  - apply Forall_cons in Hos as [Ho Hos]. simpl.
    destruct (direct_step_safe calc o c w Hc Ho) as (r & c1 & w1 & -> & Hc1).
    destruct (IH c1 w1 Hc1 Hos) as (rs & c' & w' & Hr & Hlen & Hc').
    simpl. rewrite Hr. simpl. exists (r :: rs), c', w'.
    split_and!; [done| |done]. simpl. by rewrite Hlen.
Qed.

Lemma New_consistent n limit calc cb :
  0 < n →
  ∃ c0 : LRU (W := W),
    NewLRUWithWeightLimit n limit calc cb = inr c0 ∧ consistent calc c0.
Proof.
  intros Hn.
  destruct (New_ok (W := W) n limit calc cb Hn)
    as (c0 & Hnew & Hok & Hwk & _ & Hs & _ & Hcalc & _ & Hord & _).
  exists c0. split; [done|]. split_and!; try done.
  unfold Len, lruList_length. rewrite Hord, Hs. simpl. lia.
Qed.

(** X12. Every call that returns leaves the key index and the ordered
    store in agreement, whatever the call and its arguments. *)
Theorem every_call_keeps_index_and_store (o : call (K := K) (V := V)) c w r c' w' :
  store_ok c →
  direct_step o c w = Returns (r, c', w') →
  store_ok c'.
Proof.
  intros Hok Hr.
  assert (∀ k v c1 b, store_ok c1 → Add k v c1 w = Returns (b, c', w') →
                      store_ok c') as Hadd.
  { intros k v c1 b Hok1 Ha.
    destruct (items c1 !! k) as [ent|] eqn:Hk.
    - rewrite (Add_hit _ _ _ _ ent) in Ha by done.
      destruct (checkEvict (updated ent v c1) w) as [[[m c2] w2]| |] eqn:Hce;
        [|done..].
      simpl in Ha. injection Ha as _ <- <-.
      unfold checkEvict in Hce.
      apply checkEvict_loop_trace in Hce
        as (_ & _ & _ & _ & _ & _ & _ & _ & _ & ? & _); [done|].
      by apply (updated_store_ok c1 k).
    - rewrite Add_miss in Ha by done.
      destruct (checkEvict (inserted k v c1) w) as [[[m c2] w2]| |] eqn:Hce;
        [|done..].
      simpl in Ha. injection Ha as _ <- <-.
      unfold checkEvict in Hce.
      apply checkEvict_loop_trace in Hce
        as (_ & _ & _ & _ & _ & _ & _ & _ & _ & ? & _); [done|].
      by apply inserted_store_ok. }
  destruct o as [seed|k v|k|k|k|k v|k v|k v|k|n|t| | | | |]; simpl in Hr.
  - destruct (Purge_store_ok seed c w) as (c1 & w1 & HP & Hok1).
    rewrite HP in Hr. by injection Hr as _ <- _.
  - destruct (Add k v c w) as [[[b c1] w1]| |] eqn:Ha; [|done..].
    simpl in Hr. injection Hr as _ <- <-. by eapply Hadd.
  - pose proof (Get_store_ok k c Hok) as HG.
    destruct (Get k c) as [[v ok] c1]. by injection Hr as _ <- _.
  - by injection Hr as _ <- _.
  - destruct (Peek k c) as [v ok]. by injection Hr as _ <- _.
  - pose proof (Get_store_ok k c Hok) as HG.
    destruct (Get k c) as [[p ok] c1]. simpl in HG.
    destruct ok; [by injection Hr as _ <- _|].
    destruct (Add k v c1 w) as [[[b c2] w2]| |] eqn:Ha; [|done..].
    simpl in Hr. injection Hr as _ <- <-. by eapply Hadd.
  - destruct (Contains k c); [by injection Hr as _ <- _|].
    destruct (Add k v c w) as [[[b c2] w2]| |] eqn:Ha; [|done..].
    simpl in Hr. injection Hr as _ <- <-. by eapply Hadd.
  - destruct (Peek k c) as [p ok].
    destruct ok; [by injection Hr as _ <- _|].
    destruct (Add k v c w) as [[[b c2] w2]| |] eqn:Ha; [|done..].
    simpl in Hr. injection Hr as _ <- <-. by eapply Hadd.
  - unfold Remove in Hr. destruct (items c !! k) as [ent|] eqn:Hk.
    + apply (store_ok_lookup c k ent Hok) in Hk as [Hin _].
      pose proof (removeElement_store_ok c ent w Hok Hin) as HR.
      destruct (removeElement ent c w) as [c1 w1]. by injection Hr as _ <- _.
    + by injection Hr as _ <- _.
  - unfold Resize in Hr.
    destruct (checkEvict (with_size n c) w) as [[[m c2] w2]| |] eqn:Hce;
      [|done..].
    simpl in Hr. injection Hr as _ <- <-. unfold checkEvict in Hce.
    by apply checkEvict_loop_trace in Hce
      as (_ & _ & _ & _ & _ & _ & _ & _ & _ & ? & _).
  - unfold ResetWeightLimit in Hr.
    destruct (checkEvict (with_weightLimit (wrap64 t) c) w)
      as [[[m c2] w2]| |] eqn:Hce; [|done..].
    simpl in Hr. injection Hr as _ <- <-. unfold checkEvict in Hce.
    by apply checkEvict_loop_trace in Hce
      as (_ & _ & _ & _ & _ & _ & _ & _ & _ & ? & _).
  - unfold RemoveOldest in Hr.
    destruct (lruList_back (evictList c)) as [ent|] eqn:Hb.
    + destruct (back_snoc _ _ Hb) as [l Hl].
      assert (ent ∈ order (evictList c)) as Hin by (rewrite Hl; set_solver).
      pose proof (removeElement_store_ok c ent w Hok Hin) as HR.
      destruct (removeElement ent c w) as [c1 w1]. by injection Hr as _ <- _.
    + by injection Hr as _ <- _.
  - destruct (GetOldest c) as [[k v] ok]. by injection Hr as _ <- _.
  - by injection Hr as _ <- _.
  - by injection Hr as _ <- _.
  - by injection Hr as _ <- _.
Qed.

(** X13. A cache made with a positive size never panics under calls
    that ask for no negative size and do not purge a cache that weighs
    its values: every run of such calls returns one result per call, and
    afterwards the index and the store agree, the weight total is the sum
    of the entries' weights modulo 2^64, and the entries fit the size. *)
Theorem engine_runs_return n limit calc cb (os : list (call (K := K) (V := V))) w :
  0 < n → Forall (call_safe calc) os →
  ∃ (c0 : LRU (W := W)) rs c w',
    NewLRUWithWeightLimit n limit calc cb = inr c0
    ∧ direct_run os c0 w = Returns (rs, c, w')
    ∧ length rs = length os
    ∧ store_ok c ∧ weights_ok c ∧ Len c ≤ size c.
Proof.
  intros Hn Hos.
  destruct (New_consistent n limit calc cb Hn) as (c0 & Hnew & Hc0).
  destruct (direct_run_safe calc os c0 w Hc0 Hos)
    as (rs & c & w' & Hr & Hlen & Hok & Hwk & _ & Hle).
  by exists c0, rs, c, w'.
Qed.

End engine_more.

(** * Further properties of the wrapper *)

Section wrapper_more.
Context {K V : Type} `{Countable K} `{!Zero K, !Zero V} {U : Type}.
Context (growslice : nat → nat).
Implicit Types (c : lru.Cache (K := K) (V := V) (U := U)) (u : U).

Lemma consistent_same_engine {W1 W2 : Type}
    (f : option (K → V → W1 → W1)) (g : option (K → V → W2 → W2)) calc
    (c1 : LRU (W := W1)) (c2 : LRU (W := W2)) :
  same_engine f g c1 c2 → consistent calc c2 → consistent calc c1.
Proof.
  intros (Hs & He & Hi & Ht & Hl & Hc & _ & _) (Hok & Hwk & Hcalc & Hlen).
  unfold consistent, store_ok, weights_ok, entries, Len in *.
  rewrite Hs, He, Hi, Ht, Hl, Hc.
  exact (conj Hok (conj Hwk (conj Hcalc Hlen))).
Qed.

(** X14. A wrapper made with a positive size never panics under calls
    that ask for no negative size and do not purge a cache that weighs
    its values: every run of such calls returns one result per call;
    afterwards no notification is left in the buffers, and the engine
    inside is consistent and fits its size. *)
Theorem wrapper_runs_return n limit calc cb (os : list (call (K := K) (V := V))) u :
  0 < n → Forall (call_safe calc) os →
  ∃ c0 rs c u',
    lru.NewWithWeightLimitAndEvict growslice n limit calc cb = inr c0
    ∧ cache_run os c0 u = Returns (rs, c, u')
    ∧ length rs = length os
    ∧ drained c
    ∧ store_ok (lru.lru c) ∧ weights_ok (lru.lru c)
    ∧ lru.Len c ≤ size (lru.lru c).
Proof.
  intros Hn Hos.
  destruct (New_consistent (W := U) n limit calc cb Hn) as (d0 & Hnew & Hd0).
  pose proof (New_mirrors growslice n limit calc cb) as Hm.
  rewrite Hnew in Hm.
  destruct (lru.NewWithWeightLimitAndEvict growslice n limit calc cb)
    as [e|c0]; [done|].
  destruct Hm as [Hm _].
  destruct (direct_run_safe calc os d0 u Hd0 Hos)
    as (rs & d & u' & Hr & Hlen & Hd).
  pose proof (cache_run_mirrors growslice os c0 d0 u Hm) as Hrun.
  rewrite Hr in Hrun.
  apply outcome_rel_cases in Hrun
    as [(a & b & Ha & [= <-] & Hrs & Hmir & Hu)|[[_ ?]|[_ ?]]]; [|done..].
  destruct a as [[rs1 c] u1]. simpl in *. subst rs1 u1.
  destruct Hmir as [Hdr Hsame].
  destruct (consistent_same_engine _ _ calc _ _ Hsame Hd)
    as (Hok & Hwk & _ & Hle).
  by exists c0, rs, c, u'.
Qed.

(** X16. [Purge] of the wrapper returns, calls the user's callback once
    for every pair the cache held, and leaves the cache empty with
    nothing in the buffers. *)
Theorem wrapper_Purge_delivers seed c u :
  store_ok (lru.lru c) →
  drained c →
  onEvict (lru.lru c) = hook_of growslice (lru.onEvictedCB c) →
  ∃ l c',
    l ≡ₚ oldest_first c
    ∧ lru.Purge seed c u = Returns (c', deliver (lru.onEvictedCB c) l u)
    ∧ lru.Len c' = 0
    ∧ lru.Keys c' = []
    ∧ (∀ k, lru.Contains k c' = false)
    ∧ drained c'.
Proof.
  intros Hok Hdr Hhook.
  pose proof (mirrors_direct_of growslice c Hdr Hhook) as Hm.
  pose proof (Purge_mirrors growslice seed c (direct_of c) u Hm) as HP.
  destruct (Purge_result seed (direct_of c) u) as (l & Hl & HR).
  rewrite HR in HP.
  apply outcome_rel_cases in HP
    as [(a & b & Ha & [= <-] & Hmir & Hu)|[[_ ?]|[_ ?]]]; [|done..].
  destruct a as [c' u']. simpl in *. subst u'.
  destruct Hmir as [Hdr' (_ & He & Hi & _)]. simpl in He, Hi.
  exists ((λ kv, (kv.1, value (deref (evictList (lru.lru c)) kv.2))) <$> l), c'.
  split_and!.
  - rewrite Hl. apply (items_contents (direct_of c)). exact Hok.
  - done.
  - unfold lru.Len, Len. by rewrite He.
  - unfold lru.Keys, Keys. by rewrite He.
  - intros k. unfold lru.Contains, Contains. rewrite Hi.
    apply bool_decide_eq_false. rewrite lookup_empty. by apply is_Some_None.
  - done.
Qed.

End wrapper_more.

(** * A call that panics inside the engine *)

Section aborted_calls.
Context {K V : Type} `{Countable K} `{!Zero K, !Zero V} {U : Type}.
Context (growslice : nat → nat).
Implicit Types (c : lru.Cache (K := K) (V := V) (U := U)) (u : U).

(** [checkEvict_loop_reached] is the loop of [checkEvict]: it ends where
    the loop returns, and where the loop panics it has stopped over the
    limit on an empty store. *)
Lemma checkEvict_loop_reached_agrees {W : Type} fuel n
    (d : LRU (K := K) (V := V) (W := W)) (w : W) :
  match checkEvict_loop fuel n d w with
  | Returns r => checkEvict_loop_reached fuel d w = (r.1.2, r.2)
  | Panics =>
      over_limit (checkEvict_loop_reached fuel d w).1 = true
      ∧ lruList_back (evictList (checkEvict_loop_reached fuel d w).1) = None
  | Unfinished => True
  end.
Proof.
  revert n d w. induction fuel as [|fuel IH]; intros n d w.
  - simpl. by destruct (over_limit d).
  - cbn [checkEvict_loop checkEvict_loop_reached].
    destruct (over_limit d) eqn:Ho; [|done].
    destruct (lruList_back (evictList d)) as [e|] eqn:Hb; [|done].
    destruct (removeElement e d w) as [d1 w1]. apply IH.
Qed.

Lemma checkEvict_loop_reached_negative {W : Type} fuel
    (d : LRU (K := K) (V := V) (W := W)) (w : W) :
  size d < 0 → store_ok d → (length (order (evictList d)) < fuel)%nat →
  order (evictList (checkEvict_loop_reached fuel d w).1) = []
  ∧ (checkEvict_loop_reached fuel d w).2
    = notify d (reverse (order (evictList d))) w.
Proof.
  revert d w. induction fuel as [|fuel IH]; intros d w Hs Hok Hlen; [lia|].
  assert (over_limit d = true) as Ho.
  { unfold over_limit, lruList_length.
    rewrite bool_decide_eq_true_2; [done|lia]. }
  cbn [checkEvict_loop_reached]. rewrite Ho.
  destruct (lruList_back (evictList d)) as [e|] eqn:Hb.
  - destruct (back_snoc _ _ Hb) as [l Hl].
    assert (e ∈ order (evictList d)) as Hin.
    { rewrite Hl. apply elem_of_app. right. by apply list_elem_of_singleton. }
    assert (order (evictList (removeElement e d w).1) = l) as Hl1.
    { simpl. rewrite Hl. apply filter_ne_snoc.
      destruct Hok as (Hnd & _). rewrite Hl in Hnd.
      apply NoDup_app in Hnd as (_ & Hd & _).
      intros Hel. apply (Hd _ Hel). by apply list_elem_of_singleton. }
    pose proof (removeElement_store_ok d e w Hok Hin) as Hok1.
    destruct (IH (removeElement e d w).1 (removeElement e d w).2)
      as [Hnil Hw]; [done|done|rewrite Hl1; rewrite Hl, length_app in Hlen;
                                 simpl in Hlen; lia|].
    rewrite Hl1 in Hw.
    destruct (removeElement e d w) as [d1 w1] eqn:Hr. simpl in Hnil, Hw.
    split; [done|]. rewrite Hw, Hl, reverse_app. simpl.
    assert (d1 = (removeElement e d w).1) as -> by (by rewrite Hr).
    assert (w1 = (removeElement e d w).2) as -> by (by rewrite Hr).
    by rewrite (notify_ext d).
  - unfold lruList_back in Hb. apply last_None in Hb. rewrite Hb. done.
Qed.

Lemma notify_hook_data (d : LRU (K := K) (V := V)) (l : list ptr)
    (b : slice K * slice V) :
  onEvict d = Some (lru.onEvicted growslice) →
  data (notify d l b).1
  = data b.1 ++ ((λ e, key (deref (evictList d) e)) <$> l)
  ∧ data (notify d l b).2
    = data b.2 ++ ((λ e, value (deref (evictList d) e)) <$> l).
Proof.
  intros Hh. unfold notify, fire. rewrite Hh.
  revert b. induction l as [|e l IH]; intros b.
  - simpl. by rewrite !app_nil_r.
  - simpl. destruct (IH (lru.onEvicted growslice
                           (key (deref (evictList d) e))
                           (value (deref (evictList d) e)) b)) as [-> ->].
    unfold lru.onEvicted. simpl. rewrite !data_append, <-!app_assoc. done.
Qed.

(** C7. Not every buffered pair is delivered.  [Resize] to a negative
    size on a wrapper that has a callback panics inside the engine, after
    the engine has evicted every pair and the hook has buffered them,
    oldest first; the call ends there, before [callEvictCB] is deferred,
    so the user's callback is told none of them.  An engine that has the
    callback installed directly panics too, but has by then told the user
    every pair. *)
Theorem Resize_negative_leaves_pairs_undelivered n c u cb :
  n < 0 →
  store_ok (lru.lru c) →
  drained c →
  lru.onEvictedCB c = Some cb →
  onEvict (lru.lru c) = hook_of growslice (lru.onEvictedCB c) →
  lru.Resize n c u = Panics
  ∧ data (checkEvict_reached (with_size n (lru.lru c)) (lru.bufs c)).2.1
    = (oldest_first c).*1
  ∧ data (checkEvict_reached (with_size n (lru.lru c)) (lru.bufs c)).2.2
    = (oldest_first c).*2
  ∧ Resize n (direct_of c) u = Panics
  ∧ (checkEvict_reached (with_size n (direct_of c)) u).2
    = deliver (Some cb) (oldest_first c) u.
Proof.
  intros Hn Hok [Hdk Hdv] Hcb Hhook. rewrite Hcb in Hhook. simpl in Hhook.
  set (d := with_size n (lru.lru c)).
  destruct (checkEvict_loop_reached_negative
              (S (length (order (evictList d)))) d (lru.bufs c)) as [_ Hb];
    [done|done|lia|].
  destruct (notify_hook_data d (reverse (order (evictList d))) (lru.bufs c)
              Hhook) as [Hk Hv].
  set (d' := with_size n (direct_of c)).
  destruct (checkEvict_loop_reached_negative
              (S (length (order (evictList d')))) d' u) as [_ Hu];
    [done|exact Hok|lia|].
  split_and!.
  - unfold lru.Resize, Resize. by rewrite checkEvict_negative_size.
  - unfold checkEvict_reached. rewrite Hb, Hk. simpl.
    rewrite Hdk. unfold oldest_first. by rewrite <-list_fmap_compose.
  - unfold checkEvict_reached. rewrite Hb, Hv. simpl.
    rewrite Hdv. unfold oldest_first. by rewrite <-list_fmap_compose.
  - unfold Resize. by rewrite checkEvict_negative_size.
  - unfold checkEvict_reached. rewrite Hu.
    rewrite (notify_ext (direct_of c)) by done.
    by rewrite notify_direct_of, Hcb.
Qed.

End aborted_calls.

(** * Instances of the further properties at concrete caches *)

Section more_scenarios.
Local Open Scope string_scope.
Local Open Scope Z_scope.

Lemma Keys_are_the_present_keys_witness :
  store_ok plain_ab
  ∧ NoDup (Keys plain_ab)
  ∧ Z.of_nat (length (Keys plain_ab)) = Len plain_ab
  ∧ (∀ k, k ∈ Keys plain_ab ↔ Contains k plain_ab = true)
  ∧ Keys plain_ab = (contents plain_ab).*1
  ∧ (∀ k v, (k, v) ∈ contents plain_ab ↔ Peek k plain_ab = (v, true)).
Proof.
  assert (store_ok plain_ab) as Hok by decide_by_evaluation.
  split; [exact Hok|]. exact (Keys_are_the_present_keys plain_ab Hok).
Defined.

Lemma Remove_removes_that_key_witness :
  store_ok plain_ab
  ∧ ((Contains "a" plain_ab = false
      ∧ Remove "a" plain_ab [] = (false, plain_ab, []))
     ∨ (∃ v c',
          Peek "a" plain_ab = (v, true)
          ∧ Remove "a" plain_ab [] = (true, c', fire plain_ab "a" v [])
          ∧ Contains "a" c' = false
          ∧ (∀ k', k' ≠ "a" → Peek k' c' = Peek k' plain_ab)
          ∧ Keys c' = filter (λ k', k' ≠ "a") (Keys plain_ab)
          ∧ Len c' = Len plain_ab - 1)).
Proof.
  assert (store_ok plain_ab) as Hok by decide_by_evaluation.
  split; [exact Hok|]. exact (Remove_removes_that_key "a" plain_ab [] Hok).
Defined.

Lemma RemoveOldest_removes_first_key_witness :
  store_ok plain_ab
  ∧ ((Keys plain_ab = [] ∧ GetOldest plain_ab = (zero, zero, false)
      ∧ RemoveOldest plain_ab [] = (zero, zero, false, plain_ab, []))
     ∨ (∃ k v c',
          head (Keys plain_ab) = Some k
          ∧ Peek k plain_ab = (v, true)
          ∧ GetOldest plain_ab = (k, v, true)
          ∧ RemoveOldest plain_ab [] = (k, v, true, c', fire plain_ab k v [])
          ∧ Keys c' = drop 1 (Keys plain_ab)
          ∧ Contains k c' = false)).
Proof.
  assert (store_ok plain_ab) as Hok by decide_by_evaluation.
  split; [exact Hok|]. exact (RemoveOldest_removes_first_key plain_ab [] Hok).
Defined.

Lemma Resize_evicts_oldest_witness :
  store_ok plain_ab ∧ weights_ok plain_ab ∧ 0 ≤ 1
  ∧ ∃ (m : nat) c',
      Resize 1 plain_ab []
      = Returns (Z.of_nat m, c',
                 deliver (onEvict plain_ab) (take m (contents plain_ab)) [])
      ∧ contents c' = drop m (contents plain_ab)
      ∧ size c' = 1 ∧ Len c' ≤ 1
      ∧ (weightCalculator plain_ab = None
         → Z.of_nat m = Z.max 0 (Len plain_ab - 1)).
Proof.
  assert (store_ok plain_ab) as Hok by decide_by_evaluation.
  assert (weights_ok plain_ab) as Hwk by decide_by_evaluation.
  assert (0 ≤ 1) as Hn by lia.
  split; [exact Hok|]. split; [exact Hwk|]. split; [exact Hn|].
  exact (Resize_evicts_oldest 1 plain_ab [] Hok Hwk Hn).
Defined.

Lemma ResetWeightLimit_evicts_oldest_witness :
  store_ok weighted_xy ∧ weights_ok weighted_xy ∧ 0 ≤ size weighted_xy
  ∧ ∃ (m : nat) c',
      ResetWeightLimit 5 weighted_xy []
      = Returns (Z.of_nat m, c',
                 deliver (onEvict weighted_xy) (take m (contents weighted_xy)) [])
      ∧ contents c' = drop m (contents weighted_xy)
      ∧ weightLimit c' = wrap64 5
      ∧ WeightTotal c' ≤ wrap64 5
      ∧ Len c' ≤ size weighted_xy
      ∧ (Len weighted_xy ≤ size weighted_xy
         → WeightTotal weighted_xy ≤ wrap64 5 → m = 0%nat).
Proof.
  assert (store_ok weighted_xy) as Hok by decide_by_evaluation.
  assert (weights_ok weighted_xy) as Hwk by decide_by_evaluation.
  assert (0 ≤ size weighted_xy) as Hs by decide_by_evaluation.
  split; [exact Hok|]. split; [exact Hwk|]. split; [exact Hs|].
  exact (ResetWeightLimit_evicts_oldest 5 weighted_xy [] Hok Hwk Hs).
Defined.

Lemma Add_new_key_unweighted_witness :
  store_ok plain_ab ∧ weights_ok plain_ab ∧ weightCalculator plain_ab = None
  ∧ 1 ≤ size plain_ab ∧ Len plain_ab ≤ size plain_ab
  ∧ Contains "c" plain_ab = false
  ∧ ∃ c',
      Add "c" 3 plain_ab []
      = Returns (bool_decide (Len plain_ab = size plain_ab), c',
                 if bool_decide (Len plain_ab = size plain_ab)
                 then deliver (onEvict plain_ab) (take 1 (contents plain_ab)) []
                 else [])
      ∧ contents c'
        = ((if bool_decide (Len plain_ab = size plain_ab)
            then drop 1 (contents plain_ab) else contents plain_ab)
           ++ [("c", 3)])%list.
Proof.
  assert (store_ok plain_ab) as Hok by decide_by_evaluation.
  assert (weights_ok plain_ab) as Hwk by decide_by_evaluation.
  assert (weightCalculator plain_ab = None) as Hcalc by reflexivity.
  assert (1 ≤ size plain_ab) as Hs by decide_by_evaluation.
  assert (Len plain_ab ≤ size plain_ab) as Hlen by decide_by_evaluation.
  assert (Contains "c" plain_ab = false) as Hk by (vm_compute; reflexivity).
  split_and!; [exact Hok|exact Hwk|exact Hcalc|exact Hs|exact Hlen|exact Hk|].
  exact (Add_new_key_unweighted "c" 3 plain_ab [] Hok Hwk Hcalc Hs Hlen Hk).
Defined.



Lemma Get_makes_most_recent_witness :
  store_ok plain_ab
  ∧ ((Contains "a" plain_ab = false ∧ Get "a" plain_ab = (zero, false, plain_ab))
     ∨ (∃ v c',
          Peek "a" plain_ab = (v, true)
          ∧ Get "a" plain_ab = (v, true, c')
          ∧ contents c'
            = (filter (λ kv, kv.1 ≠ "a") (contents plain_ab) ++ [("a", v)])%list
          ∧ Len c' = Len plain_ab ∧ size c' = size plain_ab
          ∧ WeightTotal c' = WeightTotal plain_ab
          ∧ weightLimit c' = weightLimit plain_ab)).
Proof.
  assert (store_ok plain_ab) as Hok by decide_by_evaluation.
  split; [exact Hok|]. exact (Get_makes_most_recent "a" plain_ab Hok).
Defined.

Lemma Add_present_key_unweighted_witness :
  store_ok plain_ab ∧ weights_ok plain_ab ∧ weightCalculator plain_ab = None
  ∧ Len plain_ab ≤ size plain_ab
  ∧ Contains "a" plain_ab = true
  ∧ ∃ c',
      Add "a" 9 plain_ab [] = Returns (false, c', [])
      ∧ contents c'
        = (filter (λ kv, kv.1 ≠ "a") (contents plain_ab) ++ [("a", 9)])%list
      ∧ Len c' = Len plain_ab.
Proof.
  assert (store_ok plain_ab) as Hok by decide_by_evaluation.
  assert (weights_ok plain_ab) as Hwk by decide_by_evaluation.
  assert (weightCalculator plain_ab = None) as Hcalc by reflexivity.
  assert (Len plain_ab ≤ size plain_ab) as Hlen by decide_by_evaluation.
  assert (Contains "a" plain_ab = true) as Hk by (vm_compute; reflexivity).
  split_and!; [exact Hok|exact Hwk|exact Hcalc|exact Hlen|exact Hk|].
  exact (Add_present_key_unweighted "a" 9 plain_ab [] Hok Hwk Hcalc Hlen Hk).
Defined.

Lemma Purge_notifies_every_pair_witness :
  store_ok plain_ab
  ∧ ∃ l c',
      l ≡ₚ contents plain_ab
      ∧ Purge [1%nat] plain_ab [] = (c', deliver (onEvict plain_ab) l [])
      ∧ contents c' = []
      ∧ Len c' = 0
      ∧ (∀ k, Contains k c' = false ∧ Peek k c' = (zero, false))
      ∧ size c' = size plain_ab ∧ weightLimit c' = weightLimit plain_ab
      ∧ store_ok c'.
Proof.
  assert (store_ok plain_ab) as Hok by decide_by_evaluation.
  split; [exact Hok|]. exact (Purge_notifies_every_pair [1%nat] plain_ab [] Hok).
Defined.

Lemma every_call_keeps_index_and_store_witness :
  store_ok plain_ab
  ∧ direct_step (CallResize 1) plain_ab [] = Returns (Count 1, plain_b, [("a", 1)])
  ∧ store_ok plain_b.
Proof.
  assert (store_ok plain_ab) as Hok by decide_by_evaluation.
  assert (direct_step (CallResize 1) plain_ab []
          = Returns (Count 1, plain_b, [("a", 1)])) as Hr
    by (vm_compute; reflexivity).
  split; [exact Hok|]. split; [exact Hr|].
  exact (every_call_keeps_index_and_store _ _ _ _ _ _ Hok Hr).
Defined.

Lemma engine_runs_return_witness :
  0 < 2
  ∧ Forall (call_safe None)
      [CallAdd "a" 1; CallAdd "b" 2; CallAdd "c" 3; CallResize 0;
       CallPurge []; CallGet "a"]
  ∧ ∃ (c0 : example_cache) rs c w',
      NewLRUWithWeightLimit 2 0 None (Some record_eviction) = inr c0
      ∧ direct_run
          [CallAdd "a" 1; CallAdd "b" 2; CallAdd "c" 3; CallResize 0;
           CallPurge []; CallGet "a"] c0 []
        = Returns (rs, c, w')
      ∧ length rs = 6%nat
      ∧ store_ok c ∧ weights_ok c ∧ Len c ≤ size c.
Proof.
  assert (0 < 2) as Hn by lia.
  assert (Forall (call_safe (K := string) (V := Z) None)
            [CallAdd "a" 1; CallAdd "b" 2; CallAdd "c" 3; CallResize 0;
             CallPurge []; CallGet "a"]) as Hos
    by (repeat (apply Forall_cons_2;
                  [simpl; first [exact I|lia|reflexivity]|]);
        apply Forall_nil_2).
  split; [exact Hn|]. split; [exact Hos|].
  exact (engine_runs_return 2 0 None (Some record_eviction) _ [] Hn Hos).
Defined.

Lemma wrapper_runs_return_witness :
  0 < 2
  ∧ Forall (call_safe None)
      [CallAdd "a" 1; CallAdd "b" 2; CallGetOrAdd "c" 3; CallResize 0;
       CallPurge []; CallPeekOrAdd "a" 1]
  ∧ ∃ c0 rs c (u' : list (string * Z)),
      lru.NewWithWeightLimitAndEvict doubling 2 0 None (Some record_eviction)
      = inr c0
      ∧ cache_run
          [CallAdd "a" 1; CallAdd "b" 2; CallGetOrAdd "c" 3; CallResize 0;
           CallPurge []; CallPeekOrAdd "a" 1] c0 []
        = Returns (rs, c, u')
      ∧ length rs = 6%nat
      ∧ drained c
      ∧ store_ok (lru.lru c) ∧ weights_ok (lru.lru c)
      ∧ lru.Len c ≤ size (lru.lru c).
Proof.
  assert (0 < 2) as Hn by lia.
  assert (Forall (call_safe (K := string) (V := Z) None)
            [CallAdd "a" 1; CallAdd "b" 2; CallGetOrAdd "c" 3; CallResize 0;
             CallPurge []; CallPeekOrAdd "a" 1]) as Hos
    by (repeat (apply Forall_cons_2;
                  [simpl; first [exact I|lia|reflexivity]|]);
        apply Forall_nil_2).
  split; [exact Hn|]. split; [exact Hos|].
  exact (wrapper_runs_return doubling 2 0 None (Some record_eviction) _ []
           Hn Hos).
Defined.

Lemma wrapper_Purge_delivers_witness :
  store_ok (lru.lru recording_ab)
  ∧ drained recording_ab
  ∧ onEvict (lru.lru recording_ab)
    = hook_of doubling (lru.onEvictedCB recording_ab)
  ∧ ∃ l c',
      l ≡ₚ oldest_first recording_ab
      ∧ lru.Purge [] recording_ab []
        = Returns (c', deliver (lru.onEvictedCB recording_ab) l [])
      ∧ lru.Len c' = 0
      ∧ lru.Keys c' = []
      ∧ (∀ k, lru.Contains k c' = false)
      ∧ drained c'.
Proof.
  assert (store_ok (lru.lru recording_ab)) as Hok by decide_by_evaluation.
  assert (drained recording_ab) as Hdr by (split; reflexivity).
  assert (onEvict (lru.lru recording_ab)
          = hook_of doubling (lru.onEvictedCB recording_ab)) as Hhook
    by reflexivity.
  split; [exact Hok|]. split; [exact Hdr|]. split; [exact Hhook|].
  exact (wrapper_Purge_delivers doubling [] recording_ab [] Hok Hdr Hhook).
Defined.

Lemma Resize_negative_leaves_pairs_undelivered_witness :
  -1 < 0
  ∧ store_ok (lru.lru recording_ab)
  ∧ drained recording_ab
  ∧ lru.onEvictedCB recording_ab = Some record_eviction
  ∧ onEvict (lru.lru recording_ab)
    = hook_of doubling (lru.onEvictedCB recording_ab)
  ∧ lru.Resize (-1) recording_ab [] = Panics
  ∧ data (checkEvict_reached (with_size (-1) (lru.lru recording_ab))
            (lru.bufs recording_ab)).2.1
    = (oldest_first recording_ab).*1
  ∧ data (checkEvict_reached (with_size (-1) (lru.lru recording_ab))
            (lru.bufs recording_ab)).2.2
    = (oldest_first recording_ab).*2
  ∧ Resize (-1) (direct_of recording_ab) [] = Panics
  ∧ (checkEvict_reached (with_size (-1) (direct_of recording_ab)) []).2
    = deliver (Some record_eviction) (oldest_first recording_ab) [].
Proof.
  assert (-1 < 0) as Hn by lia.
  assert (store_ok (lru.lru recording_ab)) as Hok by decide_by_evaluation.
  assert (drained recording_ab) as Hdr by (split; reflexivity).
  assert (lru.onEvictedCB recording_ab = Some record_eviction) as Hcb
    by reflexivity.
  assert (onEvict (lru.lru recording_ab)
          = hook_of doubling (lru.onEvictedCB recording_ab)) as Hhook
    by reflexivity.
  split_and!; [exact Hn|exact Hok|exact Hdr|exact Hcb|exact Hhook|..];
    apply (Resize_negative_leaves_pairs_undelivered doubling (-1)
             recording_ab [] record_eviction Hn Hok Hdr Hcb Hhook).
Defined.

(** What that run leaves: both pairs in the buffers, none with the user;
    the engine that calls the callback directly has told the user both. *)
Lemma Resize_negative_pairs_recorded :
  (oldest_first recording_ab).*1 = ["a"; "b"]
  ∧ (oldest_first recording_ab).*2 = [1; 2]
  ∧ deliver (Some record_eviction) (oldest_first recording_ab) []
    = [("a", 1); ("b", 2)].
Proof. by vm_compute. Qed.

End more_scenarios.
